(** * termachick: automaton-based string matchers (KMP and Aho-Corasick)

    A shallow embedding of [strings/dfa.py], [strings/kmp.py],
    [strings/ahocorasick.py] and the persistence functions of
    [strings/stringsapp.py], with the properties of the specification
    stated and settled against it.

    Conventions of the embedding:
    - Python [int] is [Z]; a one-character [str] is [ascii]; a [str] is a
      [list ascii].
    - a [dict] whose iteration order is observed (the rows of the transition
      table, which [bfs_traverse] walks with [.items()]) is an association
      list in insertion order; the other dicts are [gmap]s and the sets are
      [gset]s.  The alphabet is kept as the list in which Python iterates the
      set, which the language leaves unspecified: builders take that list as
      an argument and the theorems quantify over it.
    - a call either returns, raises, or never returns: [result].  A method
      that mutates its object before raising returns the mutated object next
      to the [result].
    - a generator consumed to the end is the list of the values it yielded
      together with the way it ended. *)

From Stdlib Require Import ZArith Lia Ascii String DecimalString DecimalZ
  DecimalPos.
From stdpp Require Import gmap strings list.

Local Open Scope Z_scope.

(** ** Python values and control *)

Inductive exn : Type :=
  | ValueError (msg : string)
  | KeyError
  | IndexError
  | AttributeError
  | UnboundLocalError.

Inductive result (A : Type) : Type :=
  | Ok (a : A)
  | Raise (e : exn)
  | Diverge.

Arguments Ok {A} a.
Arguments Raise {A} e.
Arguments Diverge {A}.

#[global] Instance result_ret : MRet result := @Ok.
#[global] Instance result_bind : MBind result := fun A B f m =>
  match m with
  | Ok a => f a
  | Raise e => Raise e
  | Diverge => Diverge
  end.

#[global] Instance result_fmap : FMap result := fun A B f m =>
  match m with
  | Ok a => Ok (f a)
  | Raise e => Raise e
  | Diverge => Diverge
  end.

Abbreviation str := (list ascii).

Definition lit (s : string) : str := list_ascii_of_string s.

(** Truth value of a [State | None]: [None] and [0] are false. *)
Definition truthy (o : option Z) : bool :=
  match o with
  | Some z => negb (z =? 0)
  | None => false
  end.

(** [o or 0] for a [State | None]. *)
Definition or0 (o : option Z) : Z :=
  match o with
  | Some z => z
  | None => 0
  end.

(** [l[i]] on a Python list: negative indices count from the end. *)
Definition list_getitem {A} (l : list A) (i : Z) : result A :=
  let n := Z.of_nat (length l) in
  let k := if 0 <=? i then i else n + i in
  if (0 <=? k) && (k <? n) then
    match l !! Z.to_nat k with
    | Some x => Ok x
    | None => Raise IndexError
    end
  else Raise IndexError.

(** [l[i] = x] on a Python list. *)
Definition list_setitem {A} (l : list A) (i : Z) (x : A) : result (list A) :=
  let n := Z.of_nat (length l) in
  let k := if 0 <=? i then i else n + i in
  if (0 <=? k) && (k <? n) then Ok (<[Z.to_nat k := x]> l)
  else Raise IndexError.

(** [d[k]] on a dict. *)
Definition dict_getitem {V} (d : gmap Z V) (k : Z) : result V :=
  match d !! k with
  | Some v => Ok v
  | None => Raise KeyError
  end.

(** Insertion-ordered dict with one-character keys. *)
Section Row.
Context {V : Type}.

Fixpoint row_get (r : list (ascii * V)) (a : ascii) : option V :=
  match r with
  | [] => None
  | (b, v) :: r' => if bool_decide (a = b) then Some v else row_get r' a
  end.

Definition row_mem (r : list (ascii * V)) (a : ascii) : bool :=
  match row_get r a with Some _ => true | None => false end.

(** [r[a] = v]: an existing key keeps its place, a new one goes last. *)
Fixpoint row_set (r : list (ascii * V)) (a : ascii) (v : V) : list (ascii * V) :=
  match r with
  | [] => [(a, v)]
  | (b, w) :: r' =>
      if bool_decide (a = b) then (b, v) :: r' else (b, w) :: row_set r' a v
  end.
End Row.

(** ** strings/dfa.py *)

Inductive TransitionType : Type := SUCCESS | FAILURE.

Record DFA : Type := mkDFA {
  states : option Z;
  alphabets : list ascii;
  transitions : gmap Z (list (ascii * Z));
  transition_types : gmap Z (list (ascii * TransitionType));
  initial_state : option Z;
  accepting_states : gset Z
}.

Abbreviation Edge := (Z * ascii * Z)%type.

Module DFA.

Definition __init__ (alphabets : list ascii) : DFA :=
  {| states := None; alphabets := alphabets; transitions := ∅;
     transition_types := ∅; initial_state := None; accepting_states := ∅ |}.

Definition set_states (d : DFA) (s : option Z) : DFA :=
  {| states := s; alphabets := alphabets d; transitions := transitions d;
     transition_types := transition_types d;
     initial_state := initial_state d;
     accepting_states := accepting_states d |}.

Definition set_initial_state (d : DFA) (s : option Z) : DFA :=
  {| states := states d; alphabets := alphabets d;
     transitions := transitions d;
     transition_types := transition_types d;
     initial_state := s;
     accepting_states := accepting_states d |}.

Definition set_accepting_states (d : DFA) (acc : gset Z) : DFA :=
  {| states := states d; alphabets := alphabets d;
     transitions := transitions d;
     transition_types := transition_types d;
     initial_state := initial_state d;
     accepting_states := acc |}.

Definition set_transitions (d : DFA) (t : gmap Z (list (ascii * Z))) : DFA :=
  {| states := states d; alphabets := alphabets d;
     transitions := t;
     transition_types := transition_types d;
     initial_state := initial_state d;
     accepting_states := accepting_states d |}.

Definition set_transition_types (d : DFA)
    (t : gmap Z (list (ascii * TransitionType))) : DFA :=
  {| states := states d; alphabets := alphabets d;
     transitions := transitions d;
     transition_types := t;
     initial_state := initial_state d;
     accepting_states := accepting_states d |}.

(** [add_state]: the counter is bumped before the initial-state test, and
    that test is the truth value of [self.initial_state]. *)
Definition add_state (d : DFA) (is_accepting is_initial : bool)
    : DFA * result Z :=
  let s := match states d with None => 0 | Some n => n + 1 end in
  let d1 := set_states d (Some s) in
  if is_initial && truthy (initial_state d1) then
    (d1, Raise (ValueError "DFA already has an initial state"))
  else
    let d2 := if is_initial then set_initial_state d1 (Some s) else d1 in
    let d3 := if is_accepting
              then set_accepting_states d2 ({[ s ]} ∪ accepting_states d2)
              else d2 in
    (d3, Ok s).

(** [transition]: the row is indexed only after the membership test. *)
Definition transition (d : DFA) (current_state : Z) (symbol : ascii)
    : result (option Z) :=
  if bool_decide (current_state ∈ dom (transitions d)) then
    row ← dict_getitem (transitions d) current_state;
    Ok (row_get row symbol)
  else Ok None.

Definition has_transition (d : DFA) (current_state : Z) (symbol : ascii)
    : result bool :=
  t ← transition d current_state symbol;
  Ok (match t with Some _ => true | None => false end).

Definition get_transition_type (d : DFA) (from_state : Z) (symbol : ascii)
    : result (option TransitionType) :=
  if bool_decide (from_state ∈ dom (transition_types d)) then
    row ← dict_getitem (transition_types d) from_state;
    Ok (row_get row symbol)
  else Ok None.

Definition out_of_range (d : DFA) (s : Z) : bool :=
  match states d with
  | None => true
  | Some n => (s <? 0) || (n <? s)
  end.

Definition is_accepting_state (d : DFA) (state : Z) : result bool :=
  if out_of_range d state then Raise (ValueError "State does not exist")
  else Ok (bool_decide (state ∈ accepting_states d)).

Definition add_transition (d : DFA) (from_state : Z) (symbol : ascii)
    (to_state : Z) (transition_type : TransitionType) : DFA * result unit :=
  match states d with
  | None => (d, Raise (ValueError "No state"))
  | Some n =>
    if (from_state <? 0) || (n <? from_state) then
      (d, Raise (ValueError "State does not exist"))
    else if (to_state <? 0) || (n <? to_state) then
      (d, Raise (ValueError "State does not exist"))
    else if negb (bool_decide (symbol ∈ alphabets d)) then
      (d, Raise (ValueError "Symbol does not exist"))
    else
      let d1 :=
        if bool_decide (from_state ∈ dom (transitions d)) then d
        else set_transition_types
               (set_transitions d (<[from_state := []]> (transitions d)))
               (<[from_state := []]> (transition_types d)) in
      match transitions d1 !! from_state with
      | None => (d1, Raise KeyError)
      | Some row =>
        if row_mem row symbol then
          (d1, Raise (ValueError "Transition already exists"))
        else
          let d2 := set_transitions d1
                      (<[from_state := row_set row symbol to_state]>
                         (transitions d1)) in
          match transition_types d2 !! from_state with
          | None => (d2, Raise KeyError)
          | Some trow =>
            (set_transition_types d2
               (<[from_state := row_set trow symbol transition_type]>
                  (transition_types d2)), Ok tt)
          end
      end
  end.

Definition add_accepting (d : DFA) (state : Z) : DFA * result unit :=
  if negb (truthy (states d)) then (d, Raise (ValueError "No state defined"))
  else if out_of_range d state then
    (d, Raise (ValueError "State does not exist"))
  else (set_accepting_states d ({[ state ]} ∪ accepting_states d), Ok tt).

Definition set_accepting (d : DFA) (state : Z) (accepting : bool)
    : DFA * result unit :=
  if accepting then
    (set_accepting_states d ({[ state ]} ∪ accepting_states d), Ok tt)
  else if bool_decide (state ∈ accepting_states d) then
    (set_accepting_states d (accepting_states d ∖ {[ state ]}), Ok tt)
  else (d, Raise KeyError).

Definition n_states (d : DFA) : Z :=
  match states d with Some n => n + 1 | None => 0 end.

(** *** bfs_traverse *)

(** The inner [for] of the traversal: every unvisited edge out of [src]
    joins the queue and the visited set. *)
Fixpoint explore (src : Z) (row : list (ascii * Z))
    (queue : list Edge) (visited : gset Edge) : list Edge * gset Edge :=
  match row with
  | [] => (queue, visited)
  | (sym, next_state) :: row' =>
      if bool_decide ((src, sym, next_state) ∈ visited)
      then explore src row' queue visited
      else explore src row' (queue ++ [(src, sym, next_state)])
             ({[ (src, sym, next_state) ]} ∪ visited)
  end.

(** The [while queue] loop; [None] when the fuel is spent first. *)
Fixpoint bfs_loop (fuel : nat) (d : DFA) (queue : list Edge)
    (visited : gset Edge) : option (list Edge) :=
  match queue with
  | [] => Some []
  | current_state :: queue' =>
      match fuel with
      | O => None
      | S fuel' =>
          let '(q, v) :=
            match transitions d !! current_state.2 with
            | Some row => explore current_state.2 row queue' visited
            | None => (queue', visited)
            end in
          cons current_state <$> bfs_loop fuel' d q v
      end
  end.

(** Number of entries of the transition table. *)
Definition n_edges (d : DFA) : nat :=
  map_fold (fun _ row n => (length row + n)%nat) 0%nat (transitions d).

Definition first_level_children (s0 : Z) (row : list (ascii * Z))
    : list Edge :=
  omap (fun '(chr, s) =>
          if bool_decide (s ≠ s0) then Some (s0, chr, s) else None) row.

(** [list(self.bfs_traverse())]. Each pass of the loop pops one edge and an
    edge enters the queue at most once after the first level, so twice the
    number of entries bounds the passes. *)
Definition bfs_traverse (d : DFA) : result (list Edge) :=
  match initial_state d with
  | None => Raise (ValueError "DFA has no initial state")
  | Some s0 =>
      row ← dict_getitem (transitions d) s0;
      let first := first_level_children s0 row in
      match bfs_loop (S (2 * n_edges d)) d first (list_to_set first) with
      | Some edges => Ok edges
      | None => Diverge
      end
  end.

End DFA.


(** ** Sequencing of calls on one automaton *)

(** A call made for its effect, inside a builder: when it raises the builder
    is abandoned together with the automaton under construction. *)
Definition commit {A} (p : DFA * result A) : result (DFA * A) :=
  match p with
  | (d, Ok a) => Ok (d, a)
  | (_, Raise e) => Raise e
  | (_, Diverge) => Diverge
  end.

Definition commit_ {A} (p : DFA * result A) : result DFA :=
  match p with
  | (d, Ok _) => Ok d
  | (_, Raise e) => Raise e
  | (_, Diverge) => Diverge
  end.

(** [for x in xs: body], threading the loop state. *)
Fixpoint for_each {A S} (xs : list A) (body : S -> A -> result S) (s : S)
    : result S :=
  match xs with
  | [] => Ok s
  | x :: xs' => s' ← body s x; for_each xs' body s'
  end.

(** The list in which Python iterates [set(xs)]: some enumeration of the
    distinct characters of [xs]. *)
Definition set_order (xs : str) (alphabet_set : list ascii) : Prop :=
  NoDup alphabet_set /\ forall a, a ∈ alphabet_set <-> a ∈ xs.

(** A generator run to its end: the values yielded and how it ended. *)
Abbreviation Match := (Z * str)%type.

(** ** The on-the-fly step shared by both matchers

    [kmp.search_lazy_transition] and the [else] branch of
    [AhoCorasickMatcher.search] resolve a missing transition with the same
    statements. *)

(** The [while] that follows the fail functions. [fuel] bounds its passes;
    [Diverge] when they are used up. *)
Fixpoint follow_fail (fuel : nat) (d : DFA) (fail_functions : list Z)
    (sym : ascii) (fail_functions_index : Z) : result Z :=
  match fuel with
  | O => Diverge
  | S fuel' =>
      f ← list_getitem fail_functions fail_functions_index;
      t ← DFA.transition d f sym;
      let transition_state := or0 t in
      if (transition_state =? 0) && (fail_functions_index >? 0) then
        next ← list_getitem fail_functions fail_functions_index;
        follow_fail fuel' d fail_functions sym next
      else Ok transition_state
  end.

(** One character of the on-the-fly walk: the new automaton (a FAILURE edge
    may have been cached) and the new state. *)
Definition lazy_step (fuel : nat) (d : DFA) (fail_functions : list Z)
    (state : Z) (sym : ascii) : DFA * result Z :=
  match DFA.transition d state sym with
  | Ok (Some new_state) => (d, Ok new_state)
  | Ok None =>
      let fail_functions_index := if state >? 0 then state - 1 else 0 in
      match follow_fail fuel d fail_functions sym fail_functions_index with
      | Ok transition_state =>
          match DFA.transition d state sym with
          | Ok None =>
              match DFA.add_transition d state sym transition_state FAILURE with
              | (d', Ok _) => (d', Ok transition_state)
              | (d', Raise e) => (d', Raise e)
              | (d', Diverge) => (d', Diverge)
              end
          | Ok (Some _) => (d, Ok transition_state)
          | Raise e => (d, Raise e)
          | Diverge => (d, Diverge)
          end
      | Raise e => (d, Raise e)
      | Diverge => (d, Diverge)
      end
  | Raise e => (d, Raise e)
  | Diverge => (d, Diverge)
  end.

(** The precomputed step of both [search] methods. *)
Definition direct_step (d : DFA) (state : Z) (sym : ascii) : result Z :=
  t ← DFA.transition d state sym;
  match t with
  | None => Raise (ValueError "Error in DFA definition")
  | Some new_state => Ok new_state
  end.

(** ** strings/kmp.py *)

Module KMPMatcher.

(** [pattern] is [None] while the attribute is unset. *)
Record t : Type := mk {
  compute_transitions : bool;
  fail_functions : list Z;
  dfa : DFA;
  pattern : option str
}.

Definition set_dfa (m : t) (d : DFA) : t :=
  {| compute_transitions := compute_transitions m;
     fail_functions := fail_functions m; dfa := d; pattern := pattern m |}.

Definition add_chain_state (n : Z) (st : DFA * Z) (sym : ascii)
    : result (DFA * Z) :=
  let '(d, index) := st in
  d1 ← commit_ (DFA.add_state d (index =? n - 1) (index =? 0));
  d2 ← (if index <? n
        then commit_ (DFA.add_transition d1 index sym (index + 1) SUCCESS)
        else Ok d1);
  Ok (d2, index + 1).

Definition add_root_loop (d : DFA) (a : ascii) : result DFA :=
  t ← DFA.transition d 0 a;
  if negb (truthy t) then commit_ (DFA.add_transition d 0 a 0 FAILURE)
  else Ok d.

Definition _initialize_dfa (compute_transitions : bool)
    (alphabets : list ascii) (pattern : str) : result DFA :=
  let n := Z.of_nat (length pattern) in
  d0 ← commit_ (DFA.add_state (DFA.__init__ alphabets) (0 =? n) true);
  '(d1, _) ← for_each pattern (add_chain_state n) (d0, 0);
  if compute_transitions then for_each alphabets add_root_loop d1
  else Ok d1.

Definition add_failure_edge (fail_functions : list Z) (index : Z)
    (d : DFA) (a : ascii) : result DFA :=
  h ← DFA.has_transition d index a;
  if negb h then
    f ← list_getitem fail_functions (index - 1);
    t ← DFA.transition d f a;
    commit_ (DFA.add_transition d index a (or0 t) FAILURE)
  else Ok d.

Definition init_index (compute_transitions : bool) (alphabet_set : list ascii)
    (pattern : str) (st : DFA * list Z) (index : Z) : result (DFA * list Z) :=
  let '(d, fail_functions) := st in
  d1 ← (if compute_transitions
        then for_each alphabet_set (add_failure_edge fail_functions index) d
        else Ok d);
  if index <? Z.of_nat (length pattern) then
    f ← list_getitem fail_functions (index - 1);
    sym ← list_getitem pattern index;
    t ← DFA.transition d1 f sym;
    ff ← list_setitem fail_functions index (or0 t);
    Ok (d1, ff)
  else Ok (d1, fail_functions).

(** [KMPMatcher(pattern, compute_transitions, alphabets)], after
    [alphabet_set] has been built: [alphabet_set] is the iteration order of
    [set(alphabets) if alphabets else set(pattern)]. *)
Definition __init__ (alphabet_set : list ascii) (pattern : str)
    (compute_transitions : bool) : result t :=
  match pattern with
  | [] => Raise (ValueError "Empty pattern")
  | _ =>
    d ← _initialize_dfa compute_transitions alphabet_set pattern;
    '(d', ff) ← for_each (seqZ 1 (Z.of_nat (length pattern)))
                 (init_index compute_transitions alphabet_set pattern)
                 (d, replicate (length pattern) 0);
    Ok {| compute_transitions := compute_transitions;
          fail_functions := ff; dfa := d'; pattern := Some pattern |}
  end.

(** The alphabet argument of the constructor. *)
Definition alphabet_source (alphabets : option str) (pattern : str) : str :=
  match alphabets with
  | Some (c :: l) => c :: l
  | _ => pattern
  end.

(** [search_lazy_transition(dfa, fail_functions, pattern, s)] from the
    position [index] in state [state]. *)
Fixpoint search_lazy_transition (fuel : nat) (d : DFA)
    (fail_functions : list Z) (pattern : str) (state index : Z) (s : str)
    : DFA * (list Match * result unit) :=
  match s with
  | [] => (d, ([], Ok tt))
  | sym :: s' =>
      match lazy_step fuel d fail_functions state sym with
      | (d1, Ok state1) =>
          match DFA.is_accepting_state d1 state1 with
          | Ok acc =>
              let '(d2, (ys, r)) :=
                search_lazy_transition fuel d1 fail_functions pattern
                  state1 (index + 1) s' in
              (d2, ((if acc then [(index - state1 + 1, pattern)] else [])
                      ++ ys, r))
          | Raise e => (d1, ([], Raise e))
          | Diverge => (d1, ([], Diverge))
          end
      | (d1, Raise e) => (d1, ([], Raise e))
      | (d1, Diverge) => (d1, ([], Diverge))
      end
  end.

(** The precomputed branch of [search]. [self.pattern] is read when a
    match is yielded. *)
Fixpoint search_direct (m : t) (state index : Z) (s : str)
    : list Match * result unit :=
  match s with
  | [] => ([], Ok tt)
  | sym :: s' =>
      match direct_step (dfa m) state sym with
      | Ok state1 =>
          match DFA.is_accepting_state (dfa m) state1 with
          | Ok true =>
              match pattern m with
              | Some p =>
                  let '(ys, r) := search_direct m state1 (index + 1) s' in
                  ((index - state1 + 1, p) :: ys, r)
              | None => ([], Raise AttributeError)
              end
          | Ok false => search_direct m state1 (index + 1) s'
          | Raise e => ([], Raise e)
          | Diverge => ([], Diverge)
          end
      | Raise e => ([], Raise e)
      | Diverge => ([], Diverge)
      end
  end.

(** [list(self.search(s))]: the matcher afterwards, the matches yielded
    and the end of the generator. *)
Definition search (fuel : nat) (m : t) (s : str)
    : t * (list Match * result unit) :=
  if compute_transitions m then (m, search_direct m 0 0 s)
  else
    match pattern m with
    | Some p =>
        let '(d, out) :=
          search_lazy_transition fuel (dfa m) (fail_functions m) p 0 0 s in
        (set_dfa m d, out)
    | None => (m, ([], Raise AttributeError))
    end.

End KMPMatcher.

(** ** strings/ahocorasick.py *)

(** [alphabet_set_from_alphabets]: the characters the set is built from. *)
Definition alphabet_set_from_alphabets (alphabets : option str)
    (patterns : list str) : str :=
  match alphabets with
  | None => concat patterns
  | Some l => l
  end.

Definition precompute_transition (index : Z) (fail_functions : list Z)
    (d : DFA) (a : ascii) : result DFA :=
  t ← DFA.transition d index a;
  match t with
  | None =>
      f ← list_getitem fail_functions (index - 1);
      to_state ← DFA.transition d f a;
      match to_state with
      | None => Raise (ValueError "Invalid transition")
      | Some to_state =>
          commit_ (DFA.add_transition d index a to_state FAILURE)
      end
  | Some _ => Ok d
  end.

Definition precompute_possible_transitions (d : DFA) (index : Z)
    (alphabet_set : list ascii) (fail_functions : list Z) : result DFA :=
  for_each alphabet_set (precompute_transition index fail_functions) d.

Module AhoCorasickMatcher.

Record t : Type := mk {
  compute_transitions : bool;
  fail_functions : list Z;
  dfa : DFA;
  pattern_map : gmap Z str
}.

Definition set_dfa (m : t) (d : DFA) : t :=
  {| compute_transitions := compute_transitions m;
     fail_functions := fail_functions m; dfa := d;
     pattern_map := pattern_map m |}.

(** The [while] of [_add_pattern]: [rest] is [pattern[i:]]. It returns
    [i], [state] and [new_state] as the loop leaves them. *)
Fixpoint follow_existing (d : DFA) (rest : str) (i state : Z)
    (new_state : option Z) : result (Z * Z * option Z) :=
  match rest with
  | [] => Ok (i, state, new_state)
  | c :: rest' =>
      t ← DFA.transition d state c;
      if truthy t then follow_existing d rest' (i + 1) (or0 t) t
      else Ok (i, state, t)
  end.

(** The [for j in range(i, len(pattern))] of [_add_pattern]: [rest] is
    [pattern[j:]]. It returns the automaton, [state], the map and the last
    value of [j], if the body ran. *)
Fixpoint add_suffix (d : DFA) (pattern rest : str) (j state : Z)
    (pattern_map : gmap Z str) (last_j : option Z)
    : result (DFA * Z * gmap Z str * option Z) :=
  match rest with
  | [] => Ok (d, state, pattern_map, last_j)
  | c :: rest' =>
      '(d1, added_state) ←
        commit (DFA.add_state d (j =? Z.of_nat (length pattern) - 1) false);
      let pattern_map1 :=
        <[added_state := take (Z.to_nat j) pattern]> pattern_map in
      d2 ← commit_ (DFA.add_transition d1 state c added_state SUCCESS);
      add_suffix d2 pattern rest' (j + 1) added_state pattern_map1 (Some j)
  end.

Definition _add_pattern (d : DFA) (pattern : str)
    : result (DFA * gmap Z str) :=
  match initial_state d with
  | None => Raise (ValueError "DFA has no initial state")
  | Some state0 =>
      let pattern_map : gmap Z str := {[ 0 := [] ]} in
      '(i, state, new_state) ← follow_existing d pattern 0 state0 None;
      match new_state with
      | None =>
          '(d1, state1, pattern_map1, last_j) ←
            add_suffix d pattern (drop (Z.to_nat i) pattern) i state
              pattern_map None;
          match last_j with
          | None => Raise UnboundLocalError
          | Some j =>
              Ok (d1, <[state1 := take (Z.to_nat (j + 1)) pattern]>
                        pattern_map1)
          end
      | Some new_state =>
          if i =? Z.of_nat (length pattern) then
            d1 ← commit_ (DFA.set_accepting d new_state true);
            Ok (d1, pattern_map)
          else Ok (d, pattern_map)
      end
  end.

Definition add_root_loop (d : DFA) (a : ascii) : result DFA :=
  t ← DFA.transition d 0 a;
  match t with
  | None => commit_ (DFA.add_transition d 0 a 0 FAILURE)
  | Some _ => Ok d
  end.

Definition _initialize_root (compute_transitions : bool)
    (alphabets : list ascii) (d : DFA) : result DFA :=
  if compute_transitions then for_each alphabets add_root_loop d else Ok d.

(** One pattern of the loop of [_initialize_dfa]; [pattern_map.update]
    lets the new entries win. *)
Definition insert_pattern (st : DFA * gmap Z str) (pattern : str)
    : result (DFA * gmap Z str) :=
  let '(d, pattern_map) := st in
  '(d1, added) ← _add_pattern d pattern;
  Ok (d1, added ∪ pattern_map).

Definition _initialize_dfa (compute_transitions : bool)
    (alphabets : list ascii) (patterns : list str)
    : result (DFA * gmap Z str) :=
  d0 ← commit_ (DFA.add_state (DFA.__init__ alphabets) false true);
  '(d1, pattern_map) ← for_each patterns insert_pattern (d0, ∅);
  d2 ← _initialize_root compute_transitions alphabets d1;
  Ok (d2, pattern_map).

Definition top_level_edge (sym : ascii) (index : Z) (d : DFA) (a : ascii)
    : result DFA :=
  t ← DFA.transition d index a;
  if negb (truthy t) then
    commit_ (DFA.add_transition d index a
               (if bool_decide (sym = a) then index else 0) FAILURE)
  else Ok d.

Definition _initialize_top_level (compute_transitions : bool) (sym : ascii)
    (index : Z) (alphabets : list ascii) (d : DFA) : result DFA :=
  if compute_transitions then for_each alphabets (top_level_edge sym index) d
  else Ok d.

(** The body of the loop of [__init__] over the edges of the traversal. *)
Definition init_edge (compute_transitions : bool)
    (alphabet_set : list ascii) (st : DFA * list Z) (e : Edge)
    : result (DFA * list Z) :=
  let '(d, fail_functions) := st in
  let '(parent, sym, index) := e in
  if parent =? 0 then
    d1 ← _initialize_top_level compute_transitions sym index alphabet_set d;
    Ok (d1, fail_functions)
  else
    f ← list_getitem fail_functions (parent - 1);
    t ← DFA.transition d f sym;
    ff ← list_setitem fail_functions (index - 1) (or0 t);
    if compute_transitions then
      d1 ← precompute_possible_transitions d index alphabet_set ff;
      Ok (d1, ff)
    else Ok (d, ff).

(** [AhoCorasickMatcher(patterns, compute_transitions, alphabets)], after
    [alphabet_set] has been built: [alphabet_set] is the iteration order of
    the set [alphabet_set_from_alphabets] returns. *)
Definition __init__ (alphabet_set : list ascii) (patterns : list str)
    (compute_transitions : bool) : result t :=
  match patterns with
  | [] => Raise (ValueError "No patterns to match")
  | _ =>
    if existsb (fun p => match p with [] => true | _ => false end) patterns
    then Raise (ValueError "Empty patterns")
    else
      '(d, pattern_map) ←
        _initialize_dfa compute_transitions alphabet_set patterns;
      let fail_functions := replicate (Z.to_nat (DFA.n_states d)) 0 in
      edges ← DFA.bfs_traverse d;
      '(d', ff) ← for_each edges
                    (init_edge compute_transitions alphabet_set)
                    (d, fail_functions);
      Ok {| compute_transitions := compute_transitions;
            fail_functions := ff; dfa := d'; pattern_map := pattern_map |}
  end.

(** What both branches of [search] do once the new state is known. *)
Definition report (d : DFA) (pattern_map : gmap Z str) (state index : Z)
    : result (list Match) :=
  acc ← DFA.is_accepting_state d state;
  if acc : bool then
    pattern ← dict_getitem pattern_map state;
    Ok [(index - Z.of_nat (length pattern) + 1, pattern)]
  else Ok [].

Fixpoint search_direct (m : t) (state index : Z) (s : str)
    : list Match * result unit :=
  match s with
  | [] => ([], Ok tt)
  | sym :: s' =>
      match direct_step (dfa m) state sym with
      | Ok state1 =>
          match report (dfa m) (pattern_map m) state1 index with
          | Ok found =>
              let '(ys, r) := search_direct m state1 (index + 1) s' in
              (found ++ ys, r)
          | Raise e => ([], Raise e)
          | Diverge => ([], Diverge)
          end
      | Raise e => ([], Raise e)
      | Diverge => ([], Diverge)
      end
  end.

Fixpoint search_lazy (fuel : nat) (d : DFA) (fail_functions : list Z)
    (pattern_map : gmap Z str) (state index : Z) (s : str)
    : DFA * (list Match * result unit) :=
  match s with
  | [] => (d, ([], Ok tt))
  | sym :: s' =>
      match lazy_step fuel d fail_functions state sym with
      | (d1, Ok state1) =>
          match report d1 pattern_map state1 index with
          | Ok found =>
              let '(d2, (ys, r)) :=
                search_lazy fuel d1 fail_functions pattern_map
                  state1 (index + 1) s' in
              (d2, (found ++ ys, r))
          | Raise e => (d1, ([], Raise e))
          | Diverge => (d1, ([], Diverge))
          end
      | (d1, Raise e) => (d1, ([], Raise e))
      | (d1, Diverge) => (d1, ([], Diverge))
      end
  end.

(** [list(self.search(s))]: the matcher afterwards, the matches yielded
    and the end of the generator. *)
Definition search (fuel : nat) (m : t) (s : str)
    : t * (list Match * result unit) :=
  if compute_transitions m then (m, search_direct m 0 0 s)
  else
    let '(d, out) :=
      search_lazy fuel (dfa m) (fail_functions m) (pattern_map m) 0 0 s in
    (set_dfa m d, out).

End AhoCorasickMatcher.

(** ** Persistence: [DFA.to_dict], [DFA.from_dict] and strings/stringsapp.py

    The record is what [json.dump] writes and [json.load] reads back: JSON
    objects are association lists with string keys, in file order. Writing
    the record to a file and reading it again is taken to return the same
    record. *)

(** [str(k)] and [int(s)] on the decimal spelling of an integer. *)
Definition py_str (k : Z) : string :=
  DecimalString.NilZero.string_of_int (Z.to_int k).

Definition py_int (s : string) : result Z :=
  match DecimalString.NilZero.int_of_string s with
  | Some i => Ok (Z.of_int i)
  | None => Raise (ValueError "invalid literal for int()")
  end.

Record DFARecord : Type := mkDFARecord {
  rec_states : option Z;
  rec_alphabets : list ascii;
  rec_transitions : list (string * list (ascii * Z));
  rec_transition_types : list (string * list (ascii * string));
  rec_initial_state : option Z;
  rec_accepting_states : list Z
}.

Definition TransitionType_value (ty : TransitionType) : string :=
  match ty with SUCCESS => "success" | FAILURE => "failure" end.

Definition TransitionType_of_value (v : string) : result TransitionType :=
  if bool_decide (v = "success"%string) then Ok SUCCESS
  else if bool_decide (v = "failure"%string) then Ok FAILURE
  else Raise (ValueError "not a valid TransitionType").

(** [{str(k): v for k, v in d.items()}]. *)
Definition str_keys {V} (d : gmap Z V) : list (string * V) :=
  (fun kv : Z * V => (py_str kv.1, kv.2)) <$> map_to_list d.

Definition type_values (row : list (ascii * TransitionType))
    : list (ascii * string) :=
  (fun e : ascii * TransitionType => (e.1, TransitionType_value e.2)) <$> row.

Definition to_dict (d : DFA) : DFARecord :=
  {| rec_states := states d;
     rec_alphabets := alphabets d;
     rec_transitions := str_keys (transitions d);
     rec_transition_types := str_keys (type_values <$> transition_types d);
     rec_initial_state := initial_state d;
     rec_accepting_states := elements (accepting_states d) |}.

Definition restore_row {V} (m : gmap Z V) (kv : string * V)
    : result (gmap Z V) :=
  state ← py_int kv.1;
  Ok (<[state := kv.2]> m).

Definition restore_type (acc : list (ascii * TransitionType))
    (e : ascii * string) : result (list (ascii * TransitionType)) :=
  ty ← TransitionType_of_value e.2;
  Ok (row_set acc e.1 ty).

Definition restore_types (trow : list (ascii * string))
    : result (list (ascii * TransitionType)) :=
  for_each trow restore_type [].

Definition restore_type_row (m : gmap Z (list (ascii * TransitionType)))
    (kv : string * list (ascii * string))
    : result (gmap Z (list (ascii * TransitionType))) :=
  row ← restore_types kv.2;
  restore_row m (kv.1, row).

(** [DFA.from_dict]; the restored alphabet is iterated in the order of the
    record, without repetitions. *)
Definition from_dict (data : DFARecord) : result DFA :=
  tr ← for_each (rec_transitions data) restore_row ∅;
  ty ← for_each (rec_transition_types data) restore_type_row ∅;
  Ok {| states := rec_states data;
        alphabets := remove_dups (rec_alphabets data);
        transitions := tr;
        transition_types := ty;
        initial_state := rec_initial_state data;
        accepting_states := list_to_set (rec_accepting_states data) |}.

(** The envelope written around the automaton; an absent key is [None]. *)
Record Envelope : Type := mkEnvelope {
  env_algorithm : option string;
  env_pattern : option str;
  env_patterns : option (list str);
  env_dfa : DFARecord;
  env_fail_functions : option (list Z);
  env_pattern_map : option (list (string * str))
}.

Inductive Matcher : Type :=
  | Kmp (m : KMPMatcher.t)
  | AhoCorasick (m : AhoCorasickMatcher.t).

Definition field {A} (o : option A) : result A :=
  match o with Some a => Ok a | None => Raise KeyError end.

(** [build_dfa]: the record handed to [json.dump]. [alphabet_set] is the
    iteration order of the alphabet set the chosen constructor builds. *)
Definition build_dfa (alphabet_set : list ascii) (patterns : list str)
    (algorithm : string) (precompute : bool) : result Envelope :=
  if bool_decide (algorithm = "kmp"%string) then
    pattern0 ← list_getitem patterns 0;
    kmp_matcher ← KMPMatcher.__init__ alphabet_set pattern0 precompute;
    Ok {| env_algorithm := Some "kmp"%string;
          env_pattern := Some pattern0;
          env_patterns := None;
          env_dfa := to_dict (KMPMatcher.dfa kmp_matcher);
          env_fail_functions := Some (KMPMatcher.fail_functions kmp_matcher);
          env_pattern_map := None |}
  else
    ac_matcher ← AhoCorasickMatcher.__init__ alphabet_set patterns precompute;
    Ok {| env_algorithm := Some "aho-corasick"%string;
          env_pattern := None;
          env_patterns := Some patterns;
          env_dfa := to_dict (AhoCorasickMatcher.dfa ac_matcher);
          env_fail_functions :=
            Some (AhoCorasickMatcher.fail_functions ac_matcher);
          env_pattern_map :=
            Some (str_keys (AhoCorasickMatcher.pattern_map ac_matcher)) |}.

Definition restore_pattern_map (items : list (string * str))
    : result (gmap Z str) :=
  for_each items restore_row ∅.

(** [load_matcher_from_file], from the record [json.load] returned. The
    single-pattern branches set [dfa], [compute_transitions] and
    [fail_functions] and nothing else. *)
Definition load_matcher_from_file (data : Envelope) (precompute : bool)
    : result Matcher :=
  if bool_decide (env_algorithm data = Some "kmp"%string) then
    d ← from_dict (env_dfa data);
    ff ← field (env_fail_functions data);
    Ok (Kmp {| KMPMatcher.dfa := d;
               KMPMatcher.compute_transitions := precompute;
               KMPMatcher.fail_functions := ff;
               KMPMatcher.pattern := None |})
  else if bool_decide (env_algorithm data = Some "aho-corasick"%string) then
    d ← from_dict (env_dfa data);
    ff ← field (env_fail_functions data);
    items ← field (env_pattern_map data);
    pm ← restore_pattern_map items;
    Ok (AhoCorasick {| AhoCorasickMatcher.dfa := d;
                       AhoCorasickMatcher.compute_transitions := precompute;
                       AhoCorasickMatcher.fail_functions := ff;
                       AhoCorasickMatcher.pattern_map := pm |})
  else
    d ← from_dict (env_dfa data);
    let default_ff := replicate (Z.to_nat (DFA.n_states d - 1)) 0 in
    match env_pattern_map data with
    | Some items =>
        pm ← restore_pattern_map items;
        Ok (AhoCorasick
              {| AhoCorasickMatcher.dfa := d;
                 AhoCorasickMatcher.compute_transitions := precompute;
                 AhoCorasickMatcher.fail_functions :=
                   default default_ff (env_fail_functions data);
                 AhoCorasickMatcher.pattern_map := pm |})
    | None =>
        Ok (Kmp {| KMPMatcher.dfa := d;
                   KMPMatcher.compute_transitions := precompute;
                   KMPMatcher.fail_functions :=
                     default default_ff (env_fail_functions data);
                   KMPMatcher.pattern := None |})
    end.

(** [list(matcher.search(text))] on either kind of matcher. *)
Definition Matcher_search (fuel : nat) (m : Matcher) (s : str)
    : list Match * result unit :=
  match m with
  | Kmp k => (KMPMatcher.search fuel k s).2
  | AhoCorasick a => (AhoCorasickMatcher.search fuel a s).2
  end.

(** ** Build-then-search, as the tests of the repository do it *)

Definition kmp_run (fuel : nat) (alphabet_set : list ascii) (pattern : str)
    (compute_transitions : bool) (s : str)
    : result (list Match * result unit) :=
  m ← KMPMatcher.__init__ alphabet_set pattern compute_transitions;
  Ok (KMPMatcher.search fuel m s).2.

Definition ac_run (fuel : nat) (alphabet_set : list ascii)
    (patterns : list str) (compute_transitions : bool) (s : str)
    : result (list Match * result unit) :=
  m ← AhoCorasickMatcher.__init__ alphabet_set patterns compute_transitions;
  Ok (AhoCorasickMatcher.search fuel m s).2.

(** [search_with_dfa] after [build_dfa], with the same mode flag. *)
Definition reload_run (fuel : nat) (alphabet_set : list ascii)
    (patterns : list str) (algorithm : string) (precompute : bool) (s : str)
    : result (list Match * result unit) :=
  data ← build_dfa alphabet_set patterns algorithm precompute;
  m ← load_matcher_from_file data precompute;
  Ok (Matcher_search fuel m s).

(** ** The classical prefix function

    Following the words of the specification: the length of the longest
    proper prefix of [P[0..i-1]] that is also a suffix of it. *)

Definition is_border (P : str) (i k : nat) : bool :=
  bool_decide (take k P = drop (i - k) (take i P)).

(** The largest [k' <= k] that satisfies [Q], or 0. *)
Fixpoint longest_upto (Q : nat -> bool) (k : nat) : nat :=
  match k with
  | O => O
  | S k' => if Q k then k else longest_upto Q k'
  end.

(** The prefix function: the longest proper border of the prefix of length
    [i]. *)
Definition pi (P : str) (i : nat) : nat := longest_upto (is_border P i) (i - 1).

Definition prefix_function_spec (P : str) (i : nat) : Z := Z.of_nat (pi P i).

(** The first [k] characters of [P] end the word [w]. *)
Definition ends (P w : str) (k : nat) : Prop :=
  (k <= length P)%nat /\ take k P `suffix_of` w.

(** The state of the string-matching automaton of [P] after reading [w]:
    the longest prefix of [P] that ends [w]. *)
Definition sigma (P w : str) : nat :=
  longest_upto (fun k => bool_decide (take k P `suffix_of` w))
    (min (length w) (length P)).

(** [p] occurs in [text] at position [pos]. *)
Definition occurs_at (text p : str) (pos : Z) : Prop :=
  0 <= pos /\ take (length p) (drop (Z.to_nat pos) text) = p.

#[global] Instance exn_eq_dec : EqDecision exn.
Proof. solve_decision. Defined.

#[global] Instance result_eq_dec {A} `{EqDecision A} : EqDecision (result A).
Proof. solve_decision. Defined.

(** ** Vocabulary of the invariants *)

(** The target recorded for [(s, a)], if any: what [transition] looks up. *)
Definition delta (d : DFA) (s : Z) (a : ascii) : option Z :=
  transitions d !! s ≫= fun row => row_get row a.

(** [(a, c)] is an item of the row of [p]: what [.items()] enumerates. *)
Definition has_edge (d : DFA) (p : Z) (a : ascii) (c : Z) : Prop :=
  exists row, transitions d !! p = Some row /\ (a, c) ∈ row.

(** [d'] is [d] with more transitions: what [add_transition] does. *)
Record ext (d d' : DFA) : Prop := mkExt {
  ext_states : states d' = states d;
  ext_alphabets : alphabets d' = alphabets d;
  ext_initial : initial_state d' = initial_state d;
  ext_accepting : accepting_states d' = accepting_states d;
  ext_delta : forall s a t, delta d s a = Some t -> delta d' s a = Some t;
  ext_edge : forall p a c, has_edge d p a c -> has_edge d' p a c
}.

(** What every automaton made with [add_state] and [add_transition]
    satisfies: the two tables have rows for the same states, and the
    recorded transitions stay among the allocated states. *)
Record wf (d : DFA) : Prop := mkWf {
  wf_types : forall s, is_Some (transitions d !! s) ->
                       is_Some (transition_types d !! s);
  wf_range : forall p a c, has_edge d p a c ->
               exists n, states d = Some n /\ 0 <= p <= n /\ 0 <= c <= n
}.

(** Every allocated state has a transition on every symbol of the
    alphabet. *)
Definition complete (d : DFA) : Prop :=
  exists n, states d = Some n /\
    forall s a, 0 <= s <= n -> a ∈ alphabets d -> is_Some (delta d s a).

(** What a successful [add_transition] has checked and done. *)
Record added (d : DFA) (f : Z) (a : ascii) (t : Z) (d' : DFA) : Prop := mkAdded {
  added_states : exists n, states d = Some n /\ 0 <= f <= n /\ 0 <= t <= n;
  added_symbol : a ∈ alphabets d;
  added_fresh : delta d f a = None;
  added_here : delta d' f a = Some t;
  added_other : forall s b, (s, b) <> (f, a) -> delta d' s b = delta d s b;
  added_edges : forall p b c,
      has_edge d' p b c <-> has_edge d p b c \/ (p, b, c) = (f, a, t);
  added_ext : ext d d'
}.

(** What a successful [add_state] has done. *)
Record allocated (d : DFA) (acc : bool) (s : Z) (d' : DFA) : Prop := mkAlloc {
  alloc_state : s = match states d with None => 0 | Some n => n + 1 end;
  alloc_states : states d' = Some s;
  alloc_alphabets : alphabets d' = alphabets d;
  alloc_transitions : transitions d' = transitions d;
  alloc_types : transition_types d' = transition_types d;
  alloc_accepting :
    accepting_states d' =
    if acc then {[ s ]} ∪ accepting_states d else accepting_states d
}.

(** The automaton while patterns are inserted: state 0 is the root and every
    other state has an edge from a state allocated before it. *)
Record trie (d : DFA) : Prop := mkTrie {
  trie_wf : wf d;
  trie_initial : initial_state d = Some 0;
  trie_states : exists n, states d = Some n /\ 0 <= n;
  trie_parent : forall n c, states d = Some n -> 1 <= c <= n ->
                  exists p a, 0 <= p < c /\ has_edge d p a c
}.

(** Accepting states are allocated states other than the root. *)
Definition acc_range (d : DFA) : Prop :=
  forall s, s ∈ accepting_states d ->
    exists n, states d = Some n /\ 1 <= s <= n.

(** The pattern map has an entry for every state but the root. *)
Definition covered (d : DFA) (pm : gmap Z str) : Prop :=
  forall n s, states d = Some n -> 1 <= s <= n -> is_Some (pm !! s).

(** The entries of the transition table, row after row. *)
Definition all_edges (d : DFA) : list Edge :=
  map_to_list (transitions d) ≫= fun kr : Z * list (ascii * Z) =>
    (fun e : ascii * Z => (kr.1, e.1, e.2)) <$> kr.2.

(** How many entries of [l], with repetitions, are not marked in [v]. *)
Definition unseen (v : gset Edge) (l : list Edge) : nat :=
  length (filter (fun e => e ∉ v) l).

(** The automata that the methods of [DFA] make from an empty one; a call
    that raises leaves the automaton it had reached. *)
Inductive Built : DFA -> Prop :=
  | Built_init al : Built (DFA.__init__ al)
  | Built_add_state d acc ini :
      Built d -> Built (DFA.add_state d acc ini).1
  | Built_add_transition d f a t ty :
      Built d -> Built (DFA.add_transition d f a t ty).1
  | Built_add_accepting d s :
      Built d -> Built (DFA.add_accepting d s).1
  | Built_set_accepting d s b :
      Built d -> Built (DFA.set_accepting d s b).1.

Definition rows_nonempty (d : DFA) : Prop :=
  forall s row, transitions d !! s = Some row -> row <> [].

(** The transition function of the string-matching automaton of [P]. *)
Definition kmp_delta (P : str) (i : Z) (a : ascii) : Z :=
  Z.of_nat (sigma P (take (Z.to_nat i) P ++ [a])).

(** What holds of the automaton of [P] while its rows are completed: every
    recorded transition is the one of the string-matching automaton, and the
    success edges are there. *)
Record kmp_inv (al : list ascii) (P : str) (d : DFA) : Prop := mkKmpInv {
  kmp_wf : wf d;
  kmp_states : states d = Some (Z.of_nat (length P));
  kmp_alphabets : alphabets d = al;
  kmp_symbols : forall i c, P !! i = Some c -> c ∈ al;
  kmp_chain : forall i c, P !! i = Some c ->
                delta d (Z.of_nat i) c = Some (Z.of_nat (S i));
  kmp_exact : forall i a t, delta d i a = Some t -> t = kmp_delta P i a
}.

(** The rows of the states up to [j] are complete. *)
Definition rows_upto (al : list ascii) (j : Z) (d : DFA) : Prop :=
  forall i a, 0 <= i <= j -> a ∈ al -> is_Some (delta d i a).

(** The fail functions of the states up to [j + 1] are the prefix
    function. *)
Definition ff_upto (P : str) (j : Z) (ff : list Z) : Prop :=
  length ff = length P /\
  forall i : nat, (1 <= i)%nat -> Z.of_nat i <= j + 1 -> (i <= length P)%nat ->
    ff !! (i - 1)%nat = Some (Z.of_nat (pi P i)).

(** The rows of both tables are dicts: no key occurs twice. *)
Definition dict_rows (d : DFA) : Prop :=
  (forall s row, transitions d !! s = Some row -> NoDup row.*1) /\
  (forall s row, transition_types d !! s = Some row -> NoDup row.*1).

(** The edges the traversal is after: the edges out of the initial state
    that are not loops, and every edge out of the target of such an edge. *)
Inductive reached (d : DFA) (s0 : Z) : Edge -> Prop :=
  | reached_first a c :
      delta d s0 a = Some c -> c <> s0 -> reached d s0 (s0, a, c)
  | reached_next p a c b t :
      reached d s0 (p, a, c) -> delta d c b = Some t ->
      reached d s0 (c, b, t).

#[global] Instance occurs_at_dec text p pos : Decision (occurs_at text p pos).
Proof. unfold occurs_at. apply _. Defined.

(** The positions at which [p] occurs in [text], in increasing order. *)
Definition occurrences (text p : str) : list Z :=
  filter (occurs_at text p) (seqZ 0 (Z.of_nat (length text))).

(** Every recorded transition is on a symbol of the alphabet. *)
Definition symbols_in (d : DFA) : Prop :=
  forall p a c, has_edge d p a c -> a ∈ alphabets d.

(** * Properties *)


(** ** Rows *)

Section RowFacts.
Context {V : Type}.
Implicit Types (r : list (ascii * V)) (a b : ascii) (v : V).

Lemma row_get_Some_elem r a v : row_get r a = Some v -> (a, v) ∈ r.
Proof.
  induction r as [|[b w] r IH]; cbn; [discriminate |].
  case_bool_decide as E.
  - intros [= ->]. subst. apply elem_of_cons. auto.
  - intros H. apply elem_of_cons. auto.
Qed.

Lemma row_set_fresh r a v : row_get r a = None -> row_set r a v = r ++ [(a, v)].
Proof.
  induction r as [|[b w] r IH]; cbn; [reflexivity |].
  case_bool_decide as E; [discriminate |]. intros H. by rewrite IH.
Qed.

Lemma row_get_app r1 r2 a :
  row_get (r1 ++ r2) a
  = match row_get r1 a with Some v => Some v | None => row_get r2 a end.
Proof.
  induction r1 as [|[b w] r1 IH]; cbn; [reflexivity |].
  case_bool_decide as E; [reflexivity | exact IH].
Qed.

Lemma row_get_set r a v b :
  row_get (row_set r a v) b = if bool_decide (b = a) then Some v else row_get r b.
Proof.
  induction r as [|[c w] r IH]; cbn.
  - reflexivity.
  - destruct (decide (a = c)) as [->|Hac];
      [rewrite bool_decide_eq_true_2 by done
      |rewrite bool_decide_eq_false_2 by done]; cbn.
    + destruct (decide (b = c));
        [rewrite !bool_decide_eq_true_2 by done
        |rewrite !bool_decide_eq_false_2 by done]; done.
    + rewrite IH. destruct (decide (b = c)) as [->|].
      * rewrite bool_decide_eq_true_2 by done.
        by rewrite bool_decide_eq_false_2 by congruence.
      * by rewrite (bool_decide_eq_false_2 (b = c)) by done.
Qed.
End RowFacts.

Lemma transition_delta (d : DFA) (s : Z) (a : ascii) :
  DFA.transition d s a = Ok (delta d s a).
Proof.
  unfold DFA.transition, dict_getitem, delta.
  destruct (transitions d !! s) as [row|] eqn:Hrow.
  - rewrite bool_decide_eq_true_2; [reflexivity |].
    apply elem_of_dom. eauto.
  - rewrite bool_decide_eq_false_2; [reflexivity |].
    rewrite elem_of_dom, Hrow. intros [? ?]; discriminate.
Qed.

Lemma delta_has_edge d s a t : delta d s a = Some t -> has_edge d s a t.
Proof.
  unfold delta, has_edge. destruct (transitions d !! s) as [row|]; cbn; [| discriminate].
  intros H. exists row. split; [reflexivity | by apply row_get_Some_elem].
Qed.

#[global] Instance ext_refl : Reflexive ext.
Proof. intros d. constructor; auto. Qed.

#[global] Instance ext_trans : Transitive ext.
Proof.
  intros d1 d2 d3 [] []. constructor; try congruence; auto.
Qed.

(** ** [add_transition] and [add_state] *)


Lemma added_intro d f a t n row TT :
  wf d -> states d = Some n -> 0 <= f <= n -> 0 <= t <= n ->
  a ∈ alphabets d ->
  transitions d !! f = Some row \/ (transitions d !! f = None /\ row = []) ->
  row_get row a = None ->
  (forall s, is_Some (<[f := row_set row a t]> (transitions d) !! s) ->
             is_Some (TT !! s)) ->
  let d' := mkDFA (states d) (alphabets d)
              (<[f := row_set row a t]> (transitions d)) TT
              (initial_state d) (accepting_states d) in
  wf d' /\ added d f a t d'.
Proof.
  intros Hwf Hn Hf Ht Ha Hrow Hget HTT d'.
  assert (Hfresh : delta d f a = None).
  { unfold delta. destruct Hrow as [-> | [-> _]]; [exact Hget | reflexivity]. }
  assert (Hhere : delta d' f a = Some t).
  { unfold delta, d'; cbn. rewrite lookup_insert_eq. cbn.
    rewrite row_get_set. by rewrite bool_decide_eq_true_2. }
  assert (Hother : forall s b, (s, b) <> (f, a) -> delta d' s b = delta d s b).
  { intros s b Hne. unfold delta, d'; cbn.
    destruct (decide (s = f)) as [-> | Hsf].
    - rewrite lookup_insert_eq. cbn. rewrite row_get_set.
      rewrite bool_decide_eq_false_2 by congruence.
      destruct Hrow as [-> | [-> ->]]; reflexivity.
    - by rewrite lookup_insert_ne. }
  assert (Hedges : forall p b c,
             has_edge d' p b c <-> has_edge d p b c \/ (p, b, c) = (f, a, t)).
  { intros p b c. unfold has_edge, d'; cbn.
    destruct (decide (p = f)) as [-> | Hpf].
    - rewrite lookup_insert_eq, (row_set_fresh _ _ _ Hget). split.
      + intros (r & [= <-] & Hin). apply elem_of_app in Hin as [Hin | Hin].
        * left. destruct Hrow as [Hr | [_ ->]]; [eauto |].
          by apply elem_of_nil in Hin.
        * right. apply list_elem_of_singleton in Hin. congruence.
      + intros [(r & Hr & Hin) | [= -> ->]].
        * eexists. split; [reflexivity |]. apply elem_of_app. left.
          destruct Hrow as [Hr' | [Hr' _]]; congruence.
        * eexists. split; [reflexivity |]. apply elem_of_app. right.
          by apply list_elem_of_singleton.
    - rewrite lookup_insert_ne by done. split; [auto |].
      intros [H | [= ]]; [exact H | congruence]. }
  assert (Hext : ext d d').
  { constructor; try reflexivity.
    - intros s b c H. rewrite Hother; [exact H | congruence].
    - intros p b c H. apply Hedges. auto. }
  split; [| by constructor; eauto].
  constructor.
  - exact HTT.
  - intros p b c [H | [= -> -> ->]]%Hedges.
    + apply (wf_range d Hwf) in H. exact H.
    + exists n. auto.
Qed.

Lemma add_transition_Ok d f a t ty d' u :
  wf d -> DFA.add_transition d f a t ty = (d', Ok u) -> wf d' /\ added d f a t d'.
Proof.
  intros Hwf. unfold DFA.add_transition.
  destruct (states d) as [n|] eqn:Hn; [| intros [= ]].
  destruct ((f <? 0) || (n <? f)) eqn:Hf; [intros [=] |].
  destruct ((t <? 0) || (n <? t)) eqn:Ht; [intros [=] |].
  case_bool_decide as Ha; cbn [negb]; [| intros [=]].
  assert (0 <= f <= n) by lia. assert (0 <= t <= n) by lia.
  case_bool_decide as Hdom.
  - apply elem_of_dom in Hdom as [row Hrow]. rewrite Hrow.
    unfold row_mem. destruct (row_get row a) eqn:Hget; [intros [=] |].
    cbn. destruct (transition_types d !! f) as [trow|] eqn:Htrow.
    2:{ intros [=]. }
    intros [= <-].
    apply (added_intro d f a t n row); auto.
    intros s. destruct (decide (s = f)) as [-> | Hs].
    + rewrite !lookup_insert_eq. eauto.
    + rewrite !lookup_insert_ne by done. apply (wf_types d Hwf).
  - apply not_elem_of_dom in Hdom. cbn. rewrite lookup_insert_eq. cbn.
    rewrite lookup_insert_eq. intros [= <-].
    rewrite !insert_insert_eq.
    apply (added_intro d f a t n []); auto.
    intros s. destruct (decide (s = f)) as [-> | Hs].
    + rewrite !lookup_insert_eq. eauto.
    + rewrite !lookup_insert_ne by done. apply (wf_types d Hwf).
Qed.

(** When [add_transition] raises on a well-formed automaton, it has not
    touched it. *)
Lemma add_transition_not_Ok d f a t ty d' r :
  wf d -> DFA.add_transition d f a t ty = (d', r) ->
  (exists u, r = Ok u) \/ d' = d.
Proof.
  intros Hwf. unfold DFA.add_transition.
  destruct (states d) as [n|]; [| intros [= <- _]; auto].
  destruct ((f <? 0) || (n <? f)); [intros [= <- _]; auto |].
  destruct ((t <? 0) || (n <? t)); [intros [= <- _]; auto |].
  case_bool_decide as Ha; cbn [negb]; [| intros [= <- _]; auto].
  case_bool_decide as Hdom.
  - pose proof Hdom as Hdom'. apply elem_of_dom in Hdom' as [row Hrow].
    rewrite Hrow.
    destruct (row_mem row a); [intros [= <- _]; auto |].
    cbn. destruct (wf_types d Hwf f) as [trow ->]; [eauto |].
    intros [= _ <-]. eauto.
  - cbn. rewrite lookup_insert_eq. cbn. rewrite lookup_insert_eq.
    intros [= _ <-]. eauto.
Qed.

Lemma commit__Ok {A} (p : DFA * result A) d' :
  commit_ p = Ok d' <-> exists u, p = (d', Ok u).
Proof.
  destruct p as [d [u | e |]]; cbn; split;
    try (intros [= ->]; eauto); try (intros [? [= ]]); try discriminate.
  subst. reflexivity.
Qed.

Lemma commit_Ok {A} (p : DFA * result A) d' u :
  commit p = Ok (d', u) <-> p = (d', Ok u).
Proof.
  destruct p as [d [v | e |]]; cbn; split; intros [= ]; subst; reflexivity.
Qed.


Lemma add_state_Ok d acc ini d' s :
  DFA.add_state d acc ini = (d', Ok s) -> allocated d acc s d'.
Proof.
  unfold DFA.add_state.
  destruct (ini && truthy _); [intros [=] |].
  intros [= <- <-]. destruct ini, acc; constructor; reflexivity.
Qed.

Lemma allocated_edge d acc s d' p a c :
  allocated d acc s d' -> has_edge d' p a c <-> has_edge d p a c.
Proof. intros H. unfold has_edge. by rewrite (alloc_transitions _ _ _ _ H). Qed.

Lemma allocated_delta d acc s d' p a :
  allocated d acc s d' -> delta d' p a = delta d p a.
Proof. intros H. unfold delta. by rewrite (alloc_transitions _ _ _ _ H). Qed.

Lemma allocated_wf d acc s d' :
  (forall n, states d = Some n -> 0 <= n) ->
  allocated d acc s d' -> wf d -> wf d'.
Proof.
  intros Hpos H Hwf. constructor.
  - intros q. rewrite (alloc_transitions _ _ _ _ H), (alloc_types _ _ _ _ H).
    apply (wf_types d Hwf).
  - intros p a c He. apply (allocated_edge _ _ _ _ _ _ _ H) in He.
    destruct (wf_range d Hwf _ _ _ He) as (n & Hn & ? & ?).
    exists s. split; [apply (alloc_states _ _ _ _ H) |].
    rewrite (alloc_state _ _ _ _ H), Hn. lia.
Qed.

(** ** Loops *)

Lemma for_each_post {A St} (I : St -> Prop) (R : St -> St -> Prop)
    (Q : St -> A -> Prop) (f : St -> A -> result St) xs :
  Reflexive R -> Transitive R ->
  (forall s x s', I s -> x ∈ xs -> f s x = Ok s' -> I s' /\ R s s' /\ Q s' x) ->
  (forall s s' x, R s s' -> Q s x -> Q s' x) ->
  forall s s', I s -> for_each xs f s = Ok s' ->
    I s' /\ R s s' /\ forall x, x ∈ xs -> Q s' x.
Proof.
  intros HR HT Hstep Hmono. induction xs as [|x xs IH]; intros s s' HI; cbn.
  - intros [= <-]. split; [done |]. split; [reflexivity |].
    intros x Hx. by apply elem_of_nil in Hx.
  - destruct (f s x) as [s1 | e |] eqn:Hf; cbn; try discriminate.
    intros Hrest.
    destruct (Hstep s x s1 HI) as (HI1 & HR1 & HQ1);
      [apply elem_of_cons; auto | exact Hf |].
    destruct IH with (s := s1) (s' := s') as (HI' & HR' & HQ'); auto.
    { intros s0 y s0' ? ? ?. apply Hstep; auto. apply elem_of_cons; auto. }
    split; [done |]. split; [etrans; eauto |].
    intros y [-> | Hy]%elem_of_cons; [| auto].
    eapply Hmono; eauto.
Qed.

(** ** The on-the-fly step *)

Lemma lazy_step_hit fuel d ff state sym s1 :
  delta d state sym = Some s1 -> lazy_step fuel d ff state sym = (d, Ok s1).
Proof. intros H. unfold lazy_step. by rewrite transition_delta, H. Qed.

(** A step either succeeds, and then the transition it took is recorded in
    the automaton it leaves, or it fails and leaves the automaton as it
    was. *)
Lemma lazy_step_spec fuel d ff state sym d1 r :
  wf d -> lazy_step fuel d ff state sym = (d1, r) ->
  wf d1 /\ ext d d1 /\
  match r with
  | Ok s1 => delta d1 state sym = Some s1
  | _ => d1 = d
  end.
Proof.
  intros Hwf. unfold lazy_step. rewrite transition_delta.
  destruct (delta d state sym) as [s1|] eqn:Hd.
  { intros [= <- <-]. split; [done |]. split; [reflexivity | done]. }
  destruct (follow_fail _ _ _ _ _) as [ts | e |].
  2,3: intros [= <- <-]; split; [done |]; split; [reflexivity | done].
  destruct (DFA.add_transition d state sym ts FAILURE) as [d' r'] eqn:Hadd.
  destruct r' as [u | e |]; intros [= <- <-].
  - apply add_transition_Ok in Hadd as [Hwf' Hadded]; [| done].
    split; [done |]. split; [apply Hadded | apply Hadded].
  - apply add_transition_not_Ok in Hadd as [[u [=]] | ->]; [| done].
    split; [done |]. split; [reflexivity | done].
  - apply add_transition_not_Ok in Hadd as [[u [=]] | ->]; [| done].
    split; [done |]. split; [reflexivity | done].
Qed.

Lemma is_accepting_state_ext d d' s :
  ext d d' -> DFA.is_accepting_state d' s = DFA.is_accepting_state d s.
Proof.
  intros H. unfold DFA.is_accepting_state, DFA.out_of_range.
  by rewrite (ext_states _ _ H), (ext_accepting _ _ H).
Qed.

Lemma report_ext d d' pm s i :
  ext d d' ->
  AhoCorasickMatcher.report d' pm s i = AhoCorasickMatcher.report d pm s i.
Proof.
  intros H. unfold AhoCorasickMatcher.report.
  by rewrite (is_accepting_state_ext _ _ _ H).
Qed.

(** ** Searching again *)

(** A finished on-the-fly walk has recorded every transition it took: the
    same walk on the automaton it leaves changes nothing and yields the same
    matches. *)
Lemma search_lazy_transition_again fuel ff p s :
  forall d state index d2 out,
    wf d ->
    KMPMatcher.search_lazy_transition fuel d ff p state index s = (d2, out) ->
    wf d2 /\ ext d d2 /\
    KMPMatcher.search_lazy_transition fuel d2 ff p state index s = (d2, out).
Proof.
  induction s as [|sym s IH]; intros d state index d2 out Hwf; cbn.
  { intros [= <- <-]. split; [done |]. split; [reflexivity | done]. }
  destruct (lazy_step fuel d ff state sym) as [d1 r] eqn:Hstep.
  pose proof (lazy_step_spec _ _ _ _ _ _ _ Hwf Hstep) as (Hwf1 & Hext1 & Hr).
  destruct r as [state1 | e |].
  2,3: subst d1; intros [= <- <-]; rewrite Hstep;
       split; [done |]; split; [reflexivity | done].
  destruct (DFA.is_accepting_state d1 state1) as [acc | e |] eqn:Hacc.
  2,3: intros [= <- <-]; rewrite (lazy_step_hit _ _ _ _ _ _ Hr), Hacc;
       split; [done |]; split; done.
  destruct (KMPMatcher.search_lazy_transition fuel d1 ff p state1 (index + 1) s)
    as [d2' [ys r']] eqn:Hrec.
  intros [= <- <-].
  destruct (IH _ _ _ _ _ Hwf1 Hrec) as (Hwf2 & Hext2 & Hagain).
  split; [done |]. split; [etrans; eauto |].
  rewrite (lazy_step_hit _ _ _ _ _ _ (ext_delta _ _ Hext2 _ _ _ Hr)).
  rewrite (is_accepting_state_ext _ _ _ Hext2), Hacc, Hagain. done.
Qed.

Lemma search_lazy_again fuel ff pm s :
  forall d state index d2 out,
    wf d ->
    AhoCorasickMatcher.search_lazy fuel d ff pm state index s = (d2, out) ->
    wf d2 /\ ext d d2 /\
    AhoCorasickMatcher.search_lazy fuel d2 ff pm state index s = (d2, out).
Proof.
  induction s as [|sym s IH]; intros d state index d2 out Hwf; cbn.
  { intros [= <- <-]. split; [done |]. split; [reflexivity | done]. }
  destruct (lazy_step fuel d ff state sym) as [d1 r] eqn:Hstep.
  pose proof (lazy_step_spec _ _ _ _ _ _ _ Hwf Hstep) as (Hwf1 & Hext1 & Hr).
  destruct r as [state1 | e |].
  2,3: subst d1; intros [= <- <-]; rewrite Hstep;
       split; [done |]; split; [reflexivity | done].
  destruct (AhoCorasickMatcher.report d1 pm state1 index)
    as [found | e |] eqn:Hrep.
  2,3: intros [= <- <-]; rewrite (lazy_step_hit _ _ _ _ _ _ Hr), Hrep;
       split; [done |]; split; done.
  destruct (AhoCorasickMatcher.search_lazy fuel d1 ff pm state1 (index + 1) s)
    as [d2' [ys r']] eqn:Hrec.
  intros [= <- <-].
  destruct (IH _ _ _ _ _ Hwf1 Hrec) as (Hwf2 & Hext2 & Hagain).
  split; [done |]. split; [etrans; eauto |].
  rewrite (lazy_step_hit _ _ _ _ _ _ (ext_delta _ _ Hext2 _ _ _ Hr)).
  rewrite (report_ext _ _ _ _ _ Hext2), Hrep, Hagain. done.
Qed.

Lemma KMP_search_again fuel (m : KMPMatcher.t) s :
  wf (KMPMatcher.dfa m) ->
  (KMPMatcher.search fuel (KMPMatcher.search fuel m s).1 s).2
  = (KMPMatcher.search fuel m s).2.
Proof.
  intros Hwf. unfold KMPMatcher.search at 2 3.
  destruct (KMPMatcher.compute_transitions m) eqn:Hct.
  { cbn. unfold KMPMatcher.search. by rewrite Hct. }
  destruct (KMPMatcher.pattern m) as [p|] eqn:Hp.
  2:{ cbn. unfold KMPMatcher.search. by rewrite Hct, Hp. }
  destruct (KMPMatcher.search_lazy_transition _ _ _ _ _ _ _) as [d2 out] eqn:Hs.
  apply search_lazy_transition_again in Hs as (_ & _ & Hagain); [| done].
  cbn. unfold KMPMatcher.search. cbn. rewrite Hct, Hp, Hagain. done.
Qed.

Lemma AC_search_again fuel (m : AhoCorasickMatcher.t) s :
  wf (AhoCorasickMatcher.dfa m) ->
  (AhoCorasickMatcher.search fuel (AhoCorasickMatcher.search fuel m s).1 s).2
  = (AhoCorasickMatcher.search fuel m s).2.
Proof.
  intros Hwf. unfold AhoCorasickMatcher.search at 2 3.
  destruct (AhoCorasickMatcher.compute_transitions m) eqn:Hct.
  { cbn. unfold AhoCorasickMatcher.search. by rewrite Hct. }
  destruct (AhoCorasickMatcher.search_lazy _ _ _ _ _ _ _) as [d2 out] eqn:Hs.
  apply search_lazy_again in Hs as (_ & _ & Hagain); [| done].
  cbn. unfold AhoCorasickMatcher.search. cbn. rewrite Hct, Hagain. done.
Qed.

(** ** Results *)

Lemma bind_Ok {A B} (m : result A) (f : A -> result B) b :
  m ≫= f = Ok b <-> exists a, m = Ok a /\ f a = Ok b.
Proof.
  destruct m as [a | e |]; cbn; split; try discriminate; eauto.
  - intros (a' & [= <-] & H). exact H.
  - intros (? & [= ] & _).
  - intros (? & [= ] & _).
Qed.


(** Decomposition of a hypothesis [x ← m; k = Ok b]. *)
Ltac inv_bind H :=
  match type of H with
  | _ ≫= _ = Ok _ =>
      let a := fresh "a" in let H1 := fresh H in
      apply bind_Ok in H as (a & H1 & H); inv_bind H
  | _ => idtac
  end.

Lemma has_transition_delta d s a :
  DFA.has_transition d s a
  = Ok (match delta d s a with Some _ => true | None => false end).
Proof. unfold DFA.has_transition. by rewrite transition_delta. Qed.

Lemma wf_empty al : wf (DFA.__init__ al).
Proof.
  constructor.
  - intros s [? H]. unfold DFA.__init__ in H. cbn [transitions] in H.
    by rewrite lookup_empty in H.
  - intros p a c (row & H & _). unfold DFA.__init__ in H.
    cbn [transitions] in H. by rewrite lookup_empty in H.
Qed.

(** ** The single-pattern builder *)

Lemma KMP_add_root_loop d a d' :
  wf d -> KMPMatcher.add_root_loop d a = Ok d' ->
  wf d' /\ ext d d' /\ is_Some (delta d' 0 a).
Proof.
  intros Hwf. unfold KMPMatcher.add_root_loop. rewrite transition_delta. cbn.
  destruct (delta d 0 a) as [t|] eqn:Hd; cbn.
  - destruct (t =? 0); cbn.
    + intros (u & H)%commit__Ok.
      apply add_transition_Ok in H as [? Hadd]; [| done].
      split; [done |]. split; [apply Hadd |]. rewrite (added_here _ _ _ _ _ Hadd). eauto.
    + intros [= <-]. split; [done |]. split; [reflexivity |]. rewrite Hd. eauto.
  - intros (u & H)%commit__Ok.
    apply add_transition_Ok in H as [? Hadd]; [| done].
    split; [done |]. split; [apply Hadd |]. rewrite (added_here _ _ _ _ _ Hadd). eauto.
Qed.

Lemma is_Some_delta_ext d d' s a :
  ext d d' -> is_Some (delta d s a) -> is_Some (delta d' s a).
Proof. intros H [t Ht]. exists t. by apply (ext_delta _ _ H). Qed.

Lemma KMP_add_chain_state n P :
  forall d i d' i',
    wf d -> states d = Some i -> 0 <= i ->
    for_each P (KMPMatcher.add_chain_state n) (d, i) = Ok (d', i') ->
    wf d' /\ states d' = Some i' /\ i' = i + Z.of_nat (length P) /\
    alphabets d' = alphabets d.
Proof.
  induction P as [|sym P IH]; intros d i d' i' Hwf Hst Hi; cbn [for_each].
  { intros [= <- <-]. cbn. split; [done |]. split; [done |]. split; [lia | done]. }
  intros H. apply bind_Ok in H as ([d2 i2] & Hbody & Hrest).
  unfold KMPMatcher.add_chain_state in Hbody. inv_bind Hbody.
  injection Hbody as <- <-.
  apply commit__Ok in Hbody0 as (s & Hadd%add_state_Ok).
  pose proof (alloc_state _ _ _ _ Hadd) as Hs. rewrite Hst in Hs.
  assert (Hwf1 : wf a).
  { eapply allocated_wf; [| exact Hadd | exact Hwf]. intros ? ?. simplify_eq. lia. }
  assert (wf a0 /\ states a0 = Some (i + 1) /\ alphabets a0 = alphabets d)
    as (Hwf2 & Hst2 & Hal2).
  { destruct (i <? n).
    - apply commit__Ok in Hbody1 as (u & Hu).
      apply add_transition_Ok in Hu as [? Hadded]; [| done].
      split; [done |]. pose proof (added_ext _ _ _ _ _ Hadded) as He.
      rewrite (ext_states _ _ He), (ext_alphabets _ _ He),
        (alloc_states _ _ _ _ Hadd),
        (alloc_alphabets _ _ _ _ Hadd). by subst s.
    - injection Hbody1 as <-. split; [done |].
      rewrite (alloc_states _ _ _ _ Hadd), (alloc_alphabets _ _ _ _ Hadd).
      by subst s. }
  destruct (IH _ _ _ _ Hwf2 Hst2 ltac:(lia) Hrest) as (? & ? & ? & ?).
  split; [done |]. split; [done |]. split; [| congruence].
  cbn [length]. lia.
Qed.

(** A loop that only adds transitions, one symbol of the alphabet at a
    time, to the row of [s]. *)
Lemma fill_row (f : DFA -> ascii -> result DFA) (s : Z) (al : list ascii) :
  (forall d a d', wf d -> f d a = Ok d' ->
                  wf d' /\ ext d d' /\ is_Some (delta d' s a)) ->
  forall d d', wf d -> for_each al f d = Ok d' ->
    wf d' /\ ext d d' /\ forall a, a ∈ al -> is_Some (delta d' s a).
Proof.
  intros Hf d d' Hwf H.
  eapply (for_each_post wf ext (fun d a => is_Some (delta d s a)));
    [apply _ | apply _ | | | exact Hwf | exact H].
  - intros d0 a d0' ? _ ?. eauto.
  - intros d0 d0' a ? ?. eapply is_Some_delta_ext; eauto.
Qed.

Lemma KMP_initialize_dfa ct al P d :
  KMPMatcher._initialize_dfa ct al P = Ok d ->
  wf d /\ alphabets d = al /\ states d = Some (Z.of_nat (length P)) /\
  (ct = true -> forall a, a ∈ al -> is_Some (delta d 0 a)).
Proof.
  unfold KMPMatcher._initialize_dfa. intros H.
  apply bind_Ok in H as (d0 & H0 & H).
  apply bind_Ok in H as ([d1 i1] & H1 & H).
  apply commit__Ok in H0 as (s & Hadd%add_state_Ok).
  pose proof (alloc_state _ _ _ _ Hadd) as Hs. cbn in Hs. subst s.
  assert (Hwf0 : wf d0).
  { eapply allocated_wf; [| exact Hadd | apply wf_empty]. intros ? [=]. }
  apply KMP_add_chain_state in H1 as (Hwf1 & Hst1 & -> & Hal1);
    [| done | apply (alloc_states _ _ _ _ Hadd) | lia].
  rewrite (alloc_alphabets _ _ _ _ Hadd) in Hal1. cbn in Hal1.
  destruct ct.
  - apply (fill_row _ 0) in H as (Hwf & Hext & Hrow);
      [| apply KMP_add_root_loop | done].
    rewrite (ext_alphabets _ _ Hext), (ext_states _ _ Hext), Hst1.
    split; [done |]. split; [done |]. split; [f_equal; lia | auto].
  - injection H as <-. rewrite Hst1.
    split; [done |]. split; [done |]. split; [f_equal; lia | discriminate].
Qed.

Lemma KMP_add_failure_edge ff index d a d' :
  wf d -> KMPMatcher.add_failure_edge ff index d a = Ok d' ->
  wf d' /\ ext d d' /\ is_Some (delta d' index a).
Proof.
  intros Hwf. unfold KMPMatcher.add_failure_edge.
  rewrite has_transition_delta. cbn.
  destruct (delta d index a) as [t|] eqn:Hd; cbn.
  { intros [= <-]. split; [done |]. split; [reflexivity |]. rewrite Hd. eauto. }
  intros H. inv_bind H. apply commit__Ok in H as (u & H).
  apply add_transition_Ok in H as [? Hadd]; [| done].
  split; [done |]. split; [apply Hadd |].
  rewrite (added_here _ _ _ _ _ Hadd). eauto.
Qed.

Lemma KMP_init_index ct al P d ff index d' ff' :
  wf d -> KMPMatcher.init_index ct al P (d, ff) index = Ok (d', ff') ->
  wf d' /\ ext d d' /\
  (ct = true -> forall a, a ∈ al -> is_Some (delta d' index a)).
Proof.
  intros Hwf. unfold KMPMatcher.init_index. intros H.
  apply bind_Ok in H as (d1 & H1 & H).
  assert (wf d1 /\ ext d d1 /\
          (ct = true -> forall a, a ∈ al -> is_Some (delta d1 index a)))
    as (Hwf1 & Hext1 & Hrow).
  { destruct ct.
    - apply (fill_row _ index) in H1 as (? & ? & ?);
        [auto | intros; by eapply KMP_add_failure_edge | done].
    - injection H1 as <-. split; [done |]. split; [reflexivity | discriminate]. }
  destruct (index <? _).
  - inv_bind H. by injection H as <- <-.
  - by injection H as <- <-.
Qed.

(** What the constructor establishes. *)
Lemma KMP_init_spec al P ct m :
  KMPMatcher.__init__ al P ct = Ok m ->
  wf (KMPMatcher.dfa m) /\
  alphabets (KMPMatcher.dfa m) = al /\
  states (KMPMatcher.dfa m) = Some (Z.of_nat (length P)) /\
  KMPMatcher.compute_transitions m = ct /\
  KMPMatcher.pattern m = Some P /\
  (ct = true -> complete (KMPMatcher.dfa m)).
Proof.
  unfold KMPMatcher.__init__. destruct P as [|c P']; [discriminate |].
  set (P := c :: P'). intros H.
  apply bind_Ok in H as (d & Hd & H).
  apply bind_Ok in H as ([d' ff] & Hloop & H). injection H as <-. cbn.
  apply KMP_initialize_dfa in Hd as (Hwf & Hal & Hst & Hroot).
  apply (for_each_post (fun st => wf st.1) (fun st st' => ext st.1 st'.1)
           (fun st i => ct = true ->
                        forall a, a ∈ al -> is_Some (delta st.1 i a)))
    in Hloop as (Hwf' & Hext & Hrows); cbn [fst snd] in *.
  - rewrite (ext_alphabets _ _ Hext), (ext_states _ _ Hext).
    split; [done |]. split; [done |]. split; [done |]. split; [done |].
    split; [done |]. intros ->.
    exists (Z.of_nat (length P)).
    rewrite (ext_alphabets _ _ Hext), (ext_states _ _ Hext), Hal.
    split; [done |]. intros s a Hs Ha.
    destruct (decide (s = 0)) as [-> | Hs0].
    + eapply is_Some_delta_ext; eauto.
    + apply Hrows; [| done | done]. apply elem_of_seqZ.
      unfold P in *. cbn [length] in *. lia.
  - intros [d0 ?]. reflexivity.
  - intros [d0 ?] [d1 ?] [d2 ?]; cbn. apply ext_trans.
  - intros [d0 ff0] i [d1 ff1] Hwf0 _ Hbody. cbn [fst snd] in *.
    by eapply KMP_init_index.
  - intros [d0 ?] [d1 ?] i He HQ Hct a Ha. cbn [fst snd] in *.
    eapply is_Some_delta_ext; eauto.
  - done.
Qed.

(** ** The precomputed walk *)

Lemma direct_step_complete d n state sym :
  wf d -> complete d -> states d = Some n ->
  0 <= state <= n -> sym ∈ alphabets d ->
  exists t, direct_step d state sym = Ok t /\ 0 <= t <= n.
Proof.
  intros Hwf (n' & Hn' & Hall) Hn Hs Ha.
  assert (n' = n) as -> by congruence.
  destruct (Hall state sym Hs Ha) as [t Ht].
  exists t. unfold direct_step. rewrite transition_delta, Ht. cbn.
  split; [reflexivity |].
  apply delta_has_edge, (wf_range d Hwf) in Ht as (n2 & ? & ? & ?).
  by assert (n2 = n) as -> by congruence.
Qed.

Lemma is_accepting_state_in_range d n s :
  states d = Some n -> 0 <= s <= n ->
  DFA.is_accepting_state d s = Ok (bool_decide (s ∈ accepting_states d)).
Proof.
  intros Hn Hs. unfold DFA.is_accepting_state, DFA.out_of_range. rewrite Hn.
  destruct (s <? 0) eqn:E1; [lia |]. destruct (n <? s) eqn:E2; [lia |]. done.
Qed.

Lemma KMP_search_direct_safe (m : KMPMatcher.t) n P s :
  wf (KMPMatcher.dfa m) -> complete (KMPMatcher.dfa m) ->
  states (KMPMatcher.dfa m) = Some n -> KMPMatcher.pattern m = Some P ->
  (forall c, c ∈ s -> c ∈ alphabets (KMPMatcher.dfa m)) ->
  forall state index, 0 <= state <= n ->
    (KMPMatcher.search_direct m state index s).2 = Ok tt.
Proof.
  intros Hwf Hc Hn HP. induction s as [|sym s IH]; intros Hs state index Hst.
  { reflexivity. }
  cbn [KMPMatcher.search_direct].
  destruct (direct_step_complete _ _ state sym Hwf Hc Hn Hst) as (t & -> & Ht).
  { apply Hs, elem_of_cons. auto. }
  rewrite (is_accepting_state_in_range _ _ _ Hn Ht), HP.
  assert (Hs' : forall c, c ∈ s -> c ∈ alphabets (KMPMatcher.dfa m)).
  { intros c Hin. apply Hs, elem_of_cons. auto. }
  specialize (IH Hs' t (index + 1) Ht).
  destruct (bool_decide _); [| exact IH].
  destruct (KMPMatcher.search_direct m t (index + 1) s). exact IH.
Qed.

(** ** The traversal *)

Lemma explore_spec src row :
  forall q v q' v', DFA.explore src row q v = (q', v') ->
    (exists new, q' = q ++ new /\ forall e, e ∈ v' <-> e ∈ v \/ e ∈ new) /\
    forall b t, (b, t) ∈ row -> (src, b, t) ∈ v'.
Proof.
  induction row as [|[sym next] row IH]; intros q v q' v'; cbn.
  { intros [= <- <-]. split.
    - exists []. rewrite app_nil_r. split; [done |]. intros e.
      rewrite elem_of_nil. tauto.
    - intros b t H. by apply elem_of_nil in H. }
  case_bool_decide as Hin; intros H; apply IH in H as ((new & -> & Hv) & Hrow).
  - split; [eauto |]. intros b t [[= -> ->] | Hbt]%elem_of_cons; [| auto].
    apply Hv. auto.
  - split.
    + exists ((src, sym, next) :: new). rewrite <- app_assoc. split; [done |].
      intros e. rewrite Hv, elem_of_union, elem_of_singleton, elem_of_cons. tauto.
    + intros b t [[= -> ->] | Hbt]%elem_of_cons; [| auto].
      apply Hv. left. apply elem_of_union. left. by apply elem_of_singleton.
Qed.

(** What the traversal yields contains the queue it started from and is
    closed under the edges of the automaton, up to the edges that were
    already marked. *)
Lemma bfs_loop_closed d :
  forall fuel q v out, DFA.bfs_loop fuel d q v = Some out ->
    (forall e, e ∈ q -> e ∈ out) /\
    (forall p a c b t, (p, a, c) ∈ out -> has_edge d c b t ->
                       (c, b, t) ∈ v \/ (c, b, t) ∈ out).
Proof.
  induction fuel as [|fuel IH]; intros q v out; destruct q as [|cur q]; cbn.
  1,3: intros [= <-]; split; intros; exfalso; eapply elem_of_nil; eauto.
  { discriminate. }
  destruct cur as [[p0 a0] c0]. cbn [snd].
  destruct (transitions d !! c0) as [row|] eqn:Hrow.
  - destruct (DFA.explore c0 row q v) as [q1 v1] eqn:Hex.
    apply explore_spec in Hex as ((new & -> & Hv) & Hrow1).
    destruct (DFA.bfs_loop fuel d (q ++ new) v1) as [out'|] eqn:Hrec;
      [| discriminate].
    cbn. intros [= <-]. apply IH in Hrec as [Hq Hcl]. split.
    + intros e [-> | He]%elem_of_cons; apply elem_of_cons; [auto |].
      right. apply Hq, elem_of_app. auto.
    + assert (Hback : forall e, e ∈ v1 -> e ∈ v \/ e ∈ (p0, a0, c0) :: out').
      { intros e [? | ?]%Hv; [auto |]. right. apply elem_of_cons. right.
        apply Hq, elem_of_app. auto. }
      intros p a c b t [[= -> -> ->] | Hin]%elem_of_cons He.
      * destruct He as (row' & Hr' & Hbt).
        assert (row' = row) as -> by congruence. auto.
      * destruct (Hcl _ _ _ _ _ Hin He) as [? | ?]; [auto |].
        right. apply elem_of_cons. auto.
  - destruct (DFA.bfs_loop fuel d q v) as [out'|] eqn:Hrec; [| discriminate].
    cbn. intros [= <-]. apply IH in Hrec as [Hq Hcl]. split.
    + intros e [-> | He]%elem_of_cons; apply elem_of_cons; auto.
    + intros p a c b t [[= -> -> ->] | Hin]%elem_of_cons He.
      * destruct He as (row' & Hr' & _). congruence.
      * destruct (Hcl _ _ _ _ _ Hin He) as [? | ?]; [auto |].
        right. apply elem_of_cons. auto.
Qed.


Lemma trie_ext d d' : trie d -> wf d' -> ext d d' -> trie d'.
Proof.
  intros [Hwf Hi Hs Hp] Hwf' He. constructor.
  - done.
  - by rewrite (ext_initial _ _ He).
  - by rewrite (ext_states _ _ He).
  - intros n c Hn Hc. rewrite (ext_states _ _ He) in Hn.
    destruct (Hp n c Hn Hc) as (p & a & ? & ?).
    exists p, a. split; [done |]. by apply (ext_edge _ _ He).
Qed.

Lemma elem_of_first_level_children s0 row a c :
  (a, c) ∈ row -> c <> s0 -> (s0, a, c) ∈ DFA.first_level_children s0 row.
Proof.
  intros Hin Hne. unfold DFA.first_level_children.
  apply list_elem_of_omap. exists (a, c). split; [done |].
  by rewrite bool_decide_eq_true_2.
Qed.

(** On a trie the traversal yields an edge into every state but the root. *)
Lemma bfs_traverse_reaches d edges :
  trie d -> DFA.bfs_traverse d = Ok edges ->
  forall n c, states d = Some n -> 1 <= c <= n ->
    exists p a, (p, a, c) ∈ edges.
Proof.
  intros Ht. unfold DFA.bfs_traverse. rewrite (trie_initial d Ht).
  unfold dict_getitem. destruct (transitions d !! 0) as [row0|] eqn:Hrow0;
    cbn [mbind result_bind]; [| discriminate].
  match goal with
  | |- context [DFA.bfs_loop ?f ?d0 ?q ?v] =>
      destruct (DFA.bfs_loop f d0 q v) as [out|] eqn:Hloop; [| discriminate]
  end.
  intros [= <-] n c Hn. apply bfs_loop_closed in Hloop as [Hq Hcl].
  assert (Hind : forall k : nat, forall c, Z.to_nat c = k -> 1 <= c <= n ->
                   exists p a, (p, a, c) ∈ out).
  { induction k as [k IH] using lt_wf_ind. intros c' Hk Hc'.
    destruct (trie_parent d Ht n c' Hn Hc') as (p & a & Hp & He).
    destruct (decide (p = 0)) as [-> | Hp0].
    - destruct He as (row & Hr & Hin).
      assert (row = row0) as -> by congruence.
      exists 0, a. apply Hq, elem_of_first_level_children; [done | lia].
    - destruct (IH (Z.to_nat p)) with (c := p) as (p' & a' & Hin');
        [lia | done | lia |].
      destruct (Hcl _ _ _ _ _ Hin' He) as [Hv | Ho]; [| eauto].
      apply elem_of_list_to_set in Hv. eauto. }
  intros Hc. by apply (Hind (Z.to_nat c)).
Qed.

(** ** The traversal returns *)

Lemma unseen_le v l : (unseen v l <= length l)%nat.
Proof. apply length_filter. Qed.

Lemma unseen_mono v e l : (unseen ({[ e ]} ∪ v) l <= unseen v l)%nat.
Proof.
  unfold unseen. induction l as [|x l IH]; [done |].
  rewrite !filter_cons. repeat case_decide; cbn; try lia.
  exfalso. set_solver.
Qed.

Lemma unseen_add v e l :
  e ∈ l -> e ∉ v -> (S (unseen ({[ e ]} ∪ v) l) <= unseen v l)%nat.
Proof.
  unfold unseen. induction l as [|x l IH]; intros Hin Hv.
  { by apply elem_of_nil in Hin. }
  apply elem_of_cons in Hin as [<- | Hin].
  - rewrite !filter_cons. rewrite decide_False by set_solver.
    rewrite decide_True by done. cbn. pose proof (unseen_mono v e l).
    unfold unseen in *. lia.
  - specialize (IH Hin Hv). rewrite !filter_cons.
    repeat case_decide; cbn; try lia. exfalso. set_solver.
Qed.

Lemma explore_measure l src row :
  (forall b t, (b, t) ∈ row -> (src, b, t) ∈ l) ->
  forall q v q' v', DFA.explore src row q v = (q', v') ->
    (length q' + unseen v' l <= length q + unseen v l)%nat.
Proof.
  induction row as [|[sym next] row IH]; intros Hrow q v q' v'; cbn.
  { intros [= <- <-]. lia. }
  assert (Hrow' : forall b t, (b, t) ∈ row -> (src, b, t) ∈ l).
  { intros b t H. apply Hrow, elem_of_cons. auto. }
  case_bool_decide as Hin; intros H; apply (IH Hrow') in H.
  - exact H.
  - rewrite length_app in H. cbn in H.
    assert ((src, sym, next) ∈ l) as Hl by (apply Hrow, elem_of_cons; auto).
    pose proof (unseen_add v _ l Hl Hin). lia.
Qed.

Lemma row_in_all_edges d c row b t :
  transitions d !! c = Some row -> (b, t) ∈ row -> (c, b, t) ∈ all_edges d.
Proof.
  intros Hrow Hin. unfold all_edges. apply list_elem_of_bind.
  exists (c, row). split; [| by apply elem_of_map_to_list].
  apply list_elem_of_fmap. exists (b, t). done.
Qed.

Lemma bfs_loop_returns d :
  forall fuel q v,
    (length q + unseen v (all_edges d) <= fuel)%nat ->
    is_Some (DFA.bfs_loop fuel d q v).
Proof.
  induction fuel as [|fuel IH]; intros q v Hm; destruct q as [|cur q]; cbn.
  1,3: eauto.
  { cbn in Hm. lia. }
  cbn in Hm. destruct cur as [[p0 a0] c0]. cbn [snd].
  destruct (transitions d !! c0) as [row|] eqn:Hrow.
  - destruct (DFA.explore c0 row q v) as [q1 v1] eqn:Hex.
    apply (explore_measure (all_edges d)) in Hex.
    2:{ intros b t. by apply row_in_all_edges. }
    destruct (IH q1 v1) as [out ->]; [lia |]. cbn. eauto.
  - destruct (IH q v) as [out ->]; [lia |]. cbn. eauto.
Qed.

Lemma n_edges_all_edges d : DFA.n_edges d = length (all_edges d).
Proof.
  unfold DFA.n_edges, all_edges. rewrite map_fold_foldr.
  induction (map_to_list (transitions d)) as [|[k row] l IH]; [done |].
  cbn. rewrite length_app, length_fmap, IH. done.
Qed.

Lemma row_length_all_edges d c row :
  transitions d !! c = Some row -> (length row <= length (all_edges d))%nat.
Proof.
  intros Hrow. apply elem_of_map_to_list in Hrow. unfold all_edges.
  induction (map_to_list (transitions d)) as [|kr l IH].
  { by apply elem_of_nil in Hrow. }
  cbn. rewrite length_app, length_fmap.
  apply elem_of_cons in Hrow as [<- | Hin]; cbn; [lia |].
  specialize (IH Hin). lia.
Qed.

Lemma first_level_children_length s0 row :
  (length (DFA.first_level_children s0 row) <= length row)%nat.
Proof.
  unfold DFA.first_level_children. induction row as [|[a c] row IH]; cbn; [lia |].
  case_bool_decide; cbn; lia.
Qed.

(** The bound on the passes of the traversal is never reached. *)
Lemma bfs_traverse_returns d : DFA.bfs_traverse d <> Diverge.
Proof.
  unfold DFA.bfs_traverse. destruct (initial_state d) as [s0|]; [| done].
  unfold dict_getitem. destruct (transitions d !! s0) as [row0|] eqn:Hrow0;
    cbn [mbind result_bind]; [| done].
  match goal with
  | |- context [DFA.bfs_loop ?f ?d0 ?q ?v] =>
      destruct (bfs_loop_returns d0 f q v) as [out ->]; [| done]
  end.
  rewrite n_edges_all_edges.
  pose proof (first_level_children_length s0 row0).
  pose proof (row_length_all_edges d s0 row0 Hrow0).
  pose proof (unseen_le (list_to_set (DFA.first_level_children s0 row0))
                (all_edges d)).
  lia.
Qed.

(** ** The multi-pattern builder *)



Lemma add_state_initial d acc d' s :
  DFA.add_state d acc false = (d', Ok s) -> initial_state d' = initial_state d.
Proof.
  unfold DFA.add_state. cbn. intros [= <- _]. by destruct acc.
Qed.

Lemma follow_existing_spec d n :
  wf d -> states d = Some n ->
  forall rest i state ns i' state' ns',
    0 <= state <= n ->
    (forall z, ns = Some z -> 1 <= z <= n) ->
    AhoCorasickMatcher.follow_existing d rest i state ns = Ok (i', state', ns') ->
    0 <= state' <= n /\
    forall z, ns' = Some z ->
      1 <= z <= n \/ i' < i + Z.of_nat (length rest).
Proof.
  intros Hwf Hn. induction rest as [|c rest IH];
    intros i state ns i' state' ns' Hst Hns; cbn [AhoCorasickMatcher.follow_existing].
  { intros [= <- <- <-]. split; [done |]. intros z Hz. left. auto. }
  rewrite transition_delta. cbn [mbind result_bind].
  destruct (delta d state c) as [z0|] eqn:Hd; cbn [truthy or0].
  - destruct (z0 =? 0) eqn:Hz0; cbn [negb].
    + intros [= <- <- <-]. split; [done |]. intros z [= <-].
      right. cbn [length]. lia.
    + apply delta_has_edge, (wf_range d Hwf) in Hd as (n2 & Hn2 & ? & ?).
      assert (n2 = n) as -> by congruence.
      intros Hrec.
      apply IH in Hrec as [? Hpost]; [| lia | intros z [= <-]; lia].
      split; [done |]. intros z Hz. destruct (Hpost z Hz); [auto |].
      right. cbn [length]. lia.
  - intros [= <- <- <-]. split; [done |]. intros z [=].
Qed.

Lemma add_suffix_spec P :
  forall rest d n j state pm last d' state' pm' last',
    trie d -> acc_range d -> states d = Some n -> 0 <= state <= n ->
    AhoCorasickMatcher.add_suffix d P rest j state pm last
    = Ok (d', state', pm', last') ->
    trie d' /\ acc_range d' /\ alphabets d' = alphabets d /\
    exists n', states d' = Some n' /\ n <= n' /\ 0 <= state' <= n' /\
      forall s, is_Some (pm !! s) \/ n < s <= n' -> is_Some (pm' !! s).
Proof.
  induction rest as [|c rest IH];
    intros d n j state pm last d' state' pm' last' Ht Hacc Hn Hst;
    cbn [AhoCorasickMatcher.add_suffix].
  { intros [= <- <- <- <-]. split; [done |]. split; [done |]. split; [done |].
    exists n. split; [done |]. split; [lia |]. split; [done |].
    intros s [? | ?]; [done | lia]. }
  intros H. apply bind_Ok in H as ([d1 added] & H1 & H).
  apply bind_Ok in H as (d2 & H2 & H).
  apply commit_Ok in H1. pose proof (add_state_initial _ _ _ _ H1) as Hini.
  apply add_state_Ok in H1 as Halloc.
  pose proof (alloc_state _ _ _ _ Halloc) as Hs. rewrite Hn in Hs. subst added.
  assert (Hwf1 : wf d1).
  { eapply allocated_wf; [| exact Halloc | apply Ht].
    intros ? ?. destruct (trie_states d Ht) as (? & ? & ?). simplify_eq. lia. }
  apply commit__Ok in H2 as (u & H2).
  apply add_transition_Ok in H2 as [Hwf2 Hadd]; [| done].
  pose proof (added_ext _ _ _ _ _ Hadd) as He.
  assert (Hn2 : states d2 = Some (n + 1)).
  { by rewrite (ext_states _ _ He), (alloc_states _ _ _ _ Halloc). }
  assert (Ht2 : trie d2).
  { constructor.
    - done.
    - rewrite (ext_initial _ _ He), Hini. apply Ht.
    - exists (n + 1). split; [done | lia].
    - intros n0 c0 Hn0 Hc0. assert (n0 = n + 1) as -> by congruence.
      destruct (decide (c0 = n + 1)) as [-> | Hne].
      + exists state, c. split; [lia |]. apply (added_edges _ _ _ _ _ Hadd). auto.
      + destruct (trie_parent d Ht n c0 Hn) as (p & a & ? & Hedge); [lia |].
        exists p, a. split; [done |]. apply (ext_edge _ _ He).
        by apply (allocated_edge _ _ _ _ _ _ _ Halloc). }
  assert (Hacc2 : acc_range d2).
  { intros s. rewrite (ext_accepting _ _ He), (alloc_accepting _ _ _ _ Halloc).
    intros Hs. exists (n + 1). split; [done |].
    assert (s = n + 1 \/ s ∈ accepting_states d) as [-> | Hin].
    { destruct (j =? _); [| auto].
      apply elem_of_union in Hs as [->%elem_of_singleton | ?]; auto. }
    - destruct (trie_states d Ht) as (? & ? & ?). simplify_eq. lia.
    - destruct (Hacc s Hin) as (n0 & ? & ?). simplify_eq. lia. }
  apply IH with (n := n + 1) in H as (Ht' & Hacc' & Hal' & n' & Hn' & ? & ? & Hpm);
    [| done | done | done |].
  2:{ destruct (trie_states d Ht) as (? & ? & ?). simplify_eq. lia. }
  split; [done |]. split; [done |]. split.
  { by rewrite Hal', (ext_alphabets _ _ He), (alloc_alphabets _ _ _ _ Halloc). }
  exists n'. split; [done |]. split; [lia |]. split; [done |].
  intros s Hs. apply Hpm.
  destruct (decide (s = n + 1)) as [-> | Hne].
  - left. rewrite lookup_insert_eq. eauto.
  - destruct Hs as [Hs | Hs]; [| right; lia].
    left. by rewrite lookup_insert_ne.
Qed.

Lemma set_accepting_true d z d' u :
  DFA.set_accepting d z true = (d', Ok u) ->
  d' = DFA.set_accepting_states d ({[ z ]} ∪ accepting_states d).
Proof. cbn. by intros [= <-]. Qed.

Lemma AC_add_pattern d n P d' added :
  trie d -> acc_range d -> states d = Some n ->
  AhoCorasickMatcher._add_pattern d P = Ok (d', added) ->
  trie d' /\ acc_range d' /\ alphabets d' = alphabets d /\
  exists n', states d' = Some n' /\ n <= n' /\
    forall s, n < s <= n' -> is_Some (added !! s).
Proof.
  intros Ht Hacc Hn. unfold AhoCorasickMatcher._add_pattern.
  rewrite (trie_initial d Ht). intros H.
  apply bind_Ok in H as ([[i state] ns] & Hfollow & H).
  destruct (trie_states d Ht) as (n0 & Hn0 & Hpos).
  assert (n0 = n) as -> by congruence.
  apply (follow_existing_spec d n (trie_wf d Ht) Hn) in Hfollow
    as [Hstate Hns]; [| lia | discriminate].
  destruct ns as [z|].
  - destruct (i =? Z.of_nat (length P)) eqn:Hi.
    + apply bind_Ok in H as (d1 & H1 & H). injection H as <- <-.
      apply commit__Ok in H1 as (u & ->%set_accepting_true).
      destruct (Hns z eq_refl) as [Hz | ?]; [| lia].
      split; [| split; [| split; [done |]]].
      * destruct Ht as [[Hty Hrg] ? ? Hp]. constructor; [constructor | ..]; auto.
      * intros s [->%elem_of_singleton | Hs]%elem_of_union; cbn; eauto.
      * exists n. split; [done |]. split; [lia |]. intros; lia.
    + injection H as <- <-. split; [done |]. split; [done |]. split; [done |].
      exists n. split; [done |]. split; [lia |]. intros; lia.
  - apply bind_Ok in H as ([[[d1 state1] pm1] last] & Hsuf & H).
    destruct last as [j|]; [| discriminate]. injection H as <- <-.
    eapply add_suffix_spec in Hsuf
      as (Ht' & Hacc' & Hal' & n' & Hn' & ? & ? & Hpm); eauto.
    split; [done |]. split; [done |]. split; [done |].
    exists n'. split; [done |]. split; [done |]. intros s Hs.
    destruct (decide (s = state1)) as [-> | Hne].
    + rewrite lookup_insert_eq. eauto.
    + rewrite lookup_insert_ne by done. apply Hpm. auto.
Qed.

Lemma AC_insert_patterns al Ps :
  forall d pm d' pm',
    trie d -> acc_range d -> covered d pm -> alphabets d = al ->
    for_each Ps AhoCorasickMatcher.insert_pattern (d, pm) = Ok (d', pm') ->
    trie d' /\ acc_range d' /\ covered d' pm' /\ alphabets d' = al.
Proof.
  induction Ps as [|P Ps IH]; intros d pm d' pm' Ht Hacc Hcov Hal;
    cbn [for_each].
  { by intros [= <- <-]. }
  intros H. apply bind_Ok in H as ([d1 pm1] & H1 & H).
  unfold AhoCorasickMatcher.insert_pattern in H1.
  apply bind_Ok in H1 as ([d1' added] & Hadd & H1). injection H1 as <- <-.
  destruct (trie_states d Ht) as (n & Hn & Hpos).
  eapply AC_add_pattern in Hadd
    as (Ht1 & Hacc1 & Hal1 & n' & Hn' & ? & Hnew); eauto.
  eapply IH; eauto; [| congruence].
  intros n0 s Hn0 Hs. assert (n0 = n') as -> by congruence.
  apply lookup_union_is_Some.
  destruct (decide (s <= n)); [right; eapply Hcov; eauto; lia | left].
  apply Hnew. lia.
Qed.

Lemma AC_add_root_loop d a d' :
  wf d -> AhoCorasickMatcher.add_root_loop d a = Ok d' ->
  wf d' /\ ext d d' /\ is_Some (delta d' 0 a).
Proof.
  intros Hwf. unfold AhoCorasickMatcher.add_root_loop.
  rewrite transition_delta. cbn.
  destruct (delta d 0 a) as [t|] eqn:Hd.
  - intros [= <-]. split; [done |]. split; [reflexivity |]. rewrite Hd. eauto.
  - intros (u & H)%commit__Ok.
    apply add_transition_Ok in H as [? Hadd]; [| done].
    split; [done |]. split; [apply Hadd |].
    rewrite (added_here _ _ _ _ _ Hadd). eauto.
Qed.

Lemma acc_range_ext d d' : ext d d' -> acc_range d -> acc_range d'.
Proof.
  intros He H s. rewrite (ext_accepting _ _ He), (ext_states _ _ He). apply H.
Qed.

Lemma covered_ext d d' pm : ext d d' -> covered d pm -> covered d' pm.
Proof. intros He H n s. rewrite (ext_states _ _ He). apply H. Qed.

Lemma AC_initialize_dfa ct al Ps d pm :
  AhoCorasickMatcher._initialize_dfa ct al Ps = Ok (d, pm) ->
  trie d /\ acc_range d /\ covered d pm /\ alphabets d = al /\
  (ct = true -> forall a, a ∈ al -> is_Some (delta d 0 a)).
Proof.
  unfold AhoCorasickMatcher._initialize_dfa. intros H.
  apply bind_Ok in H as (d0 & H0 & H).
  apply bind_Ok in H as ([d1 pm1] & H1 & H).
  apply bind_Ok in H as (d2 & H2 & H). injection H as <- <-.
  apply commit__Ok in H0 as (s & H0).
  pose proof (add_state_Ok _ _ _ _ _ H0) as Halloc.
  pose proof (alloc_state _ _ _ _ Halloc) as Hs. cbn in Hs. subst s.
  assert (Ht0 : trie d0).
  { constructor.
    - eapply allocated_wf; [| exact Halloc | apply wf_empty]. intros ? [=].
    - unfold DFA.add_state in H0. cbn in H0. by injection H0 as <-.
    - exists 0. split; [apply (alloc_states _ _ _ _ Halloc) | lia].
    - intros n c Hn. rewrite (alloc_states _ _ _ _ Halloc) in Hn.
      injection Hn as <-. lia. }
  assert (Hacc0 : acc_range d0).
  { intros s. rewrite (alloc_accepting _ _ _ _ Halloc). cbn. set_solver. }
  assert (Hcov0 : covered d0 ∅).
  { intros n s Hn. rewrite (alloc_states _ _ _ _ Halloc) in Hn.
    injection Hn as <-. lia. }
  eapply (AC_insert_patterns al) in H1 as (Ht1 & Hacc1 & Hcov1 & Hal1); eauto;
    try by rewrite (alloc_alphabets _ _ _ _ Halloc).
  unfold AhoCorasickMatcher._initialize_root in H2. destruct ct.
  - apply (fill_row _ 0) in H2 as (Hwf2 & He & Hrow);
      [| apply AC_add_root_loop | apply Ht1].
    split; [by eapply trie_ext |]. split; [by eapply acc_range_ext |].
    split; [by eapply covered_ext |].
    split; [by rewrite (ext_alphabets _ _ He) | auto].
  - injection H2 as <-. split; [done |]. split; [done |]. split; [done |].
    split; [done | discriminate].
Qed.

Lemma AC_top_level_edge sym index d a d' :
  wf d -> AhoCorasickMatcher.top_level_edge sym index d a = Ok d' ->
  wf d' /\ ext d d' /\ is_Some (delta d' index a).
Proof.
  intros Hwf. unfold AhoCorasickMatcher.top_level_edge.
  rewrite transition_delta. cbn [mbind result_bind].
  destruct (truthy (delta d index a)) eqn:Htr; cbn [negb].
  - intros [= <-]. split; [done |]. split; [reflexivity |].
    destruct (delta d index a); [eauto | discriminate].
  - intros (u & H)%commit__Ok.
    apply add_transition_Ok in H as [? Hadd]; [| done].
    split; [done |]. split; [apply Hadd |].
    rewrite (added_here _ _ _ _ _ Hadd). eauto.
Qed.

Lemma precompute_transition_spec index ff d a d' :
  wf d -> precompute_transition index ff d a = Ok d' ->
  wf d' /\ ext d d' /\ is_Some (delta d' index a).
Proof.
  intros Hwf. unfold precompute_transition.
  rewrite transition_delta. cbn [mbind result_bind].
  destruct (delta d index a) as [t|] eqn:Hd.
  - intros [= <-]. split; [done |]. split; [reflexivity |]. rewrite Hd. eauto.
  - intros H. inv_bind H. destruct a1 as [to_state|]; [| discriminate].
    apply commit__Ok in H as (u & H).
    apply add_transition_Ok in H as [? Hadd]; [| done].
    split; [done |]. split; [apply Hadd |].
    rewrite (added_here _ _ _ _ _ Hadd). eauto.
Qed.

Lemma AC_init_edge ct al d ff p a c d' ff' :
  wf d ->
  AhoCorasickMatcher.init_edge ct al (d, ff) (p, a, c) = Ok (d', ff') ->
  wf d' /\ ext d d' /\
  (ct = true -> forall b, b ∈ al -> is_Some (delta d' c b)).
Proof.
  intros Hwf. unfold AhoCorasickMatcher.init_edge.
  destruct (p =? 0).
  - intros H. apply bind_Ok in H as (d1 & H1 & H). injection H as <- <-.
    unfold AhoCorasickMatcher._initialize_top_level in H1. destruct ct.
    + apply (fill_row _ c) in H1 as (? & ? & ?);
        [auto | intros; by eapply AC_top_level_edge | done].
    + injection H1 as <-. split; [done |]. split; [reflexivity | discriminate].
  - intros H. apply bind_Ok in H as (f & _ & H).
    apply bind_Ok in H as (t & _ & H). apply bind_Ok in H as (ff1 & _ & H).
    destruct ct.
    + apply bind_Ok in H as (d1 & H1 & H). injection H as <- <-.
      apply (fill_row _ c) in H1 as (? & ? & ?);
        [auto | intros; by eapply precompute_transition_spec | done].
    + injection H as <- <-. split; [done |]. split; [reflexivity | discriminate].
Qed.

(** What the constructor establishes. *)
Lemma AC_init_spec al Ps ct m :
  AhoCorasickMatcher.__init__ al Ps ct = Ok m ->
  wf (AhoCorasickMatcher.dfa m) /\
  alphabets (AhoCorasickMatcher.dfa m) = al /\
  AhoCorasickMatcher.compute_transitions m = ct /\
  acc_range (AhoCorasickMatcher.dfa m) /\
  covered (AhoCorasickMatcher.dfa m) (AhoCorasickMatcher.pattern_map m) /\
  (exists n, states (AhoCorasickMatcher.dfa m) = Some n /\ 0 <= n) /\
  (ct = true -> complete (AhoCorasickMatcher.dfa m)).
Proof.
  unfold AhoCorasickMatcher.__init__. destruct Ps as [|P0 Ps']; [discriminate |].
  set (Ps := P0 :: Ps'). destruct (existsb _ Ps); [discriminate |].
  intros H. apply bind_Ok in H as ([d pm] & Hd & H).
  apply bind_Ok in H as (edges & Hbfs & H).
  apply bind_Ok in H as ([d' ff] & Hloop & H). injection H as <-.
  cbn [AhoCorasickMatcher.dfa AhoCorasickMatcher.compute_transitions
       AhoCorasickMatcher.pattern_map].
  apply AC_initialize_dfa in Hd as (Ht & Hacc & Hcov & Hal & Hroot).
  pose proof (bfs_traverse_reaches d edges Ht Hbfs) as Hreach.
  apply (for_each_post (fun st => wf st.1) (fun st st' => ext st.1 st'.1)
           (fun st (e : Edge) => ct = true ->
                        forall b, b ∈ al -> is_Some (delta st.1 e.2 b)))
    in Hloop as (Hwf' & Hext & Hrows); cbn [fst snd] in *.
  - split; [done |]. split; [by rewrite (ext_alphabets _ _ Hext) |].
    split; [done |]. split; [by eapply acc_range_ext |].
    split; [by eapply covered_ext |].
    destruct (trie_states d Ht) as (n & Hn & Hpos).
    split; [exists n; by rewrite (ext_states _ _ Hext) |]. intros ->.
    exists n. rewrite (ext_alphabets _ _ Hext), (ext_states _ _ Hext), Hal.
    split; [done |]. intros s a Hs Ha.
    destruct (decide (s = 0)) as [-> | Hs0].
    + eapply is_Some_delta_ext; eauto.
    + destruct (Hreach n s Hn) as (p & a' & Hin); [lia |].
      apply (Hrows _ Hin); done.
  - intros [d0 ?]. reflexivity.
  - intros [d0 ?] [d1 ?] [d2 ?]; cbn. apply ext_trans.
  - intros [d0 ff0] [[p a] c] [d1 ff1] Hwf0 _ Hbody. cbn [fst snd] in *.
    by eapply AC_init_edge.
  - intros [d0 ?] [d1 ?] i He HQ Hct a Ha. cbn [fst snd] in *.
    eapply is_Some_delta_ext; eauto.
  - apply Ht.
Qed.

Lemma AC_search_direct_safe (m : AhoCorasickMatcher.t) n s :
  wf (AhoCorasickMatcher.dfa m) -> complete (AhoCorasickMatcher.dfa m) ->
  acc_range (AhoCorasickMatcher.dfa m) ->
  covered (AhoCorasickMatcher.dfa m) (AhoCorasickMatcher.pattern_map m) ->
  states (AhoCorasickMatcher.dfa m) = Some n ->
  (forall c, c ∈ s -> c ∈ alphabets (AhoCorasickMatcher.dfa m)) ->
  forall state index, 0 <= state <= n ->
    (AhoCorasickMatcher.search_direct m state index s).2 = Ok tt.
Proof.
  intros Hwf Hc Hacc Hcov Hn. induction s as [|sym s IH];
    intros Hs state index Hst.
  { reflexivity. }
  cbn [AhoCorasickMatcher.search_direct].
  destruct (direct_step_complete _ _ state sym Hwf Hc Hn Hst) as (t & -> & Ht).
  { apply Hs, elem_of_cons. auto. }
  assert (Hs' : forall c, c ∈ s -> c ∈ alphabets (AhoCorasickMatcher.dfa m)).
  { intros c Hin. apply Hs, elem_of_cons. auto. }
  specialize (IH Hs' t (index + 1) Ht).
  assert (exists found, AhoCorasickMatcher.report (AhoCorasickMatcher.dfa m)
            (AhoCorasickMatcher.pattern_map m) t index = Ok found)
    as [found ->].
  { unfold AhoCorasickMatcher.report.
    rewrite (is_accepting_state_in_range _ _ _ Hn Ht). cbn [mbind result_bind].
    case_bool_decide as Hin; [| eauto].
    destruct (Hacc t Hin) as (n' & Hn' & Ht').
    destruct (Hcov n' t Hn' Ht') as [p Hp].
    unfold dict_getitem. rewrite Hp. cbn. eauto. }
  destruct (AhoCorasickMatcher.search_direct m t (index + 1) s). exact IH.
Qed.

(** ** Borders and the prefix function *)

Local Open Scope nat_scope.

Section Borders.
Context (P : str).
Implicit Types (w : str) (a c : ascii) (k m x : nat).

Lemma longest_upto_le Q b : longest_upto Q b <= b.
Proof. induction b as [|b IH]; cbn; [lia |]. destruct (Q (S b)); lia. Qed.

Lemma longest_upto_holds Q b : Q 0 = true -> Q (longest_upto Q b) = true.
Proof.
  intros H0. induction b as [|b IH]; cbn; [done |].
  by destruct (Q (S b)) eqn:E.
Qed.

Lemma longest_upto_max Q b k : k <= b -> Q k = true -> k <= longest_upto Q b.
Proof.
  induction b as [|b IH]; cbn; intros Hk HQ; [lia |].
  destruct (Q (S b)) eqn:E; [lia |].
  destruct (decide (k = S b)) as [-> | Hne]; [congruence |].
  apply IH; [lia | done].
Qed.

Lemma ends_0 w : ends P w 0.
Proof. split; [lia |]. apply suffix_nil. Qed.

Lemma ends_length w k : ends P w k -> k <= length w.
Proof.
  intros [Hk Hs]. apply suffix_length in Hs.
  by rewrite length_take_le in Hs.
Qed.

Lemma ends_snoc w a k :
  ends P (w ++ [a]) (S k) <-> ends P w k /\ P !! k = Some a.
Proof.
  split.
  - intros [Hk Hs]. destruct (lookup_lt_is_Some_2 P k) as [c Hc]; [lia |].
    rewrite (take_S_r _ _ _ Hc) in Hs.
    pose proof (suffix_snoc_inv_1 _ _ _ _ Hs) as ->.
    apply suffix_snoc_inv_2 in Hs. split; [split; [lia | done] | done].
  - intros [[Hk Hs] Hc]. pose proof (lookup_lt_Some _ _ _ Hc).
    split; [lia |]. rewrite (take_S_r _ _ _ Hc). by apply suffix_snoc.
Qed.

Lemma sigma_ends w : ends P w (sigma P w).
Proof.
  unfold sigma. split.
  - etrans; [apply longest_upto_le | lia].
  - assert (H0 : (fun k => bool_decide (take k P `suffix_of` w)) 0 = true)
      by apply bool_decide_eq_true_2, suffix_nil.
    pose proof (longest_upto_holds _ (min (length w) (length P)) H0) as H.
    cbv beta in H. by apply bool_decide_eq_true_1 in H.
Qed.

Lemma sigma_max w k : ends P w k -> k <= sigma P w.
Proof.
  intros H. pose proof (ends_length _ _ H). destruct H as [Hk Hs].
  unfold sigma.
  apply (longest_upto_max (fun k => bool_decide (take k P `suffix_of` w)));
    [lia |]. by apply bool_decide_eq_true_2.
Qed.

Lemma sigma_unique w m :
  ends P w m -> (forall k, ends P w k -> k <= m) -> sigma P w = m.
Proof.
  intros Hm Hmax. pose proof (sigma_max w m Hm).
  pose proof (Hmax _ (sigma_ends w)). lia.
Qed.

Lemma sigma_ext w w' :
  (forall k, ends P w k <-> ends P w' k) -> sigma P w = sigma P w'.
Proof.
  intros H. apply sigma_unique.
  - apply H, sigma_ends.
  - intros k Hk. apply sigma_max. by apply H.
Qed.

Lemma is_border_ends x k :
  k <= x -> x <= length P ->
  is_border P x k = true <-> ends P (take x P) k.
Proof.
  intros Hk Hx. unfold is_border, ends. rewrite bool_decide_eq_true. split.
  - intros ->. split; [lia |]. apply suffix_drop.
  - intros [_ [l Hl]]. rewrite Hl. symmetry. apply drop_app_length'.
    apply (f_equal length) in Hl.
    rewrite length_app, !length_take_le in Hl by lia. lia.
Qed.

Lemma pi_lt x : 1 <= x -> pi P x < x.
Proof. intros Hx. pose proof (longest_upto_le (is_border P x) (x - 1)). unfold pi. lia. Qed.

Lemma pi_ends x : 1 <= x -> x <= length P -> ends P (take x P) (pi P x).
Proof.
  intros Hx Hn. apply is_border_ends; [pose proof (pi_lt x Hx); lia | done |].
  apply longest_upto_holds. apply is_border_ends; [lia | done | apply ends_0].
Qed.

Lemma pi_max x k :
  x <= length P -> k < x -> ends P (take x P) k -> k <= pi P x.
Proof.
  intros Hn Hk He. apply longest_upto_max; [lia |].
  apply is_border_ends; [lia | done | done].
Qed.

Lemma pi_unique x m :
  1 <= x -> x <= length P -> m < x -> ends P (take x P) m ->
  (forall k, k < x -> ends P (take x P) k -> k <= m) -> pi P x = m.
Proof.
  intros Hx Hn Hm He Hmax. pose proof (pi_max x m Hn Hm He).
  pose proof (Hmax _ (pi_lt x Hx) (pi_ends x Hx Hn)). lia.
Qed.

(** A border of a prefix that is shorter than the prefix is a border of its
    longest border, and conversely. *)
Lemma ends_pi x k :
  1 <= x -> x <= length P ->
  ends P (take (pi P x) P) k <-> k < x /\ ends P (take x P) k.
Proof.
  intros Hx Hn. pose proof (pi_lt x Hx) as Hlt.
  pose proof (pi_ends x Hx Hn) as [_ Hpi]. split.
  - intros He. pose proof (ends_length _ _ He) as Hlen.
    rewrite length_take_le in Hlen by lia. split; [lia |].
    destruct He as [Hk Hs]. split; [done |]. by etrans.
  - intros [Hk He]. pose proof (pi_max x k Hn Hk He) as Hle.
    destruct He as [Hkn Hs]. split; [done |].
    destruct (suffix_weak_total _ _ _ Hs Hpi) as [? | Hrev]; [done |].
    apply suffix_length in Hrev as Hlen.
    rewrite !length_take_le in Hlen by lia.
    assert (k = pi P x) as -> by lia. done.
Qed.

(** The transition of the string-matching automaton on a symbol that does
    not extend the prefix read so far is the transition of its border. *)
Lemma sigma_mismatch x a :
  1 <= x -> x <= length P -> P !! x <> Some a ->
  sigma P (take x P ++ [a]) = sigma P (take (pi P x) P ++ [a]).
Proof.
  intros Hx Hn Hne. apply sigma_ext. intros [|k].
  { split; intros _; apply ends_0. }
  rewrite !ends_snoc, (ends_pi x k Hx Hn). split; [| tauto].
  intros [He Hk]. split; [| done]. split; [| done].
  pose proof (ends_length _ _ He) as Hlen.
  rewrite length_take_le in Hlen by lia.
  destruct (decide (k = x)) as [-> | ?]; [congruence | lia].
Qed.

Lemma sigma_match x a : P !! x = Some a -> sigma P (take x P ++ [a]) = S x.
Proof.
  intros Ha. pose proof (lookup_lt_Some _ _ _ Ha). apply sigma_unique.
  - split; [lia |]. by rewrite (take_S_r _ _ _ Ha).
  - intros k Hk%ends_length. rewrite length_app, length_take_le in Hk by lia.
    cbn in Hk. lia.
Qed.

Lemma sigma_root a : P !! 0 <> Some a -> sigma P (take 0 P ++ [a]) = 0.
Proof.
  intros Hne. apply sigma_unique; [apply ends_0 |].
  intros [|k]; [lia |]. rewrite take_0. cbn [app].
  change [a] with ([] ++ [a]). rewrite ends_snoc. intros [He Hk].
  apply ends_length in He. cbn in He. assert (k = 0) as -> by lia. done.
Qed.

(** The prefix function of the next prefix is a transition of the automaton
    from the border of this one. *)
Lemma pi_succ x c :
  1 <= x -> P !! x = Some c ->
  pi P (S x) = sigma P (take (pi P x) P ++ [c]).
Proof.
  intros Hx Hc. pose proof (lookup_lt_Some _ _ _ Hc) as Hn.
  pose proof (pi_lt x Hx) as Hlt.
  set (m := sigma P (take (pi P x) P ++ [c])).
  assert (Hm : ends P (take (pi P x) P ++ [c]) m) by apply sigma_ends.
  assert (Hstep : forall k, ends P (take (pi P x) P ++ [c]) k <->
                            k < S x /\ ends P (take x P ++ [c]) k).
  { intros [|k].
    - split; [intros _; split; [lia | apply ends_0] | intros _; apply ends_0].
    - rewrite !ends_snoc, (ends_pi x k) by lia. split.
      + intros [[? ?] ?]. split; [lia | done].
      + intros [? [? ?]]. split; [split; [lia | done] | done]. }
  apply pi_unique; [lia | lia | | |].
  - by apply Hstep in Hm as [? _].
  - rewrite (take_S_r _ _ _ Hc). by apply Hstep in Hm as [_ ?].
  - intros k Hk He. rewrite (take_S_r _ _ _ Hc) in He.
    apply sigma_max, Hstep. done.
Qed.

Lemma pi_1 : pi P 1 = 0.
Proof. reflexivity. Qed.
End Borders.

Local Close Scope nat_scope.

(** ** The single-pattern builder computes the prefix function *)

Lemma list_getitem_lookup {A} (l : list A) (i : nat) (x : A) :
  l !! i = Some x -> list_getitem l (Z.of_nat i) = Ok x.
Proof.
  intros H. pose proof (lookup_lt_Some _ _ _ H). unfold list_getitem.
  cbv zeta.
  assert (E1 : (0 <=? Z.of_nat i) = true) by lia.
  assert (E2 : (Z.of_nat i <? Z.of_nat (length l)) = true) by lia.
  rewrite !E1, E2. cbn [andb]. by rewrite Nat2Z.id, H.
Qed.

Lemma list_getitem_Ok_nonneg {A} (l : list A) (i : Z) (x : A) :
  0 <= i -> list_getitem l i = Ok x -> l !! Z.to_nat i = Some x.
Proof.
  intros Hi. unfold list_getitem. cbv zeta.
  assert (E1 : (0 <=? i) = true) by lia. rewrite !E1.
  destruct (_ && _); [| discriminate].
  destruct (l !! Z.to_nat i); [by intros [= ->] | discriminate].
Qed.

Lemma list_setitem_Ok_nonneg {A} (l l' : list A) (i : Z) (x : A) :
  0 <= i -> list_setitem l i x = Ok l' ->
  l' = <[Z.to_nat i := x]> l /\ (Z.to_nat i < length l)%nat.
Proof.
  intros Hi. unfold list_setitem. cbv zeta.
  assert (E1 : (0 <=? i) = true) by lia. rewrite !E1.
  destruct (i <? Z.of_nat (length l)) eqn:E2; cbn; [| discriminate].
  intros [= <-]. split; [done | lia].
Qed.

Lemma kmp_inv_added al P d f a t d' :
  kmp_inv al P d -> wf d' -> added d f a t d' -> t = kmp_delta P f a ->
  kmp_inv al P d'.
Proof.
  intros [Hwf Hst Hal Hsym Hch Hex] Hwf' Hadd Ht.
  pose proof (added_ext _ _ _ _ _ Hadd) as He. constructor.
  - done.
  - by rewrite (ext_states _ _ He).
  - by rewrite (ext_alphabets _ _ He).
  - done.
  - intros i c Hc. by apply (ext_delta _ _ He), Hch.
  - intros i b t' Hd. destruct (decide ((i, b) = (f, a))) as [[= -> ->] | Hne].
    + rewrite (added_here _ _ _ _ _ Hadd) in Hd. congruence.
    + rewrite (added_other _ _ _ _ _ Hadd _ _ Hne) in Hd. by apply Hex.
Qed.

Lemma kmp_delta_match P j c :
  P !! j = Some c -> kmp_delta P (Z.of_nat j) c = Z.of_nat (S j).
Proof.
  intros H. unfold kmp_delta. by rewrite Nat2Z.id, (sigma_match P j c H).
Qed.

(** The chain of success edges, and nothing else, after the first loop of
    [_initialize_dfa]. *)
Lemma KMP_chain_exact al P :
  forall rest pre d d' i',
    P = pre ++ rest ->
    wf d -> states d = Some (Z.of_nat (length pre)) -> alphabets d = al ->
    (forall i a t, delta d i a = Some t ->
       exists j, i = Z.of_nat j /\ P !! j = Some a /\ t = Z.of_nat (S j)) ->
    (forall j c, (j < length pre)%nat -> P !! j = Some c ->
       delta d (Z.of_nat j) c = Some (Z.of_nat (S j)) /\ c ∈ al) ->
    for_each rest (KMPMatcher.add_chain_state (Z.of_nat (length P)))
      (d, Z.of_nat (length pre)) = Ok (d', i') ->
    wf d' /\ states d' = Some (Z.of_nat (length P)) /\ alphabets d' = al /\
    (forall i a t, delta d' i a = Some t ->
       exists j, i = Z.of_nat j /\ P !! j = Some a /\ t = Z.of_nat (S j)) /\
    (forall j c, P !! j = Some c ->
       delta d' (Z.of_nat j) c = Some (Z.of_nat (S j)) /\ c ∈ al).
Proof.
  induction rest as [|sym rest IH];
    intros pre d d' i' HP Hwf Hst Hal Honly Hch; cbn [for_each].
  { intros [= <- <-]. rewrite app_nil_r in HP. subst pre.
    split; [done |]. split; [done |]. split; [done |]. split; [done |].
    intros j c Hc. apply Hch; [| done]. by apply lookup_lt_Some in Hc. }
  intros H. apply bind_Ok in H as ([d2 i2] & Hbody & Hrest).
  unfold KMPMatcher.add_chain_state in Hbody.
  apply bind_Ok in Hbody as (d1 & H1 & Hbody).
  apply bind_Ok in Hbody as (d2' & H2 & Hbody). injection Hbody as <- <-.
  assert (Hk : P !! length pre = Some sym).
  { rewrite HP. by rewrite list_lookup_middle. }
  pose proof (lookup_lt_Some _ _ _ Hk) as Hlt.
  apply commit__Ok in H1 as (s & Halloc%add_state_Ok).
  pose proof (alloc_state _ _ _ _ Halloc) as Hs. rewrite Hst in Hs. subst s.
  assert (Hwf1 : wf d1).
  { eapply allocated_wf; [| exact Halloc | exact Hwf].
    intros ? ?. simplify_eq. lia. }
  destruct (Z.of_nat (length pre) <? Z.of_nat (length P)) eqn:E; [| lia].
  apply commit__Ok in H2 as (u & H2).
  apply add_transition_Ok in H2 as [Hwf2 Hadd]; [| done].
  pose proof (added_ext _ _ _ _ _ Hadd) as He.
  replace (Z.of_nat (length pre) + 1) with (Z.of_nat (length (pre ++ [sym])))
    in * by (rewrite length_app; cbn; lia).
  eapply (IH (pre ++ [sym])) in Hrest; eauto.
  - by rewrite <- app_assoc.
  - by rewrite (ext_states _ _ He), (alloc_states _ _ _ _ Halloc).
  - by rewrite (ext_alphabets _ _ He), (alloc_alphabets _ _ _ _ Halloc).
  - intros i a t Hd.
    destruct (decide ((i, a) = (Z.of_nat (length pre), sym))) as [[= -> ->] | Hne].
    + rewrite (added_here _ _ _ _ _ Hadd) in Hd. injection Hd as <-.
      exists (length pre). split; [done |]. split; [done |].
      rewrite length_app. cbn. lia.
    + rewrite (added_other _ _ _ _ _ Hadd _ _ Hne) in Hd.
      rewrite (allocated_delta _ _ _ _ _ _ Halloc) in Hd. by apply Honly.
  - intros j c Hj Hc. rewrite length_app in Hj. cbn in Hj.
    destruct (decide (j = length pre)) as [-> | Hne].
    + assert (c = sym) as -> by congruence. split.
      * rewrite (added_here _ _ _ _ _ Hadd). f_equal.
        rewrite length_app. cbn. lia.
      * rewrite <- Hal, <- (alloc_alphabets _ _ _ _ Halloc).
        apply (added_symbol _ _ _ _ _ Hadd).
    + destruct (Hch j c) as [Hd ?]; [lia | done |]. split; [| done].
      apply (ext_delta _ _ He).
      by rewrite (allocated_delta _ _ _ _ _ _ Halloc).
Qed.

Lemma KMP_add_root_loop_exact al P d a d' :
  kmp_inv al P d -> KMPMatcher.add_root_loop d a = Ok d' ->
  kmp_inv al P d' /\ ext d d' /\ is_Some (delta d' 0 a).
Proof.
  intros HK H. pose proof (kmp_wf _ _ _ HK) as Hwf.
  destruct (KMP_add_root_loop _ _ _ Hwf H) as (Hwf' & He & HS).
  split; [| done].
  unfold KMPMatcher.add_root_loop in H. rewrite transition_delta in H.
  cbn [mbind result_bind] in H.
  destruct (negb (truthy (delta d 0 a))); [| by injection H as <-].
  apply commit__Ok in H as (u & H).
  apply add_transition_Ok in H as [_ Hadd]; [| done].
  eapply kmp_inv_added; eauto.
  unfold kmp_delta. change (Z.to_nat 0) with 0%nat.
  rewrite sigma_root; [done |]. intros HP.
  pose proof (kmp_chain _ _ _ HK 0%nat a HP) as Hd.
  change (Z.of_nat 0) with 0 in Hd.
  rewrite (added_fresh _ _ _ _ _ Hadd) in Hd. discriminate.
Qed.

Lemma KMP_initialize_dfa_exact al P d :
  KMPMatcher._initialize_dfa true al P = Ok d ->
  kmp_inv al P d /\ rows_upto al 0 d.
Proof.
  unfold KMPMatcher._initialize_dfa. intros H.
  apply bind_Ok in H as (d0 & H0 & H).
  apply bind_Ok in H as ([d1 i1] & H1 & H).
  apply commit__Ok in H0 as (s & Hadd%add_state_Ok).
  pose proof (alloc_state _ _ _ _ Hadd) as Hs. cbn in Hs. subst s.
  assert (Hwf0 : wf d0).
  { eapply allocated_wf; [| exact Hadd | apply wf_empty]. intros ? [=]. }
  assert (Hnone : forall i a, delta d0 i a = None).
  { intros i a. rewrite (allocated_delta _ _ _ _ _ _ Hadd).
    unfold delta. cbn. by rewrite lookup_empty. }
  apply (KMP_chain_exact al P P []) in H1
    as (Hwf1 & Hst1 & Hal1 & Honly & Hch); [| done | done | | | |].
  - assert (HK : kmp_inv al P d1).
    { constructor; try done.
      + intros i c Hc. by apply Hch in Hc as [_ ?].
      + intros i c Hc. by apply Hch in Hc as [? _].
      + intros i a t (j & -> & Hj & ->)%Honly. by rewrite kmp_delta_match. }
    apply (for_each_post (kmp_inv al P) ext
             (fun d a => is_Some (delta d 0 a))) in H
      as (HK' & He & Hrow); [| apply _ | apply _ | | | done].
    + split; [done |]. intros i a Hi Ha. assert (i = 0) as -> by lia. auto.
    + intros d2 a d2' HK2 _ Hbody. by eapply KMP_add_root_loop_exact.
    + intros d2 d2' a ? ?. by eapply is_Some_delta_ext.
  - apply (alloc_states _ _ _ _ Hadd).
  - by rewrite (alloc_alphabets _ _ _ _ Hadd).
  - intros i a t. by rewrite Hnone.
  - intros j c Hj. cbn in Hj. lia.
Qed.

Lemma rows_upto_ext al j d d' : ext d d' -> rows_upto al j d -> rows_upto al j d'.
Proof. intros He H i a Hi Ha. eapply is_Some_delta_ext; eauto. Qed.

(** Completing one entry of the row of [x] from the row of its border. *)
Lemma KMP_add_failure_edge_exact al P ff (x : nat) d a d' :
  (1 <= x <= length P)%nat ->
  kmp_inv al P d -> rows_upto al (Z.of_nat x - 1) d ->
  ff !! (x - 1)%nat = Some (Z.of_nat (pi P x)) -> a ∈ al ->
  KMPMatcher.add_failure_edge ff (Z.of_nat x) d a = Ok d' ->
  kmp_inv al P d' /\ ext d d' /\ is_Some (delta d' (Z.of_nat x) a).
Proof.
  intros Hx HK Hrows Hff Ha H. pose proof (kmp_wf _ _ _ HK) as Hwf.
  destruct (KMP_add_failure_edge _ _ _ _ _ Hwf H) as (Hwf' & He & HS).
  split; [| done].
  unfold KMPMatcher.add_failure_edge in H. rewrite has_transition_delta in H.
  cbn [mbind result_bind] in H.
  destruct (delta d (Z.of_nat x) a) as [t0|] eqn:Hd; cbn [negb] in H.
  { by injection H as <-. }
  replace (Z.of_nat x - 1) with (Z.of_nat (x - 1)) in H by lia.
  rewrite (list_getitem_lookup _ _ _ Hff) in H. cbn [mbind result_bind] in H.
  rewrite transition_delta in H. cbn [mbind result_bind] in H.
  pose proof (pi_lt P x ltac:(lia)) as Hlt.
  destruct (Hrows (Z.of_nat (pi P x)) a ltac:(lia) Ha) as [t Ht].
  rewrite Ht in H. cbn [or0] in H.
  apply commit__Ok in H as (u & H).
  apply add_transition_Ok in H as [_ Hadd]; [| done].
  eapply kmp_inv_added; eauto.
  rewrite (kmp_exact _ _ _ HK _ _ _ Ht). unfold kmp_delta.
  rewrite !Nat2Z.id. f_equal. symmetry. apply sigma_mismatch; [lia | lia |].
  intros HP. rewrite (kmp_chain _ _ _ HK _ _ HP) in Hd. discriminate.
Qed.

(** One pass of the loop of the constructor. *)
Lemma KMP_init_index_exact al P (x : nat) d ff d' ff' :
  (1 <= x <= length P)%nat ->
  kmp_inv al P d -> rows_upto al (Z.of_nat x - 1) d ->
  ff_upto P (Z.of_nat x - 1) ff ->
  KMPMatcher.init_index true al P (d, ff) (Z.of_nat x) = Ok (d', ff') ->
  kmp_inv al P d' /\ rows_upto al (Z.of_nat x) d' /\
  ff_upto P (Z.of_nat x) ff'.
Proof.
  intros Hx HK Hrows [Hlen Hff] H. unfold KMPMatcher.init_index in H.
  apply bind_Ok in H as (d1 & H1 & H).
  assert (Hffx : ff !! (x - 1)%nat = Some (Z.of_nat (pi P x))).
  { apply Hff; lia. }
  apply (for_each_post
           (fun d => kmp_inv al P d /\ rows_upto al (Z.of_nat x - 1) d) ext
           (fun d a => is_Some (delta d (Z.of_nat x) a))) in H1
    as ([HK1 Hrows1] & He1 & Hrow); [| apply _ | apply _ | | | done].
  2:{ intros d0 a d0' [HK0 Hr0] Ha Hbody.
      destruct (KMP_add_failure_edge_exact al P ff x d0 a d0')
        as (? & ? & ?); auto.
      split; [split; [done | by eapply rows_upto_ext] | done]. }
  2:{ intros d0 d0' a ? ?. by eapply is_Some_delta_ext. }
  assert (Hrows' : rows_upto al (Z.of_nat x) d1).
  { intros i a Hi Ha. destruct (decide (i = Z.of_nat x)) as [-> | ?]; [auto |].
    apply Hrows1; [lia | done]. }
  destruct (Z.of_nat x <? Z.of_nat (length P)) eqn:E.
  - replace (Z.of_nat x - 1) with (Z.of_nat (x - 1)) in H by lia.
    rewrite (list_getitem_lookup _ _ _ Hffx) in H.
    cbn [mbind result_bind] in H.
    apply bind_Ok in H as (sym & Hsym & H).
    apply list_getitem_Ok_nonneg in Hsym; [| lia]. rewrite Nat2Z.id in Hsym.
    rewrite transition_delta in H. cbn [mbind result_bind] in H.
    apply bind_Ok in H as (ff1 & Hset & H). injection H as <- <-.
    apply list_setitem_Ok_nonneg in Hset as [-> Hlt]; [| lia].
    rewrite Nat2Z.id in *.
    pose proof (pi_lt P x ltac:(lia)) as Hpi.
    destruct (Hrows1 (Z.of_nat (pi P x)) sym ltac:(lia)) as [t Ht].
    { by eapply (kmp_symbols _ _ _ HK1). }
    rewrite Ht. cbn [or0].
    rewrite (kmp_exact _ _ _ HK1 _ _ _ Ht). unfold kmp_delta.
    rewrite Nat2Z.id, <- (pi_succ P x sym) by (done || lia).
    split; [done |]. split; [done |]. split; [by rewrite length_insert |].
    intros i Hi1 Hi2 Hi3. destruct (decide (i = S x)) as [-> | Hne].
    + replace (S x - 1)%nat with x by lia. by rewrite list_lookup_insert_eq.
    + rewrite list_lookup_insert_ne by lia. apply Hff; lia.
  - injection H as <- <-. split; [done |]. split; [done |].
    split; [done |]. intros i Hi1 Hi2 Hi3. apply Hff; lia.
Qed.

Lemma KMP_init_loop_exact al P :
  forall (len x : nat) d ff d' ff',
    (1 <= x)%nat -> (x - 1 + len = length P)%nat ->
    kmp_inv al P d -> rows_upto al (Z.of_nat x - 1) d ->
    ff_upto P (Z.of_nat x - 1) ff ->
    for_each (seqZ (Z.of_nat x) (Z.of_nat len))
      (KMPMatcher.init_index true al P) (d, ff) = Ok (d', ff') ->
    kmp_inv al P d' /\ rows_upto al (Z.of_nat (length P)) d' /\
    ff_upto P (Z.of_nat (length P)) ff'.
Proof.
  induction len as [|len IH]; intros x d ff d' ff' Hx Hlen HK Hrows Hff.
  { cbn. intros [= <- <-]. replace (Z.of_nat (length P)) with (Z.of_nat x - 1)
      by lia. done. }
  rewrite seqZ_cons by lia. cbn [for_each]. intros H.
  apply bind_Ok in H as ([d1 ff1] & Hbody & Hrest).
  apply KMP_init_index_exact in Hbody as (HK1 & Hrows1 & Hff1);
    [| lia | done | done | done].
  replace (Z.succ (Z.of_nat x)) with (Z.of_nat (S x)) in Hrest by lia.
  replace (Z.pred (Z.of_nat (S len))) with (Z.of_nat len) in Hrest by lia.
  apply (IH (S x)) in Hrest; [done | lia | lia | done | |].
  - by replace (Z.of_nat (S x) - 1) with (Z.of_nat x) by lia.
  - by replace (Z.of_nat (S x) - 1) with (Z.of_nat x) by lia.
Qed.

(** With precomputation the constructor stores the prefix function, and the
    automaton is the string-matching automaton of the pattern. *)
Lemma KMP_precomputed_exact al P m :
  KMPMatcher.__init__ al P true = Ok m ->
  (forall i : nat, (1 <= i <= length P)%nat ->
     KMPMatcher.fail_functions m !! (i - 1)%nat
     = Some (prefix_function_spec P i)) /\
  (forall i a, 0 <= i <= Z.of_nat (length P) -> a ∈ al ->
     delta (KMPMatcher.dfa m) i a = Some (kmp_delta P i a)).
Proof.
  unfold KMPMatcher.__init__. destruct P as [|c P']; [discriminate |].
  set (P := c :: P'). intros H.
  apply bind_Ok in H as (d & Hd & H).
  apply bind_Ok in H as ([d' ff] & Hloop & H). injection H as <-.
  cbn [KMPMatcher.fail_functions KMPMatcher.dfa].
  apply KMP_initialize_dfa_exact in Hd as [HK Hrows].
  apply (KMP_init_loop_exact al P (length P) 1) in Hloop
    as (HK' & Hrows' & [_ Hff]); [| lia | lia | done | done |].
  - split.
    + intros i Hi. apply Hff; lia.
    + intros i a Hi Ha. destruct (Hrows' i a Hi Ha) as [t Ht].
      by rewrite Ht, (kmp_exact _ _ _ HK' _ _ _ Ht).
  - split; [by rewrite length_replicate |].
    intros i Hi1 Hi2 Hi3. assert (i = 1%nat) as -> by lia. done.
Qed.

(** ** Automata made through the interface *)

Lemma row_set_nonempty {V} (r : list (ascii * V)) a v : row_set r a v <> [].
Proof. destruct r as [|[b w] r]; cbn; [done |]. by case_bool_decide. Qed.

Lemma add_transition_rows_nonempty d f a t ty :
  rows_nonempty d -> rows_nonempty (DFA.add_transition d f a t ty).1.
Proof.
  intros Hd. unfold DFA.add_transition.
  destruct (states d) as [n|]; [| done].
  destruct ((f <? 0) || (n <? f)); [done |].
  destruct ((t <? 0) || (n <? t)); [done |].
  case_bool_decide as Ha; cbn [negb]; [| done].
  assert (Hins : forall (T : gmap Z (list (ascii * Z))) row,
             (forall s r, T !! s = Some r -> s <> f -> r <> []) ->
             forall s r, <[f := row_set row a t]> T !! s = Some r -> r <> []).
  { intros T row HT s r. destruct (decide (s = f)) as [-> | Hne].
    - rewrite lookup_insert_eq. intros [= <-]. apply row_set_nonempty.
    - rewrite lookup_insert_ne by done. intros H. by eapply HT. }
  case_bool_decide as Hdom.
  - destruct (transitions d !! f) as [row|] eqn:Hrow; [| done].
    destruct (row_mem row a); [done |]. cbn.
    destruct (transition_types d !! f); cbn; intros s r; apply Hins;
      intros s' r' H _; by eapply Hd.
  - cbn. rewrite lookup_insert_eq. cbn. rewrite lookup_insert_eq. cbn.
    intros s r. apply (Hins _ []). intros s' r' H Hne.
    rewrite lookup_insert_ne in H by done. by eapply Hd.
Qed.

Lemma Built_rows_nonempty d : Built d -> rows_nonempty d.
Proof.
  induction 1 as [al | d acc ini _ IH | d f a t ty _ IH | d s _ IH | d s b _ IH].
  - intros s row H. cbn in H. by rewrite lookup_empty in H.
  - unfold DFA.add_state. destruct (ini && _); [exact IH |].
    destruct ini, acc; exact IH.
  - by apply add_transition_rows_nonempty.
  - unfold DFA.add_accepting. destruct (negb _); [exact IH |].
    destruct (DFA.out_of_range d s); exact IH.
  - unfold DFA.set_accepting. destruct b; [exact IH |].
    case_bool_decide; exact IH.
Qed.

(** On such an automaton the two readings of "no outgoing transition" agree:
    the initial state has no row exactly when no symbol has a target. *)
Lemma bfs_traverse_built_without_edges d s0 :
  Built d -> initial_state d = Some s0 ->
  (forall a, delta d s0 a = None) ->
  DFA.bfs_traverse d = Raise KeyError.
Proof.
  intros Hb Hi Hnone. unfold DFA.bfs_traverse, dict_getitem. rewrite Hi.
  destruct (transitions d !! s0) as [row|] eqn:Hrow; [| done].
  destruct row as [|[a t] row].
  { by destruct (Built_rows_nonempty d Hb s0 [] Hrow). }
  specialize (Hnone a). unfold delta in Hnone. rewrite Hrow in Hnone.
  cbn in Hnone. by rewrite bool_decide_eq_true_2 in Hnone.
Qed.

(** ** Iteration orders of a concrete alphabet *)

Lemma set_order_permutations (xs : str) (alphabet_set : list ascii) :
  set_order xs alphabet_set -> alphabet_set ∈ permutations (remove_dups xs).
Proof.
  intros [Hnd Hin]. apply permutations_Permutation.
  apply NoDup_Permutation; [apply NoDup_remove_dups | exact Hnd |].
  intros a. rewrite elem_of_remove_dups. symmetry. apply Hin.
Qed.

Lemma set_order_remove_dups (xs : str) : set_order xs (remove_dups xs).
Proof.
  split; [apply NoDup_remove_dups | intros a; apply elem_of_remove_dups].
Qed.

(** ** The automaton *)

Example add_state_counts :
  (DFA.add_state (DFA.__init__ []) false false).2 = Ok 0.
Proof. reflexivity. Qed.

(** C9: [DFA.transition] never raises. For every automaton, every integer
    state (negative and out-of-range ones included) and every symbol (in the
    alphabet or not) it returns the target recorded for the pair, or [None]
    when there is none. *)
Theorem transition_never_raises (d : DFA) (current_state : Z) (symbol : ascii) :
  DFA.transition d current_state symbol
  = Ok (match transitions d !! current_state with
        | Some row => row_get row symbol
        | None => None
        end).
Proof.
  unfold DFA.transition, dict_getitem.
  destruct (transitions d !! current_state) as [row|] eqn:Hrow.
  - rewrite bool_decide_eq_true_2; [reflexivity |].
    apply elem_of_dom. exists row. exact Hrow.
  - rewrite bool_decide_eq_false_2; [reflexivity |].
    intros [row Hrow']%elem_of_dom. congruence.
Qed.

(** By contrast [is_accepting_state] raises on the same out-of-range
    arguments. *)
Lemma is_accepting_state_out_of_range (d : DFA) (s : Z) :
  DFA.out_of_range d s = true ->
  DFA.is_accepting_state d s = Raise (ValueError "State does not exist").
Proof. unfold DFA.is_accepting_state. intros ->. reflexivity. Qed.

(** C10, as amended: [bfs_traverse] raises a [ValueError] when no initial
    state is set, and raises on its first step (a [KeyError]) when the initial
    state is set and the transition table has no row for it; every automaton
    made with the methods of [DFA] whose initial state has no outgoing
    transition is in that case. When the initial state has a row the
    traversal returns without raising, and on an empty row it yields the
    empty sequence. *)
Theorem bfs_traverse_raises_without_root_row (d : DFA) :
  (initial_state d = None ->
   DFA.bfs_traverse d = Raise (ValueError "DFA has no initial state")) /\
  (forall s0, initial_state d = Some s0 ->
     (transitions d !! s0 = None -> DFA.bfs_traverse d = Raise KeyError) /\
     (Built d -> (forall a, DFA.transition d s0 a = Ok None) ->
      DFA.bfs_traverse d = Raise KeyError) /\
     (is_Some (transitions d !! s0) ->
      exists edges, DFA.bfs_traverse d = Ok edges) /\
     (transitions d !! s0 = Some [] -> DFA.bfs_traverse d = Ok [])).
Proof.
  split.
  { unfold DFA.bfs_traverse. intros ->. reflexivity. }
  intros s0 Hs0. split; [| split; [| split]].
  - unfold DFA.bfs_traverse, dict_getitem. rewrite Hs0. intros ->. reflexivity.
  - intros HB Hnone. apply (bfs_traverse_built_without_edges d s0 HB Hs0).
    intros a. specialize (Hnone a). rewrite transition_delta in Hnone.
    congruence.
  - intros [row Hrow]. pose proof (bfs_traverse_returns d) as Hret.
    revert Hret. unfold DFA.bfs_traverse, dict_getitem. rewrite Hs0, Hrow.
    cbn [mbind result_bind].
    match goal with
    | |- context [DFA.bfs_loop ?f ?d0 ?q ?v] =>
        destruct (DFA.bfs_loop f d0 q v) as [edges|]
    end; [eauto | done].
  - unfold DFA.bfs_traverse, dict_getitem. rewrite Hs0. intros ->. reflexivity.
Qed.

(** States allocated, no edge added: the traversal raises. *)
Lemma bfs_traverse_raises_without_root_row_witness :
  let d := (DFA.add_state
              (DFA.add_state (DFA.__init__ (lit "ab")) false true).1
              false false).1 in
  initial_state d = Some 0 /\
  DFA.bfs_traverse d = Raise KeyError /\
  DFA.bfs_traverse (DFA.__init__ (lit "ab"))
  = Raise (ValueError "DFA has no initial state").
Proof.
  intros d. split; [reflexivity |]. split.
  - apply (proj2 (bfs_traverse_raises_without_root_row d) 0 eq_refl).
    + apply Built_add_state, Built_add_state, Built_init.
    + intros a. reflexivity.
  - apply (proj1 (bfs_traverse_raises_without_root_row
                    (DFA.__init__ (lit "ab")))).
    reflexivity.
Defined.

(** The automaton [from_dict] restores from a record whose initial state has
    an empty row: the initial state is set, no transition is recorded, and
    the traversal yields the empty sequence without raising. *)
Lemma bfs_traverse_empty_root_row :
  let d := {| states := Some 0; alphabets := lit "ab";
              transitions := {[ 0 := [] ]};
              transition_types := {[ 0 := [] ]};
              initial_state := Some 0; accepting_states := ∅ |} in
  from_dict {| rec_states := Some 0; rec_alphabets := lit "ab";
               rec_transitions := [("0"%string, [])];
               rec_transition_types := [("0"%string, [])];
               rec_initial_state := Some 0;
               rec_accepting_states := [] |} = Ok d /\
  initial_state d = Some 0 /\
  transitions d !! 0 = Some [] /\
  (forall s a, DFA.transition d s a = Ok None) /\
  DFA.bfs_traverse d = Ok [].
Proof.
  intros d. split; [vm_compute; reflexivity |].
  split; [reflexivity |]. split; [reflexivity |]. split; [| reflexivity].
  intros s a. rewrite transition_delta. f_equal. unfold delta, d.
  cbn [transitions]. destruct (decide (s = 0)) as [-> | Hne].
  - by rewrite lookup_singleton_eq.
  - by rewrite lookup_singleton_ne.
Qed.

(** [add_state] does raise, and leaves the initial state alone, when the
    initial state already set is not state 0. *)
Lemma add_state_duplicate_initial_nonzero (d : DFA) (acc : bool) (s : Z) :
  initial_state d = Some s -> s <> 0 ->
  (DFA.add_state d acc true).2
  = Raise (ValueError "DFA already has an initial state") /\
  initial_state (DFA.add_state d acc true).1 = Some s.
Proof.
  intros Hs Hne. unfold DFA.add_state. cbn [DFA.set_states initial_state].
  rewrite Hs. cbn [truthy andb].
  destruct (s =? 0) eqn:E; [apply Z.eqb_eq in E; contradiction |].
  cbn. auto.
Qed.

(** C5 (fails on the code): with state 0 as the initial state, a second
    [add_state(is_initial=True)] returns the new state 1 and makes it the
    initial state; nothing is raised. [KMPMatcher._initialize_dfa] makes
    exactly these two calls. *)
Theorem add_state_second_initial_after_state_0 :
  let d0 := (DFA.add_state (DFA.__init__ (lit "abc")) false true).1 in
  initial_state d0 = Some 0 /\
  (DFA.add_state d0 false true).2 = Ok 1 /\
  initial_state (DFA.add_state d0 false true).1 = Some 1 /\
  (initial_state ∘ KMPMatcher.dfa) <$>
    KMPMatcher.__init__ (lit "ABC") (lit "ABC") true = Ok (Some 1).
Proof. vm_compute. auto. Qed.

(** ** Scenarios on concrete patterns *)

(** Analysis of a hypothesis [alphabet_set ∈ permutations ...]. *)
Ltac order_cases H :=
  vm_compute in H;
  repeat (apply elem_of_cons in H as [-> | H]);
  [ .. | apply elem_of_nil in H; destruct H ].

(** A property of every member of a concrete list of iteration orders. *)
Ltac each_order :=
  let H := fresh "Hin" in
  apply Forall_forall; intros ? H; order_cases H.

(** C7: patterns ["ABBAB", "BABBA"] over the text "ABABBABBBA" yield exactly
    [(1, "BABBA"), (2, "ABBAB")], in both construction modes, whatever the
    order in which the alphabet set is iterated. *)
Theorem overlap_scenario (alphabet_set : list ascii)
    (compute_transitions : bool) (fuel : nat) :
  set_order (alphabet_set_from_alphabets None [lit "ABBAB"; lit "BABBA"])
    alphabet_set ->
  (1 <= fuel)%nat ->
  ac_run fuel alphabet_set [lit "ABBAB"; lit "BABBA"] compute_transitions
    (lit "ABABBABBBA")
  = Ok ([(1, lit "BABBA"); (2, lit "ABBAB")], Ok tt).
Proof.
  intros Hord Hfuel. apply set_order_permutations in Hord.
  destruct fuel as [|fuel]; [lia |].
  order_cases Hord; destruct compute_transitions; vm_compute; reflexivity.
Qed.

Lemma overlap_scenario_witness :
  ac_run 1 (lit "BA") [lit "ABBAB"; lit "BABBA"] true (lit "ABABBABBBA")
  = Ok ([(1, lit "BABBA"); (2, lit "ABBAB")], Ok tt) /\
  ac_run 1 (lit "BA") [lit "ABBAB"; lit "BABBA"] false (lit "ABABBABBBA")
  = Ok ([(1, lit "BABBA"); (2, lit "ABBAB")], Ok tt).
Proof.
  split.
  - apply (overlap_scenario (lit "BA") true 1);
      [exact (set_order_remove_dups (lit "ABBABBABBA")) | lia].
  - apply (overlap_scenario (lit "BA") false 1);
      [exact (set_order_remove_dups (lit "ABBABBABBA")) | lia].
Defined.

(** C1 (fails on the code): the two modes disagree.
    - single pattern "ABAA", text "ABAABAA": the precomputed automaton reports
      the occurrences at 0 and 3, the on-the-fly walk only the one at 0;
    - patterns ["AB", "C"], text "AC": the on-the-fly walk reports "C" at 1,
      the precomputed automaton reports nothing.
    Both for every iteration order of the alphabet set and every bound of at
    least two passes on the fail-function loop. *)
Theorem modes_disagree :
  Forall (fun alphabet_set => forall fuel,
    kmp_run (S (S fuel)) alphabet_set (lit "ABAA") true (lit "ABAABAA")
    = Ok ([(0, lit "ABAA"); (3, lit "ABAA")], Ok tt) /\
    kmp_run (S (S fuel)) alphabet_set (lit "ABAA") false (lit "ABAABAA")
    = Ok ([(0, lit "ABAA")], Ok tt))
    (permutations (remove_dups (KMPMatcher.alphabet_source None (lit "ABAA")))) /\
  Forall (fun alphabet_set => forall fuel,
    ac_run (S (S fuel)) alphabet_set [lit "AB"; lit "C"] true (lit "AC")
    = Ok ([], Ok tt) /\
    ac_run (S (S fuel)) alphabet_set [lit "AB"; lit "C"] false (lit "AC")
    = Ok ([(1, lit "C")], Ok tt))
    (permutations
       (remove_dups (alphabet_set_from_alphabets None [lit "AB"; lit "C"]))).
Proof.
  split; each_order; intros fuel; vm_compute; auto.
Qed.

(** The on-the-fly walk may also fail to return: pattern "AAAB", text "AAB".
    In state 2 on 'B' the loop reads [fail_functions[1] = 1] and assigns it to
    its own index for ever. The precomputed automaton reports no match. *)
Lemma follow_fail_stuck (fuel : nat) (d : DFA) (ff : list Z) (sym : ascii)
    (ffi : Z) :
  0 < ffi -> list_getitem ff ffi = Ok ffi ->
  DFA.transition d ffi sym = Ok None ->
  follow_fail fuel d ff sym ffi = Diverge.
Proof.
  intros Hpos Hget Htr. induction fuel as [|fuel IH]; [reflexivity |].
  cbn [follow_fail]. rewrite Hget. cbn [mbind result_bind].
  rewrite Htr. cbn [mbind result_bind or0].
  change (0 =? 0) with true. cbn [andb].
  destruct (ffi >? 0) eqn:E; [exact IH | lia].
Qed.

Lemma lazy_search_diverges (fuel : nat) :
  kmp_run fuel (lit "AB") (lit "AAAB") true (lit "AAB") = Ok ([], Ok tt) /\
  kmp_run fuel (lit "AB") (lit "AAAB") false (lit "AAB") = Ok ([], Diverge).
Proof.
  split; [vm_compute; reflexivity |]. unfold kmp_run.
  assert (exists m, KMPMatcher.__init__ (lit "AB") (lit "AAAB") false = Ok m
                    /\ KMPMatcher.fail_functions m = [0; 1; 2; 0]
                    /\ KMPMatcher.compute_transitions m = false
                    /\ KMPMatcher.pattern m = Some (lit "AAAB")
                    /\ DFA.transition (KMPMatcher.dfa m) 0 "A" = Ok (Some 1)
                    /\ DFA.transition (KMPMatcher.dfa m) 1 "A" = Ok (Some 2)
                    /\ DFA.transition (KMPMatcher.dfa m) 2 "B" = Ok None
                    /\ DFA.transition (KMPMatcher.dfa m) 1 "B" = Ok None
                    /\ DFA.is_accepting_state (KMPMatcher.dfa m) 1 = Ok false
                    /\ DFA.is_accepting_state (KMPMatcher.dfa m) 2 = Ok false)
    as (m & -> & Hff & Hct & Hp & H0 & H1 & H2 & H1B & A1 & A2).
  { eexists. split; [vm_compute; reflexivity |]. vm_compute. tauto. }
  cbn [mbind result_bind]. unfold KMPMatcher.search. rewrite Hct, Hp.
  change (lit "AAB") with ["A"%char; "A"%char; "B"%char].
  cbn [KMPMatcher.search_lazy_transition]. unfold lazy_step at 1.
  rewrite H0, A1.
  cbn [KMPMatcher.search_lazy_transition]. unfold lazy_step at 1.
  rewrite H1, A2.
  cbn [KMPMatcher.search_lazy_transition]. unfold lazy_step at 1.
  rewrite H2. change (2 >? 0) with true. change (2 - 1) with 1.
  rewrite follow_fail_stuck; [reflexivity | lia | rewrite Hff; reflexivity | exact H1B].
Qed.

(** C2 (fails on the code): patterns ["ABC", "AB"]. Inserting "ABC" records
    [pattern[:j]] for the states it creates, so state 2 (reached by "AB")
    is mapped to "A"; inserting "AB" then marks state 2 accepting and leaves
    the map alone. Searching "AB" reports (1, "A"): "A" is not one of the
    patterns and does not occur at position 1. Both modes, every iteration
    order of the alphabet set. *)
Theorem pattern_map_of_marked_prefix_state :
  Forall (fun alphabet_set => forall compute_transitions : bool,
    (fun m => (AhoCorasickMatcher.pattern_map m !! 2,
               DFA.is_accepting_state (AhoCorasickMatcher.dfa m) 2)) <$>
      AhoCorasickMatcher.__init__ alphabet_set [lit "ABC"; lit "AB"]
        compute_transitions
    = Ok (Some (lit "A"), Ok true) /\
    forall fuel,
      ac_run (S fuel) alphabet_set [lit "ABC"; lit "AB"] compute_transitions
        (lit "AB")
      = Ok ([(1, lit "A")], Ok tt))
    (permutations
       (remove_dups (alphabet_set_from_alphabets None [lit "ABC"; lit "AB"])))
  /\ ~ occurs_at (lit "AB") (lit "A") 1
  /\ lit "A" ∉ [lit "ABC"; lit "AB"].
Proof.
  split; [| split].
  - each_order; intros [];
      (split; [vm_compute; reflexivity | intros fuel; vm_compute; reflexivity]).
  - intros [_ H]. vm_compute in H. discriminate.
  - intros H. repeat (apply elem_of_cons in H as [H | H]; [discriminate |]).
    apply elem_of_nil in H. exact H.
Qed.

(** C3 (fails on the code): pattern "ABAA" built without precomputation.
    The constructor stores [0, 0, 1, 0]; the prefix function of "ABAA" at 4
    is 1 ("A" is a border of "ABAA"). With precomputation the stored values
    are the prefix function, [0, 0, 1, 1], as they are for every pattern
    ([KMP_precomputed_exact]). *)
Theorem fail_functions_without_precomputation :
  Forall (fun alphabet_set =>
    KMPMatcher.fail_functions <$>
      KMPMatcher.__init__ alphabet_set (lit "ABAA") false
    = Ok [0; 0; 1; 0] /\
    KMPMatcher.fail_functions <$>
      KMPMatcher.__init__ alphabet_set (lit "ABAA") true
    = Ok [0; 0; 1; 1])
    (permutations (remove_dups (KMPMatcher.alphabet_source None (lit "ABAA")))) /\
  prefix_function_spec (lit "ABAA") <$> [1; 2; 3; 4]%nat = [0; 0; 1; 1].
Proof.
  split; [each_order; vm_compute; auto | vm_compute; reflexivity].
Qed.

(** C4 (fails on the code): pattern "ABC" saved and loaded again as a
    single-pattern record, text "ABCABC". The matcher that was built reports
    the occurrences at 0 and 3; the loaded matcher has no [pattern]
    attribute and its search raises at the first match (precomputed mode) or
    at once (on-the-fly mode). The multi-pattern record of the same pattern
    gives back the matches of the built matcher. *)
Theorem reloaded_kmp_matcher_has_no_pattern :
  forall (precompute : bool) (fuel : nat),
    kmp_run (S fuel) (lit "ABC") (lit "ABC") precompute (lit "ABCABC")
    = Ok ([(0, lit "ABC"); (3, lit "ABC")], Ok tt) /\
    reload_run (S fuel) (lit "ABC") [lit "ABC"] "kmp" precompute (lit "ABCABC")
    = Ok ([], Raise AttributeError) /\
    reload_run (S fuel) (lit "ABC") [lit "ABC"] "aho-corasick" precompute
      (lit "ABCABC")
    = Ok ([(0, lit "ABC"); (3, lit "ABC")], Ok tt).
Proof.
  intros [] fuel; vm_compute; auto.
Qed.

(** ** The general claims *)

(** C6: with precomputation requested, the automaton either constructor
    returns has a transition for every allocated state and every symbol of
    the alphabet, and the search of a text over the alphabet runs to its end
    without raising: in particular it never takes the branch that raises
    "Error in DFA definition". *)
Theorem precomputed_automaton_is_complete :
  (forall alphabet_set pattern m,
     KMPMatcher.__init__ alphabet_set pattern true = Ok m ->
     alphabets (KMPMatcher.dfa m) = alphabet_set /\
     (exists n, states (KMPMatcher.dfa m) = Some n /\
        forall s a, 0 <= s <= n -> a ∈ alphabet_set ->
          exists t, DFA.transition (KMPMatcher.dfa m) s a = Ok (Some t)) /\
     forall fuel s, Forall (fun c => c ∈ alphabet_set) s ->
       (KMPMatcher.search fuel m s).2.2 = Ok tt) /\
  (forall alphabet_set patterns m,
     AhoCorasickMatcher.__init__ alphabet_set patterns true = Ok m ->
     alphabets (AhoCorasickMatcher.dfa m) = alphabet_set /\
     (exists n, states (AhoCorasickMatcher.dfa m) = Some n /\
        forall s a, 0 <= s <= n -> a ∈ alphabet_set ->
          exists t, DFA.transition (AhoCorasickMatcher.dfa m) s a
                    = Ok (Some t)) /\
     forall fuel s, Forall (fun c => c ∈ alphabet_set) s ->
       (AhoCorasickMatcher.search fuel m s).2.2 = Ok tt).
Proof.
  split.
  - intros al P m Hm.
    apply KMP_init_spec in Hm as (Hwf & Hal & Hst & Hct & HP & Hc).
    specialize (Hc eq_refl). split; [done |]. split.
    + destruct Hc as (n & Hn & Hall). exists n. split; [done |].
      intros s a Hs Ha. rewrite transition_delta.
      destruct (Hall s a Hs) as [t ->]; [by rewrite Hal | eauto].
    + intros fuel s Hs. unfold KMPMatcher.search. rewrite Hct. cbn [snd].
      eapply (KMP_search_direct_safe m (Z.of_nat (length P))); eauto; [| lia].
      intros c Hin. rewrite Hal. by apply (proj1 (Forall_forall _ _) Hs).
  - intros al Ps m Hm.
    apply AC_init_spec in Hm
      as (Hwf & Hal & Hct & Hacc & Hcov & (n & Hn & Hpos) & Hc).
    specialize (Hc eq_refl). split; [done |]. split.
    + destruct Hc as (n' & Hn' & Hall). exists n'. split; [done |].
      intros s a Hs Ha. rewrite transition_delta.
      destruct (Hall s a Hs) as [t ->]; [by rewrite Hal | eauto].
    + intros fuel s Hs. unfold AhoCorasickMatcher.search. rewrite Hct.
      cbn [snd].
      eapply (AC_search_direct_safe m n); eauto; [| lia].
      intros c Hin. rewrite Hal. by apply (proj1 (Forall_forall _ _) Hs).
Qed.

Lemma precomputed_automaton_is_complete_witness :
  (exists m, KMPMatcher.__init__ (lit "ACGT") (lit "ACA") true = Ok m /\
     (KMPMatcher.search 0 m (lit "ACACAGGACAGT")).2.2 = Ok tt) /\
  (exists m, AhoCorasickMatcher.__init__ (lit "ABCX")
               [lit "ABC"; lit "AXXA"; lit "ABX"] true = Ok m /\
     (AhoCorasickMatcher.search 0 m (lit "XXXXABC")).2.2 = Ok tt).
Proof.
  split.
  - eexists. split; [vm_compute; reflexivity |].
    apply (proj1 precomputed_automaton_is_complete (lit "ACGT") (lit "ACA"));
      [vm_compute; reflexivity |].
    apply (bool_decide_unpack _). vm_compute. exact I.
  - eexists. split; [vm_compute; reflexivity |].
    apply (proj2 precomputed_automaton_is_complete (lit "ABCX")
             [lit "ABC"; lit "AXXA"; lit "ABX"]);
      [vm_compute; reflexivity |].
    apply (bool_decide_unpack _). vm_compute. exact I.
Defined.

(** C8: searching the same text a second time on the same matcher yields the
    same matches in the same order and ends the same way, for every matcher
    either constructor returns, in either mode: the FAILURE edges the first
    on-the-fly search cached are the transitions the second one takes. *)
Theorem second_search_yields_the_same :
  (forall alphabet_set pattern compute_transitions m fuel s,
     KMPMatcher.__init__ alphabet_set pattern compute_transitions = Ok m ->
     (KMPMatcher.search fuel (KMPMatcher.search fuel m s).1 s).2
     = (KMPMatcher.search fuel m s).2) /\
  (forall alphabet_set patterns compute_transitions m fuel s,
     AhoCorasickMatcher.__init__ alphabet_set patterns compute_transitions
     = Ok m ->
     (AhoCorasickMatcher.search fuel (AhoCorasickMatcher.search fuel m s).1 s).2
     = (AhoCorasickMatcher.search fuel m s).2).
Proof.
  split.
  - intros al P ct m fuel s Hm. apply KMP_search_again.
    by apply KMP_init_spec in Hm as (Hwf & _).
  - intros al Ps ct m fuel s Hm. apply AC_search_again.
    by apply AC_init_spec in Hm as (Hwf & _).
Qed.

Lemma second_search_yields_the_same_witness :
  (exists m, KMPMatcher.__init__ (lit "AB") (lit "ABAA") false = Ok m /\
     (KMPMatcher.search 2 (KMPMatcher.search 2 m (lit "ABAABAA")).1
        (lit "ABAABAA")).2
     = (KMPMatcher.search 2 m (lit "ABAABAA")).2) /\
  (exists m, AhoCorasickMatcher.__init__ (lit "ABC") [lit "AB"; lit "C"] false
             = Ok m /\
     (AhoCorasickMatcher.search 2
        (AhoCorasickMatcher.search 2 m (lit "ACAB")).1 (lit "ACAB")).2
     = (AhoCorasickMatcher.search 2 m (lit "ACAB")).2).
Proof.
  split.
  - eexists. split; [vm_compute; reflexivity |].
    apply (proj1 second_search_yields_the_same (lit "AB") (lit "ABAA") false).
    vm_compute; reflexivity.
  - eexists. split; [vm_compute; reflexivity |].
    apply (proj2 second_search_yields_the_same (lit "ABC")
             [lit "AB"; lit "C"] false).
    vm_compute; reflexivity.
Defined.

(** * Further properties of the code *)

(** ** The transition table *)

Lemma get_transition_type_lookup d s a :
  DFA.get_transition_type d s a
  = Ok (transition_types d !! s ≫= fun row => row_get row a).
Proof.
  unfold DFA.get_transition_type, dict_getitem.
  destruct (transition_types d !! s) as [row|] eqn:Hrow.
  - rewrite bool_decide_eq_true_2; [reflexivity |].
    apply elem_of_dom. eauto.
  - rewrite bool_decide_eq_false_2; [reflexivity |].
    intros [? ?]%elem_of_dom. congruence.
Qed.

Lemma add_transition_type d f a t ty d' u :
  DFA.add_transition d f a t ty = (d', Ok u) ->
  DFA.get_transition_type d' f a = Ok (Some ty).
Proof.
  rewrite get_transition_type_lookup. unfold DFA.add_transition.
  destruct (states d) as [n|]; [| intros [= ]].
  destruct ((f <? 0) || (n <? f)); [intros [=] |].
  destruct ((t <? 0) || (n <? t)); [intros [=] |].
  destruct (negb _); [intros [=] |].
  match goal with
  | |- context [transitions ?d1 !! f] =>
      destruct (transitions d1 !! f) as [row|]; [| intros [=]]
  end.
  destruct (row_mem row a); [intros [=] |].
  match goal with
  | |- context [transition_types ?d2 !! f] =>
      destruct (transition_types d2 !! f) as [trow|]; [| intros [=]]
  end.
  intros [= <-]. cbn [transition_types DFA.set_transition_types].
  rewrite lookup_insert_eq. cbn.
  by rewrite row_get_set, bool_decide_eq_true_2.
Qed.

(** ** Automata made through the interface are well formed *)

Lemma add_state_states d acc ini n :
  states (DFA.add_state d acc ini).1 = Some n ->
  n = match states d with None => 0 | Some k => k + 1 end.
Proof.
  unfold DFA.add_state. destruct (ini && _); cbn.
  - by intros [= <-].
  - destruct ini, acc; cbn; by intros [= <-].
Qed.

Lemma Built_wf d : Built d -> wf d /\ forall n, states d = Some n -> 0 <= n.
Proof.
  induction 1 as [al | d acc ini _ [IH1 IH2] | d f a t ty _ [IH1 IH2]
                 | d s _ [IH1 IH2] | d s b _ [IH1 IH2]].
  - split; [apply wf_empty | intros n [=]].
  - assert (Hpos : forall n, states (DFA.add_state d acc ini).1 = Some n ->
                             0 <= n).
    { intros n ->%add_state_states. destruct (states d) as [k|] eqn:Hk; [| lia].
      specialize (IH2 k eq_refl). lia. }
    split; [| done]. destruct IH1 as [Hty Hrg]. constructor.
    + intros q. unfold DFA.add_state. destruct (ini && _); cbn; [apply Hty |].
      destruct ini, acc; cbn; apply Hty.
    + intros p a c He.
      assert (has_edge d p a c) as He'.
      { revert He. unfold has_edge, DFA.add_state.
        destruct (ini && _); cbn; [done |]. by destruct ini, acc. }
      destruct (Hrg _ _ _ He') as (n & Hn & ? & ?).
      destruct (states (DFA.add_state d acc ini).1) as [n'|] eqn:Hn'.
      * exists n'. split; [done |].
        apply add_state_states in Hn'. rewrite Hn in Hn'. lia.
      * revert Hn'. unfold DFA.add_state. destruct (ini && _); cbn; [done |].
        by destruct ini, acc.
  - destruct (DFA.add_transition d f a t ty) as [d' r] eqn:Hadd. cbn.
    destruct r as [u | e |].
    + apply add_transition_Ok in Hadd as [Hwf' Hadded]; [| done].
      split; [done |]. by rewrite (ext_states _ _ (added_ext _ _ _ _ _ Hadded)).
    + by apply add_transition_not_Ok in Hadd as [[u [=]] | ->].
    + by apply add_transition_not_Ok in Hadd as [[u [=]] | ->].
  - unfold DFA.add_accepting. destruct (negb _); [done |].
    destruct (DFA.out_of_range d s); [done |]. cbn.
    destruct IH1 as [Hty Hrg]. split; [constructor |]; done.
  - unfold DFA.set_accepting. destruct b; cbn.
    + destruct IH1 as [Hty Hrg]. split; [constructor |]; done.
    + case_bool_decide; cbn; [| done].
      destruct IH1 as [Hty Hrg]. split; [constructor |]; done.
Qed.

(** X1: on an automaton made with [add_state] and [add_transition], a
    transition that [add_transition] accepted is the one [transition] and
    [get_transition_type] return for its pair; no other pair changes its
    target, and states, alphabet, initial state and accepting states are left
    as they were. *)
Theorem add_transition_then_lookup (d : DFA) (f : Z) (a : ascii) (t : Z)
    (ty : TransitionType) (d' : DFA) (u : unit) :
  Built d ->
  DFA.add_transition d f a t ty = (d', Ok u) ->
  DFA.transition d' f a = Ok (Some t) /\
  DFA.get_transition_type d' f a = Ok (Some ty) /\
  (forall s b, (s, b) <> (f, a) ->
     DFA.transition d' s b = DFA.transition d s b) /\
  states d' = states d /\ alphabets d' = alphabets d /\
  initial_state d' = initial_state d /\
  accepting_states d' = accepting_states d.
Proof.
  intros [Hwf _]%Built_wf H. pose proof (add_transition_type _ _ _ _ _ _ _ H) as Hty.
  apply add_transition_Ok in H as [Hwf' Hadd]; [| done].
  pose proof (added_ext _ _ _ _ _ Hadd) as He.
  rewrite transition_delta, (added_here _ _ _ _ _ Hadd).
  split; [done |]. split; [done |]. split.
  { intros s b Hne. rewrite !transition_delta.
    by rewrite (added_other _ _ _ _ _ Hadd). }
  split; [apply He |]. split; [apply He |]. split; apply He.
Qed.

Lemma add_transition_then_lookup_witness :
  let d0 := (DFA.add_state
               (DFA.add_state (DFA.__init__ (lit "ab")) false true).1
               true false).1 in
  exists d', DFA.add_transition d0 0 "a" 1 SUCCESS = (d', Ok tt) /\
             DFA.transition d' 0 "a" = Ok (Some 1).
Proof.
  intros d0. eexists. split; [vm_compute; reflexivity |].
  eapply (add_transition_then_lookup d0 0 "a" 1 SUCCESS _ tt).
  - apply Built_add_state, Built_add_state, Built_init.
  - vm_compute; reflexivity.
Defined.

(** ** When [add_transition] accepts *)

Lemma add_transition_rejects d f a t ty d' r :
  wf d -> DFA.add_transition d f a t ty = (d', r) ->
  r = Ok tt \/ (d' = d /\ exists msg, r = Raise (ValueError msg)).
Proof.
  intros Hwf. unfold DFA.add_transition.
  destruct (states d) as [n|]; [| intros [= <- <-]; eauto].
  destruct ((f <? 0) || (n <? f)); [intros [= <- <-]; eauto |].
  destruct ((t <? 0) || (n <? t)); [intros [= <- <-]; eauto |].
  case_bool_decide as Ha; cbn [negb]; [| intros [= <- <-]; eauto].
  case_bool_decide as Hdom.
  - pose proof Hdom as Hdom'. apply elem_of_dom in Hdom' as [row Hrow].
    rewrite Hrow.
    destruct (row_mem row a); [intros [= <- <-]; eauto |].
    cbn. destruct (wf_types d Hwf f) as [trow ->]; [eauto |].
    intros [= _ <-]. eauto.
  - cbn. rewrite lookup_insert_eq. cbn. rewrite lookup_insert_eq.
    intros [= _ <-]. eauto.
Qed.

Lemma add_transition_succeeds d n f a t ty :
  wf d -> states d = Some n -> 0 <= f <= n -> 0 <= t <= n ->
  a ∈ alphabets d -> delta d f a = None ->
  exists d', DFA.add_transition d f a t ty = (d', Ok tt).
Proof.
  intros Hwf Hn Hf Ht Ha Hfresh. unfold DFA.add_transition. rewrite Hn.
  replace ((f <? 0) || (n <? f)) with false by lia.
  replace ((t <? 0) || (n <? t)) with false by lia.
  rewrite (bool_decide_eq_true_2 _ Ha). cbn [negb].
  case_bool_decide as Hdom.
  - apply elem_of_dom in Hdom as [row Hrow]. rewrite Hrow.
    unfold delta in Hfresh. rewrite Hrow in Hfresh. cbn in Hfresh.
    unfold row_mem. rewrite Hfresh. cbn.
    destruct (wf_types d Hwf f) as [trow ->]; eauto.
  - cbn. rewrite lookup_insert_eq. cbn. rewrite lookup_insert_eq. eauto.
Qed.



(** ** State identifiers *)

(** X3: a call of [add_state] that is rejected because the automaton has an
    initial state has allocated its state all the same: the next call
    returns the identifier after it, and the rejected identifier names a
    state that [is_accepting_state] answers for. *)
Theorem add_state_rejected_still_allocates (d : DFA) (acc acc' : bool)
    (k n : Z) :
  initial_state d = Some k -> k <> 0 -> states d = Some n ->
  let d1 := (DFA.add_state d acc true).1 in
  (DFA.add_state d acc true).2
  = Raise (ValueError "DFA already has an initial state") /\
  DFA.n_states d1 = DFA.n_states d + 1 /\
  initial_state d1 = Some k /\
  accepting_states d1 = accepting_states d /\
  (DFA.add_state d1 acc' false).2 = Ok (n + 2).
Proof.
  intros Hk Hne Hn d1.
  assert (Hd1 : DFA.add_state d acc true
                = (DFA.set_states d (Some (n + 1)),
                   Raise (ValueError "DFA already has an initial state"))).
  { unfold DFA.add_state. rewrite Hn. cbn. rewrite Hk. cbn.
    by assert (negb (k =? 0) = true) as -> by (apply negb_true_iff; lia). }
  unfold d1. rewrite Hd1. cbn [fst snd].
  split; [done |]. split; [unfold DFA.n_states; cbn; rewrite Hn; lia |].
  split; [done |]. split; [done |].
  unfold DFA.add_state. cbn. destruct acc'; cbn; f_equal; lia.
Qed.

Lemma add_state_rejected_still_allocates_witness :
  let d := (DFA.add_state
              (DFA.add_state (DFA.__init__ (lit "ab")) false false).1
              false true).1 in
  (DFA.add_state d false true).2
  = Raise (ValueError "DFA already has an initial state") /\
  (DFA.add_state (DFA.add_state d false true).1 false false).2 = Ok 3.
Proof.
  intros d.
  destruct (add_state_rejected_still_allocates d false false 1 1)
    as (H1 & _ & _ & _ & H2); try done.
Defined.

(** ** Accepting states *)

Lemma is_accepting_state_frame d d' s :
  states d' = states d ->
  (s ∈ accepting_states d' <-> s ∈ accepting_states d) ->
  DFA.is_accepting_state d' s = DFA.is_accepting_state d s.
Proof.
  intros Hs Hacc. unfold DFA.is_accepting_state, DFA.out_of_range.
  rewrite Hs. destruct (states d) as [n|]; [| done].
  destruct ((s <? 0) || (n <? s)); [done |].
  f_equal. by apply bool_decide_ext.
Qed.

(** X4: [add_accepting] marks an allocated state, which
    [is_accepting_state] then reports, and changes the answer for no other
    state. It is rejected with [ValueError], the automaton untouched, when
    the state is not allocated, and also whenever state 0 is the only state:
    the guard is the truth value of the state counter. *)
Theorem add_accepting_then_is_accepting (d : DFA) (s : Z) :
  ((DFA.add_accepting d s).2 = Ok tt <->
   exists n, states d = Some n /\ n <> 0 /\ 0 <= s <= n) /\
  ((DFA.add_accepting d s).2 = Ok tt ->
   DFA.is_accepting_state (DFA.add_accepting d s).1 s = Ok true /\
   forall s', s' <> s ->
     DFA.is_accepting_state (DFA.add_accepting d s).1 s'
     = DFA.is_accepting_state d s') /\
  ((DFA.add_accepting d s).2 <> Ok tt ->
   (DFA.add_accepting d s).1 = d /\
   exists msg, (DFA.add_accepting d s).2 = Raise (ValueError msg)).
Proof.
  unfold DFA.add_accepting, DFA.out_of_range, truthy.
  destruct (states d) as [n|] eqn:Hn; cbn.
  2:{ split; [split; [done | by intros (? & ? & _)] |]. split; [done | eauto]. }
  destruct (n =? 0) eqn:Hn0; cbn.
  { split; [split; [done | intros (? & [= <-] & ? & _); lia] |].
    split; [done | eauto]. }
  destruct ((s <? 0) || (n <? s)) eqn:Hs; cbn.
  { split; [split; [done | intros (? & [= <-] & ? & ?); lia] |].
    split; [done | eauto]. }
  split; [split; [intros _; exists n; repeat split; lia | done] |].
  split; [| done]. intros _. split.
  - unfold DFA.is_accepting_state, DFA.out_of_range. cbn. rewrite Hn, Hs.
    f_equal. apply bool_decide_eq_true_2, elem_of_union_l, elem_of_singleton_2; done.
  - intros s' Hne. apply is_accepting_state_frame; [done |]. cbn.
      rewrite elem_of_union, elem_of_singleton. intuition congruence.
Qed.

(** X5: on an allocated state, [set_accepting] makes [is_accepting_state]
    return the flag it was given and changes the answer for no other state;
    the one call it rejects is the unmarking of a state that is not
    accepting, which raises [KeyError] and leaves the automaton as it
    was. *)
Theorem set_accepting_then_is_accepting (d : DFA) (s : Z) (b : bool) (n : Z) :
  states d = Some n -> 0 <= s <= n ->
  ((DFA.set_accepting d s b).2 = Ok tt <->
   b = true \/ DFA.is_accepting_state d s = Ok true) /\
  ((DFA.set_accepting d s b).2 = Ok tt ->
   DFA.is_accepting_state (DFA.set_accepting d s b).1 s = Ok b /\
   forall s', s' <> s ->
     DFA.is_accepting_state (DFA.set_accepting d s b).1 s'
     = DFA.is_accepting_state d s') /\
  ((DFA.set_accepting d s b).2 <> Ok tt ->
   (DFA.set_accepting d s b).2 = Raise KeyError /\
   (DFA.set_accepting d s b).1 = d).
Proof.
  intros Hn Hs.
  rewrite (is_accepting_state_in_range d n s Hn Hs).
  unfold DFA.set_accepting. destruct b.
  - cbn. split; [split; auto |]. split; [| done]. intros _. split.
    + rewrite (is_accepting_state_in_range _ n s) by done.
      f_equal. apply bool_decide_eq_true_2. cbn.
      apply elem_of_union_l, elem_of_singleton_2; done.
    + intros s' Hne. apply is_accepting_state_frame; [done |]. cbn.
      rewrite elem_of_union, elem_of_singleton. intuition congruence.
  - case_bool_decide as Hin; cbn.
    + split; [split; auto |]. split; [| done]. intros _. split.
      * rewrite (is_accepting_state_in_range _ n s) by done.
        f_equal. apply bool_decide_eq_false_2. cbn.
        rewrite elem_of_difference, elem_of_singleton. intuition congruence.
      * intros s' Hne. apply is_accepting_state_frame; [done |]. cbn.
        rewrite elem_of_difference, elem_of_singleton. intuition congruence.
    + split; [split; [done | by intros [? | [=]]] |]. split; [done | auto].
Qed.

Lemma set_accepting_then_is_accepting_witness :
  let d := (DFA.add_state
              (DFA.add_state (DFA.__init__ (lit "ab")) false true).1
              true false).1 in
  DFA.is_accepting_state (DFA.set_accepting d 1 false).1 1 = Ok false /\
  (DFA.set_accepting d 0 false).2 = Raise KeyError.
Proof.
  intros d.
  destruct (set_accepting_then_is_accepting d 1 false 1 eq_refl)
    as (Ha & Hb & _); [lia |].
  destruct (set_accepting_then_is_accepting d 0 false 1 eq_refl)
    as (_ & _ & Hc); [lia |].
  split.
  - apply Hb, Ha. right. vm_compute. reflexivity.
  - apply Hc. vm_compute. discriminate.
Defined.

(** ** What the traversal yields *)

Lemma explore_new src row :
  forall q v q' v', DFA.explore src row q v = (q', v') ->
    exists new, q' = q ++ new /\ NoDup new /\
      (forall e, e ∈ v' <-> e ∈ v \/ e ∈ new) /\
      (forall e, e ∈ new -> (e ∉ v) /\ exists b t, e = (src, b, t) /\ (b, t) ∈ row).
Proof.
  induction row as [|[sym next] row IH]; intros q v q' v'; cbn.
  { intros [= <- <-]. exists []. rewrite app_nil_r.
    split; [done |]. split; [constructor |]. split.
    - intros e. rewrite elem_of_nil. tauto.
    - intros e H. by apply elem_of_nil in H. }
  case_bool_decide as Hin; intros H;
    apply IH in H as (new & -> & Hnd & Hv & Hnew).
  - exists new. split; [done |]. split; [done |]. split; [done |].
    intros e He. destruct (Hnew e He) as (Hv' & b & t & -> & Hbt).
    split; [done |]. exists b, t. split; [done |]. apply elem_of_cons. auto.
  - exists ((src, sym, next) :: new). rewrite <- app_assoc.
    split; [done |]. split; [| split].
    + constructor; [| done]. intros He. apply Hnew in He as [He _].
      apply He, elem_of_union. left. by apply elem_of_singleton.
    + intros e. rewrite Hv, elem_of_union, elem_of_singleton, elem_of_cons.
      tauto.
    + intros e [-> | He]%elem_of_cons.
      * split; [done |]. exists sym, next. split; [done |].
        apply elem_of_cons. auto.
      * destruct (Hnew e He) as (Hv' & b & t & -> & Hbt). split.
        -- intros Hc. apply Hv', elem_of_union. auto.
        -- exists b, t. split; [done |]. apply elem_of_cons. auto.
Qed.

Lemma bfs_loop_sound d :
  forall fuel q v out, DFA.bfs_loop fuel d q v = Some out ->
    NoDup q -> (forall e, e ∈ q -> e ∈ v) ->
    NoDup out /\
    forall e, e ∈ out ->
      e ∈ q \/ ((e ∉ v) /\ has_edge d e.1.1 e.1.2 e.2).
Proof.
  induction fuel as [|fuel IH]; intros q v out; destruct q as [|cur q]; cbn.
  1,3: intros [= <-] _ _; split; [constructor |];
       intros e H; by apply elem_of_nil in H.
  { discriminate. }
  intros Hloop Hnd Hqv. apply NoDup_cons in Hnd as [Hcur Hnd].
  assert (Hcurv : cur ∈ v) by (apply Hqv, elem_of_cons; auto).
  assert (Hqv' : forall e, e ∈ q -> e ∈ v).
  { intros e He. apply Hqv, elem_of_cons. auto. }
  destruct (transitions d !! cur.2) as [row|] eqn:Hrow.
  - destruct (DFA.explore cur.2 row q v) as [q1 v1] eqn:Hex.
    apply explore_new in Hex as (new & -> & Hndnew & Hv & Hnew).
    destruct (DFA.bfs_loop fuel d (q ++ new) v1) as [out'|] eqn:Hrec;
      [| discriminate].
    cbn in Hloop. injection Hloop as <-.
    apply IH in Hrec as [Hndout Hout].
    + split.
      * constructor; [| done]. intros Hin.
        apply Hout in Hin as [[Hin | Hin]%elem_of_app | [Hin _]].
        -- done.
        -- apply Hnew in Hin as [Hin _]. done.
        -- apply Hin, Hv. auto.
      * intros e [-> | He]%elem_of_cons; [left; apply elem_of_cons; auto |].
        apply Hout in He as [[He | He]%elem_of_app | [He Hedge]].
        -- left. apply elem_of_cons. auto.
        -- right. destruct (Hnew e He) as (Hv' & b & t & -> & Hbt).
           split; [done |]. cbn. exists row. done.
        -- right. split; [| done]. intros Hc. apply He, Hv. auto.
    + apply NoDup_app. split; [done |]. split; [| done].
      intros e He Hen. apply Hnew in Hen as [Hen _]. auto.
    + intros e [He | He]%elem_of_app; apply Hv; auto.
  - destruct (DFA.bfs_loop fuel d q v) as [out'|] eqn:Hrec; [| discriminate].
    cbn in Hloop. injection Hloop as <-.
    apply IH in Hrec as [Hndout Hout]; [| done | done].
    split.
    + constructor; [| done]. intros Hin.
      apply Hout in Hin as [Hin | [Hin _]]; done.
    + intros e [-> | He]%elem_of_cons; [left; apply elem_of_cons; auto |].
      apply Hout in He as [He | He]; [| auto].
      left. apply elem_of_cons. auto.
Qed.

Lemma first_level_children_spec s0 row e :
  e ∈ DFA.first_level_children s0 row <->
  exists a c, e = (s0, a, c) /\ (a, c) ∈ row /\ c <> s0.
Proof.
  unfold DFA.first_level_children. rewrite list_elem_of_omap. split.
  - intros ([a c] & Hin & He). case_bool_decide; [| done].
    injection He as <-. eauto.
  - intros (a & c & -> & Hin & Hne). exists (a, c). split; [done |].
    by rewrite bool_decide_eq_true_2.
Qed.

Lemma first_level_children_NoDup s0 row :
  NoDup row -> NoDup (DFA.first_level_children s0 row).
Proof.
  unfold DFA.first_level_children. induction 1 as [|[a c] row Hnin Hnd IH].
  { constructor. }
  cbn. case_bool_decide; [| done]. constructor; [| done].
  intros ([a' c'] & Hin & He)%list_elem_of_omap.
  case_bool_decide; [| done]. injection He as -> ->. done.
Qed.

Lemma bfs_loop_within d (R : Edge -> Prop) :
  (forall p a c b t, R (p, a, c) -> has_edge d c b t -> R (c, b, t)) ->
  forall fuel q v out, DFA.bfs_loop fuel d q v = Some out ->
    (forall e, e ∈ q -> R e) -> forall e, e ∈ out -> R e.
Proof.
  intros HR. induction fuel as [|fuel IH]; intros q v out;
    destruct q as [|cur q]; cbn.
  1,3: intros [= <-] _ e H; by apply elem_of_nil in H.
  { discriminate. }
  intros Hloop Hq.
  assert (Hcur : R cur) by (apply Hq, elem_of_cons; auto).
  assert (Hq' : forall e, e ∈ q -> R e).
  { intros e He. apply Hq, elem_of_cons. auto. }
  destruct cur as [[p0 a0] c0]. cbn [snd] in Hloop.
  destruct (transitions d !! c0) as [row|] eqn:Hrow.
  - destruct (DFA.explore c0 row q v) as [q1 v1] eqn:Hex.
    apply explore_new in Hex as (new & -> & _ & _ & Hnew).
    destruct (DFA.bfs_loop fuel d (q ++ new) v1) as [out'|] eqn:Hrec;
      [| discriminate].
    cbn in Hloop. injection Hloop as <-.
    intros e [-> | He]%elem_of_cons; [done |].
    eapply IH; [exact Hrec | | exact He].
    intros e' [He' | He']%elem_of_app; [auto |].
    destruct (Hnew e' He') as (_ & b & t & -> & Hbt).
    apply (HR p0 a0); [done |]. exists row. done.
  - destruct (DFA.bfs_loop fuel d q v) as [out'|] eqn:Hrec; [| discriminate].
    cbn in Hloop. injection Hloop as <-.
    intros e [-> | He]%elem_of_cons; [done |]. eauto.
Qed.

(** ** Rows are dicts *)

Lemma row_set_keys {V} (r : list (ascii * V)) a v :
  (row_set r a v).*1 = if row_mem r a then r.*1 else r.*1 ++ [a].
Proof.
  unfold row_mem. induction r as [|[b w] r IH]; cbn; [done |].
  case_bool_decide as E; cbn; [done |].
  rewrite IH. by destruct (row_get r a).
Qed.

Lemma row_mem_keys {V} (r : list (ascii * V)) a :
  row_mem r a = true <-> a ∈ r.*1.
Proof.
  unfold row_mem. induction r as [|[b w] r IH]; cbn.
  { split; [done | intros H; by apply elem_of_nil in H]. }
  rewrite elem_of_cons. case_bool_decide as E.
  - split; auto.
  - rewrite IH. split; [auto | intros [? | ?]; [done | auto]].
Qed.

Lemma row_set_NoDup {V} (r : list (ascii * V)) a v :
  NoDup r.*1 -> NoDup (row_set r a v).*1.
Proof.
  intros Hnd. rewrite row_set_keys. destruct (row_mem r a) eqn:E; [done |].
  apply NoDup_app. split; [done |]. split; [| apply NoDup_singleton].
  intros b Hb ->%list_elem_of_singleton.
  apply row_mem_keys in Hb. congruence.
Qed.

Lemma row_get_NoDup {V} (r : list (ascii * V)) a v :
  NoDup r.*1 -> (a, v) ∈ r -> row_get r a = Some v.
Proof.
  induction r as [|[b w] r IH]; cbn; intros Hnd Hin.
  { by apply elem_of_nil in Hin. }
  apply NoDup_cons in Hnd as [Hb Hnd].
  apply elem_of_cons in Hin as [[= -> ->] | Hin].
  - by rewrite bool_decide_eq_true_2.
  - rewrite bool_decide_eq_false_2; [auto |].
    intros ->. apply Hb, list_elem_of_fmap. by exists (b, v).
Qed.

Lemma insert_rows_NoDup {V} (m : gmap Z (list (ascii * V))) k row :
  (forall s r, m !! s = Some r -> NoDup r.*1) -> NoDup row.*1 ->
  forall s r, <[k := row]> m !! s = Some r -> NoDup r.*1.
Proof.
  intros Hm Hrow s r. destruct (decide (s = k)) as [-> | Hne].
  - rewrite lookup_insert_eq. by intros [= <-].
  - rewrite lookup_insert_ne by done. apply Hm.
Qed.

Lemma add_transition_dict_rows d f a t ty :
  dict_rows d -> dict_rows (DFA.add_transition d f a t ty).1.
Proof.
  intros [Htr Hty]. unfold DFA.add_transition.
  destruct (states d) as [n|]; [| done].
  destruct ((f <? 0) || (n <? f)); [done |].
  destruct ((t <? 0) || (n <? t)); [done |].
  destruct (negb _); [done |].
  set (d1 := if bool_decide (f ∈ dom (transitions d)) then d else _).
  assert (H1 : dict_rows d1).
  { unfold d1. case_bool_decide; [done |]. split; cbn.
    - apply insert_rows_NoDup; [done | constructor].
    - apply insert_rows_NoDup; [done | constructor]. }
  clearbody d1. destruct H1 as [Htr1 Hty1].
  destruct (transitions d1 !! f) as [row|] eqn:Hrow; [| done].
  destruct (row_mem row a); [done |].
  cbn [transition_types DFA.set_transitions].
  destruct (transition_types d1 !! f) as [trow|] eqn:Htrow; cbn [fst].
  - split; cbn.
    + apply insert_rows_NoDup; [done |]. apply row_set_NoDup. eauto.
    + apply insert_rows_NoDup; [done |]. apply row_set_NoDup. eauto.
  - split; cbn; [| done].
    apply insert_rows_NoDup; [done |]. apply row_set_NoDup. eauto.
Qed.

Lemma Built_dict_rows d : Built d -> dict_rows d.
Proof.
  induction 1 as [al | d acc ini _ IH | d f a t ty _ IH
                 | d s _ IH | d s b _ IH].
  - split; intros s row; cbn; by rewrite lookup_empty.
  - unfold DFA.add_state. destruct (ini && _); cbn; [done |].
    by destruct ini, acc.
  - by apply add_transition_dict_rows.
  - unfold DFA.add_accepting. destruct (negb _); [done |].
    by destruct (DFA.out_of_range d s).
  - unfold DFA.set_accepting. destruct b; [done |]. by case_bool_decide.
Qed.

Lemma has_edge_delta d p a c :
  dict_rows d -> has_edge d p a c <-> delta d p a = Some c.
Proof.
  intros [Htr _]. split; [| apply delta_has_edge].
  intros (row & Hrow & Hin). unfold delta. rewrite Hrow. cbn.
  apply row_get_NoDup; eauto.
Qed.

(** X6: on an automaton made through the interface whose initial state has
    a row, [bfs_traverse] returns; it yields no edge twice, and it yields
    exactly the edges out of the initial state that are not loops, together
    with every edge that leaves the target of an edge it yields. *)
Theorem bfs_traverse_yields_reached_edges_once (d : DFA) (s0 : Z) :
  Built d -> initial_state d = Some s0 -> is_Some (transitions d !! s0) ->
  exists edges, DFA.bfs_traverse d = Ok edges /\ NoDup edges /\
    forall e, e ∈ edges <-> reached d s0 e.
Proof.
  intros HB%Built_dict_rows Hs0 [row0 Hrow0].
  pose proof (bfs_traverse_returns d) as Hret. revert Hret.
  unfold DFA.bfs_traverse. rewrite Hs0. unfold dict_getitem. rewrite Hrow0.
  cbn [mbind result_bind].
  set (first := DFA.first_level_children s0 row0).
  destruct (DFA.bfs_loop (S (2 * DFA.n_edges d)) d first (list_to_set first))
    as [edges|] eqn:Hloop; [intros _ | done].
  assert (Hnd0 : NoDup first).
  { apply first_level_children_NoDup. eapply NoDup_fmap_1, HB. exact Hrow0. }
  assert (Hfirst : forall e, e ∈ first -> reached d s0 e).
  { intros e (a & c & -> & Hin & Hne)%first_level_children_spec.
    constructor; [| done]. apply has_edge_delta; [done |]. by exists row0. }
  exists edges. split; [done |].
  destruct (bfs_loop_sound _ _ _ _ _ Hloop Hnd0) as [Hnd _].
  { intros e. by rewrite elem_of_list_to_set. }
  split; [done |]. intros e. split.
  - revert e. eapply bfs_loop_within; [| exact Hloop | exact Hfirst].
    intros p a c b t Hr He. econstructor; [exact Hr |].
    by apply has_edge_delta.
  - destruct (bfs_loop_closed _ _ _ _ _ Hloop) as [Hq Hcl].
    induction 1 as [a c Hd Hne | p a c b t _ IH Hd].
    + apply Hq, first_level_children_spec. exists a, c.
      split; [done |]. split; [| done].
      apply delta_has_edge in Hd as (row & Hrow & Hin). congruence.
    + destruct (Hcl _ _ _ _ _ IH (delta_has_edge _ _ _ _ Hd)) as [Hin | Hin];
        [| done].
      apply Hq. apply elem_of_list_to_set in Hin. exact Hin.
Qed.

Lemma bfs_traverse_yields_reached_edges_once_witness :
  let d := (DFA.add_transition
              (DFA.add_state
                 (DFA.add_state (DFA.__init__ (lit "ab")) false true).1
                 true false).1 0 "a" 1 SUCCESS).1 in
  exists edges, DFA.bfs_traverse d = Ok edges /\ NoDup edges /\
    forall e, e ∈ edges <-> reached d 0 e.
Proof.
  intros d. apply (bfs_traverse_yields_reached_edges_once d 0).
  - apply Built_add_transition, Built_add_state, Built_add_state, Built_init.
  - reflexivity.
  - vm_compute. eauto.
Defined.

(** ** The record of an automaton *)

Lemma py_int_py_str k : py_int (py_str k) = Ok k.
Proof.
  unfold py_int, py_str. rewrite NilZero.isi.
  - by rewrite DecimalZ.of_to.
  - destruct k; cbn; [done | | done].
    intros [= H]. by apply Unsigned.to_uint_nonnil in H.
  - destruct k; cbn; [done | done |].
    intros [= H]. by apply Unsigned.to_uint_nonnil in H.
Qed.

Lemma TransitionType_of_value_value ty :
  TransitionType_of_value (TransitionType_value ty) = Ok ty.
Proof. by destruct ty. Qed.

(** A loop that reads back the items of a dict written with [str] keys
    rebuilds the dict, item by item. *)
Lemma for_each_restore {W V}
    (step : gmap Z V -> string * W -> result (gmap Z V)) (h : W -> V)
    (l : list (Z * W)) :
  (forall m k w, (k, w) ∈ l -> step m (py_str k, w) = Ok (<[k := h w]> m)) ->
  NoDup l.*1 ->
  forall acc, exists M,
    for_each ((fun kv : Z * W => (py_str kv.1, kv.2)) <$> l) step acc = Ok M /\
    forall k, M !! k = match (list_to_map l : gmap Z W) !! k with
                       | Some w => Some (h w)
                       | None => acc !! k
                       end.
Proof.
  induction l as [|[k0 w0] l IH]; intros Hstep Hnd acc; cbn.
  { exists acc. split; [done |]. intros k. by rewrite lookup_empty. }
  apply NoDup_cons in Hnd as [Hk0 Hnd].
  rewrite Hstep by (apply elem_of_cons; auto). cbn.
  destruct (IH (fun m k w H => Hstep m k w (proj2 (elem_of_cons _ _ _) (or_intror H)))
               Hnd (<[k0 := h w0]> acc)) as (M & -> & HM).
  exists M. split; [done |]. intros k. rewrite HM.
  destruct (decide (k = k0)) as [-> | Hne].
  - rewrite lookup_insert_eq.
    rewrite (not_elem_of_list_to_map_1 _ _ Hk0). by rewrite lookup_insert_eq.
  - rewrite !lookup_insert_ne by done. done.
Qed.

Lemma restore_str_keys {W V}
    (step : gmap Z V -> string * W -> result (gmap Z V)) (h : W -> V)
    (m : gmap Z W) :
  (forall acc k w, m !! k = Some w ->
     step acc (py_str k, w) = Ok (<[k := h w]> acc)) ->
  for_each (str_keys m) step ∅ = Ok (h <$> m).
Proof.
  intros Hstep.
  destruct (for_each_restore step h (map_to_list m)) with (acc := ∅ : gmap Z V)
    as (M & HM & Hlook).
  - intros acc k w Hin. apply Hstep. by apply elem_of_map_to_list.
  - apply NoDup_fst_map_to_list.
  - unfold str_keys. rewrite HM. f_equal. apply map_eq. intros k.
    rewrite Hlook, list_to_map_to_list, lookup_fmap, lookup_empty.
    by destruct (m !! k).
Qed.

Lemma restore_types_type_values row :
  NoDup row.*1 -> restore_types (type_values row) = Ok row.
Proof.
  unfold restore_types. intros Hnd.
  enough (forall rest pre, NoDup (pre ++ rest).*1 ->
            for_each (type_values rest) restore_type pre = Ok (pre ++ rest))
    as H by exact (H row [] Hnd).
  induction rest as [|[a ty] rest IH]; intros pre Hpre; cbn.
  { by rewrite app_nil_r. }
  assert (row_get pre a = None) as Hfresh.
  { destruct (row_get pre a) as [v|] eqn:E; [| done].
    apply row_get_Some_elem in E. rewrite fmap_app in Hpre.
    apply NoDup_app in Hpre as (_ & Hd & _). exfalso.
    apply (Hd a).
    - apply list_elem_of_fmap. by exists (a, v).
    - cbn. apply elem_of_cons. auto. }
  assert (Hstep : restore_type pre (a, TransitionType_value ty)
                  = Ok (pre ++ [(a, ty)])).
  { unfold restore_type. cbn [fst snd].
    rewrite TransitionType_of_value_value. cbn [mbind result_bind].
    by rewrite (row_set_fresh _ _ _ Hfresh). }
  change (type_values ((a, ty) :: rest))
    with ((a, TransitionType_value ty) :: type_values rest).
  cbn [for_each]. rewrite Hstep. cbn [mbind result_bind].
  rewrite IH.
  - by rewrite <- app_assoc.
  - by rewrite <- app_assoc.
Qed.

Lemma remove_dups_NoDup {A} `{EqDecision A} (l : list A) :
  NoDup l -> remove_dups l = l.
Proof.
  induction 1 as [|x l Hx _ IH]; cbn; [done |].
  destruct (decide_rel _ x l); [done | by rewrite IH].
Qed.

(** X7: an automaton made through the interface is read back from its
    record as it was: [from_dict] undoes [to_dict]. *)
Theorem from_dict_to_dict (d : DFA) :
  Built d -> NoDup (alphabets d) -> from_dict (to_dict d) = Ok d.
Proof.
  intros [_ Hty]%Built_dict_rows Hal. unfold from_dict, to_dict. cbn.
  rewrite (restore_str_keys restore_row id (transitions d)).
  2:{ intros acc k w _. unfold restore_row. cbn. by rewrite py_int_py_str. }
  cbn.
  rewrite (restore_str_keys restore_type_row
             (fun trow => match restore_types trow with Ok r => r | _ => [] end)
             (type_values <$> transition_types d)).
  2:{ intros acc k w [row [<- Hrow]]%lookup_fmap_Some.
      unfold restore_type_row, restore_row. cbn [fst snd].
      rewrite !(restore_types_type_values row) by eauto.
      cbn [mbind result_bind]. by rewrite py_int_py_str. }
  cbn. rewrite (remove_dups_NoDup _ Hal), list_to_set_elements_L, map_fmap_id.
  assert ((fun trow => match restore_types trow with Ok r => r | _ => [] end)
            <$> (type_values <$> transition_types d) = transition_types d) as ->.
  { apply map_eq. intros k. rewrite !lookup_fmap.
    destruct (transition_types d !! k) as [row|] eqn:Hrow; cbn; [| done].
    by rewrite (restore_types_type_values row) by eauto. }
  by destruct d.
Qed.

Lemma from_dict_to_dict_witness :
  let d := (DFA.add_transition
              (DFA.add_state
                 (DFA.add_state (DFA.__init__ (lit "ab")) false true).1
                 true false).1 0 "a" 1 SUCCESS).1 in
  from_dict (to_dict d) = Ok d.
Proof.
  intros d. apply (from_dict_to_dict d).
  - apply Built_add_transition, Built_add_state, Built_add_state, Built_init.
  - vm_compute. repeat constructor; rewrite ?elem_of_cons, ?elem_of_nil;
      intuition discriminate.
Defined.

(** ** The matchers reach their automaton through its methods *)

Lemma for_each_inv {A St} (I : St -> Prop) (f : St -> A -> result St) xs :
  (forall s x s', I s -> x ∈ xs -> f s x = Ok s' -> I s') ->
  forall s s', I s -> for_each xs f s = Ok s' -> I s'.
Proof.
  intros Hf s s' Hs H.
  eapply (for_each_post I (fun _ _ => True) (fun _ _ => True)) in H as [H _];
    eauto.
Qed.

Lemma commit__add_transition_Built d f a t ty d' :
  Built d -> commit_ (DFA.add_transition d f a t ty) = Ok d' -> Built d'.
Proof.
  intros HB (u & H)%commit__Ok.
  change d' with (d', Ok u : result unit).1. rewrite <- H. by constructor.
Qed.

Lemma commit__add_state_Built d acc ini d' :
  Built d -> commit_ (DFA.add_state d acc ini) = Ok d' -> Built d'.
Proof.
  intros HB (u & H)%commit__Ok.
  change d' with (d', Ok u : result Z).1. rewrite <- H. by constructor.
Qed.

Lemma commit_add_state_Built d acc ini d' s :
  Built d -> commit (DFA.add_state d acc ini) = Ok (d', s) -> Built d'.
Proof.
  intros HB H%commit_Ok.
  change d' with (d', Ok s : result Z).1. rewrite <- H. by constructor.
Qed.

Lemma commit__set_accepting_Built d s b d' :
  Built d -> commit_ (DFA.set_accepting d s b) = Ok d' -> Built d'.
Proof.
  intros HB (u & H)%commit__Ok.
  change d' with (d', Ok u : result unit).1. rewrite <- H. by constructor.
Qed.

Lemma KMP_add_root_loop_Built d a d' :
  Built d -> KMPMatcher.add_root_loop d a = Ok d' -> Built d'.
Proof.
  intros HB. unfold KMPMatcher.add_root_loop. intros H. inv_bind H.
  destruct (negb _); [by eapply commit__add_transition_Built |].
  by injection H as <-.
Qed.

Lemma KMP_add_chain_state_Built n d i sym d' i' :
  Built d -> KMPMatcher.add_chain_state n (d, i) sym = Ok (d', i') ->
  Built d'.
Proof.
  intros HB. unfold KMPMatcher.add_chain_state. intros H. inv_bind H.
  injection H as <- <-.
  apply commit__add_state_Built in H0; [| done].
  destruct (i <? n); [by eapply commit__add_transition_Built |].
  by injection H1 as <-.
Qed.

Lemma KMP_initialize_dfa_Built ct al P d :
  KMPMatcher._initialize_dfa ct al P = Ok d -> Built d.
Proof.
  unfold KMPMatcher._initialize_dfa. intros H.
  apply bind_Ok in H as (d0 & H0 & H).
  apply bind_Ok in H as ([d1 i1] & H1 & H).
  apply commit__add_state_Built in H0; [| constructor].
  apply (for_each_inv (fun st => Built st.1)) in H1; [| | exact H0].
  2:{ intros [d2 i2] x [d3 i3] HB _ Hbody.
      by eapply KMP_add_chain_state_Built. }
  destruct ct; [| by injection H as <-].
  eapply (for_each_inv Built); [| exact H1 | exact H].
  intros d2 a d3 HB _. by apply KMP_add_root_loop_Built.
Qed.

Lemma KMP_add_failure_edge_Built ff index d a d' :
  Built d -> KMPMatcher.add_failure_edge ff index d a = Ok d' -> Built d'.
Proof.
  intros HB. unfold KMPMatcher.add_failure_edge. intros H.
  apply bind_Ok in H as (h & _ & H).
  destruct (negb h); [| by injection H as <-].
  inv_bind H. by eapply commit__add_transition_Built.
Qed.

Lemma KMP_init_index_Built ct al P d ff index d' ff' :
  Built d -> KMPMatcher.init_index ct al P (d, ff) index = Ok (d', ff') ->
  Built d'.
Proof.
  intros HB. unfold KMPMatcher.init_index. intros H.
  apply bind_Ok in H as (d1 & H1 & H).
  assert (Built d1) as HB1.
  { destruct ct; [| by injection H1 as <-].
    eapply (for_each_inv Built); [| exact HB | exact H1].
    intros d2 a d3 ? _. by apply KMP_add_failure_edge_Built. }
  destruct (index <? _).
  - inv_bind H. by injection H as <- <-.
  - by injection H as <- <-.
Qed.

Lemma KMP_init_Built al P ct m :
  KMPMatcher.__init__ al P ct = Ok m -> Built (KMPMatcher.dfa m).
Proof.
  unfold KMPMatcher.__init__. destruct P as [|c P']; [discriminate |].
  intros H. apply bind_Ok in H as (d & Hd & H).
  apply bind_Ok in H as ([d' ff] & Hloop & H). injection H as <-. cbn.
  apply KMP_initialize_dfa_Built in Hd.
  apply (for_each_inv (fun st => Built st.1)) in Hloop; [done | | done].
  intros [d2 ff2] i [d3 ff3] HB _ Hbody. by eapply KMP_init_index_Built.
Qed.

Lemma AC_add_suffix_Built P :
  forall rest d j state pm last d' state' pm' last',
    Built d ->
    AhoCorasickMatcher.add_suffix d P rest j state pm last
    = Ok (d', state', pm', last') -> Built d'.
Proof.
  induction rest as [|c rest IH]; intros d j state pm last d' state' pm' last' HB;
    cbn [AhoCorasickMatcher.add_suffix].
  { by intros [= <- _ _ _]. }
  intros H. apply bind_Ok in H as ([d1 s1] & H1 & H).
  apply bind_Ok in H as (d2 & H2 & H).
  apply commit_add_state_Built in H1; [| done].
  apply commit__add_transition_Built in H2; [| done].
  by eapply IH.
Qed.

Lemma AC_add_pattern_Built d P d' added :
  Built d -> AhoCorasickMatcher._add_pattern d P = Ok (d', added) -> Built d'.
Proof.
  intros HB. unfold AhoCorasickMatcher._add_pattern.
  destruct (initial_state d) as [s0|]; [| discriminate].
  intros H. apply bind_Ok in H as ([[i state] ns] & _ & H).
  destruct ns as [z|].
  - destruct (i =? _).
    + inv_bind H. injection H as <- _.
      by eapply commit__set_accepting_Built.
    + by injection H as <- _.
  - apply bind_Ok in H as ([[[d1 s1] pm1] last] & H1 & H).
    apply AC_add_suffix_Built in H1; [| done].
    destruct last; [| discriminate]. by injection H as <- _.
Qed.

Lemma AC_add_root_loop_Built d a d' :
  Built d -> AhoCorasickMatcher.add_root_loop d a = Ok d' -> Built d'.
Proof.
  intros HB. unfold AhoCorasickMatcher.add_root_loop. intros H.
  apply bind_Ok in H as (t & _ & H).
  destruct t; [by injection H as <- |].
  by eapply commit__add_transition_Built.
Qed.

Lemma AC_initialize_dfa_Built ct al Ps d pm :
  AhoCorasickMatcher._initialize_dfa ct al Ps = Ok (d, pm) -> Built d.
Proof.
  unfold AhoCorasickMatcher._initialize_dfa. intros H.
  apply bind_Ok in H as (d0 & H0 & H).
  apply bind_Ok in H as ([d1 pm1] & H1 & H).
  apply bind_Ok in H as (d2 & H2 & H). injection H as <- _.
  apply commit__add_state_Built in H0; [| constructor].
  apply (for_each_inv (fun st => Built st.1)) in H1; [| | exact H0].
  2:{ intros [d3 pm3] P [d4 pm4] HB _.
      unfold AhoCorasickMatcher.insert_pattern. intros Hb.
      apply bind_Ok in Hb as ([d5 added] & Hb & Hc). injection Hc as <- _.
      by eapply AC_add_pattern_Built. }
  unfold AhoCorasickMatcher._initialize_root in H2.
  destruct ct; [| by injection H2 as <-].
  eapply (for_each_inv Built); [| exact H1 | exact H2].
  intros d3 a d4 ? _. by apply AC_add_root_loop_Built.
Qed.

Lemma AC_top_level_edge_Built sym index d a d' :
  Built d -> AhoCorasickMatcher.top_level_edge sym index d a = Ok d' ->
  Built d'.
Proof.
  intros HB. unfold AhoCorasickMatcher.top_level_edge. intros H.
  apply bind_Ok in H as (t & _ & H).
  destruct (negb _); [| by injection H as <-].
  by eapply commit__add_transition_Built.
Qed.

Lemma precompute_transition_Built index ff d a d' :
  Built d -> precompute_transition index ff d a = Ok d' -> Built d'.
Proof.
  intros HB. unfold precompute_transition. intros H.
  apply bind_Ok in H as (t & _ & H).
  destruct t; [by injection H as <- |].
  apply bind_Ok in H as (f & _ & H). apply bind_Ok in H as (t & _ & H).
  destruct t; [| discriminate]. by eapply commit__add_transition_Built.
Qed.

Lemma AC_init_edge_Built ct al d ff e d' ff' :
  Built d -> AhoCorasickMatcher.init_edge ct al (d, ff) e = Ok (d', ff') ->
  Built d'.
Proof.
  intros HB. unfold AhoCorasickMatcher.init_edge.
  destruct e as [[parent sym] index]. destruct (parent =? 0).
  - intros H. apply bind_Ok in H as (d1 & H1 & H). injection H as <- _.
    unfold AhoCorasickMatcher._initialize_top_level in H1.
    destruct ct; [| by injection H1 as <-].
    eapply (for_each_inv Built); [| exact HB | exact H1].
    intros d3 a d4 ? _. by apply AC_top_level_edge_Built.
  - intros H. apply bind_Ok in H as (f & _ & H).
    apply bind_Ok in H as (t & _ & H). apply bind_Ok in H as (ff1 & _ & H).
    destruct ct; [| by injection H as <- _].
    apply bind_Ok in H as (d1 & H1 & H). injection H as <- _.
    unfold precompute_possible_transitions in H1.
    eapply (for_each_inv Built); [| exact HB | exact H1].
    intros d3 a d4 ? _. by apply precompute_transition_Built.
Qed.

Lemma AC_init_Built al Ps ct m :
  AhoCorasickMatcher.__init__ al Ps ct = Ok m ->
  Built (AhoCorasickMatcher.dfa m).
Proof.
  unfold AhoCorasickMatcher.__init__. destruct Ps as [|P0 Ps']; [discriminate |].
  destruct (existsb _ _); [discriminate |]. intros H.
  apply bind_Ok in H as ([d pm] & Hd & H).
  apply bind_Ok in H as (edges & _ & H).
  apply bind_Ok in H as ([d' ff] & Hloop & H). injection H as <-. cbn.
  apply AC_initialize_dfa_Built in Hd.
  apply (for_each_inv (fun st => Built st.1)) in Hloop; [done | | done].
  intros [d2 ff2] e [d3 ff3] HB _ Hbody. by eapply AC_init_edge_Built.
Qed.

Lemma lazy_step_Built fuel d ff state sym :
  Built d -> Built (lazy_step fuel d ff state sym).1.
Proof.
  intros HB. unfold lazy_step.
  destruct (DFA.transition d state sym) as [[t|] | e |]; try done.
  destruct (follow_fail fuel d ff sym _) as [ts | e |]; try done.
  destruct (DFA.add_transition d state sym ts FAILURE) as [d' r] eqn:Hadd.
  assert (Built d') as HB'.
  { change d' with (d', r).1. rewrite <- Hadd. by constructor. }
  by destruct r.
Qed.

(** ** The string-matching automaton reads a text *)

Local Open Scope nat_scope.

Lemma ends_sigma (P w : str) (k : nat) :
  ends P (take (sigma P w) P) k <-> ends P w k.
Proof.
  pose proof (sigma_ends P w) as [Hn Hs]. split.
  - intros [Hk Hsuf]. split; [done |]. by etrans.
  - intros He. pose proof (sigma_max P w k He) as Hle.
    destruct He as [Hk Hsuf]. split; [done |].
    destruct (suffix_weak_total _ _ _ Hsuf Hs) as [? | Hrev]; [done |].
    apply suffix_length in Hrev as Hlen.
    rewrite !length_take_le in Hlen by lia.
    assert (k = sigma P w) as -> by lia. done.
Qed.

(** The state after one more character depends on the state only. *)
Lemma sigma_step (P w : str) (a : ascii) :
  sigma P (w ++ [a]) = sigma P (take (sigma P w) P ++ [a]).
Proof.
  apply sigma_ext. intros [|k].
  { split; intros _; apply ends_0. }
  by rewrite !ends_snoc, ends_sigma.
Qed.

Lemma sigma_full (P w : str) : sigma P w = length P <-> P `suffix_of` w.
Proof.
  split.
  - intros H. pose proof (sigma_ends P w) as [_ Hs].
    by rewrite H, firstn_all in Hs.
  - intros Hs. pose proof (sigma_ends P w) as [Hle _].
    assert (ends P w (length P)) as He.
    { split; [lia |]. by rewrite firstn_all. }
    apply sigma_max in He. lia.
Qed.

Lemma sigma_nil (P : str) : sigma P [] = 0.
Proof. reflexivity. Qed.

Local Close Scope nat_scope.

(** [P] occurs in the text at the position that ends with the part read so
    far exactly when it ends that part. *)
Lemma occurs_at_suffix (P w s' : str) :
  occurs_at (w ++ s') P (Z.of_nat (length w) - Z.of_nat (length P))
  <-> P `suffix_of` w.
Proof.
  unfold occurs_at. split.
  - intros [Hpos H].
    rewrite drop_app_le in H by lia.
    pose proof (length_drop w (Z.to_nat (Z.of_nat (length w) - Z.of_nat (length P)))) as Hlen.
    rewrite take_app_length' in H by lia.
    rewrite <- H. apply suffix_drop.
  - intros [u ->]. rewrite length_app. split; [lia |].
    replace (Z.to_nat _) with (length u) by lia.
    rewrite <- app_assoc, drop_app_length. apply take_app_length.
Qed.

Lemma filter_none {A} (Q : A -> Prop) `{forall x, Decision (Q x)} (l : list A) :
  (forall x, x ∈ l -> ~ Q x) -> filter Q l = [].
Proof.
  induction l as [|x l IH]; intros Hl; [done |].
  rewrite filter_cons, decide_False by (apply Hl, elem_of_cons; auto).
  apply IH. intros y Hy. apply Hl, elem_of_cons. auto.
Qed.

Lemma occurs_at_range (text p : str) (pos : Z) :
  p <> [] -> occurs_at text p pos ->
  0 <= pos <= Z.of_nat (length text) - Z.of_nat (length p).
Proof.
  intros Hp [Hpos H]. split; [done |].
  apply (f_equal length) in H. rewrite length_take, length_drop in H.
  destruct p; [done |]. cbn [length] in *. lia.
Qed.

(** The candidate positions the walk goes through and the positions of the
    text hold the same occurrences. *)
Lemma occurrences_window (text p : str) :
  p <> [] ->
  filter (occurs_at text p)
    (seqZ (1 - Z.of_nat (length p)) (Z.of_nat (length text)))
  = occurrences text p.
Proof.
  intros Hp. unfold occurrences.
  assert (Hno : forall x, occurs_at text p x ->
            0 <= x <= Z.of_nat (length text) - Z.of_nat (length p)).
  { intros x. by apply occurs_at_range. }
  assert (1 <= Z.of_nat (length p)) by (destruct p; [done |]; cbn [length]; lia).
  revert Hno H.
  generalize (Z.of_nat (length p)) as n, (Z.of_nat (length text)) as L.
  intros n L Hno Hn.
  destruct (decide (L < n)) as [Hlt | Hge].
  - rewrite !filter_none; [done | |].
    + intros x Hx%elem_of_seqZ Ho%Hno. lia.
    + intros x Hx%elem_of_seqZ Ho%Hno. lia.
  - assert (E1 : seqZ (1 - n) L = seqZ (1 - n) (n - 1) ++ seqZ 0 (L - n + 1)).
    { replace L with ((n - 1) + (L - n + 1)) at 1 by lia.
      rewrite seqZ_app by lia. do 2 f_equal. lia. }
    assert (E2 : seqZ 0 L = seqZ 0 (L - n + 1) ++ seqZ (L - n + 1) (n - 1)).
    { replace L with ((L - n + 1) + (n - 1)) at 1 by lia.
      rewrite seqZ_app by lia. do 2 f_equal. }
    rewrite E1, E2, !filter_app.
    rewrite (filter_none _ (seqZ (1 - n) (n - 1))).
    2:{ intros x Hx%elem_of_seqZ Ho%Hno. lia. }
    rewrite (filter_none _ (seqZ (L - n + 1) (n - 1))).
    2:{ intros x Hx%elem_of_seqZ Ho%Hno. lia. }
    by rewrite app_nil_r.
Qed.

(** ** The accepting state of the single-pattern automaton *)

Lemma add_transition_frame d f a t ty :
  accepting_states (DFA.add_transition d f a t ty).1 = accepting_states d /\
  states (DFA.add_transition d f a t ty).1 = states d /\
  alphabets (DFA.add_transition d f a t ty).1 = alphabets d /\
  initial_state (DFA.add_transition d f a t ty).1 = initial_state d.
Proof.
  unfold DFA.add_transition.
  destruct (states d) as [n|] eqn:Hn; [| done].
  destruct ((f <? 0) || (n <? f)); [done |].
  destruct ((t <? 0) || (n <? t)); [done |].
  destruct (negb _); [done |].
  case_bool_decide; cbn.
  - destruct (transitions d !! f) as [row|]; [| done].
    destruct (row_mem row a); [done |]. cbn.
    by destruct (transition_types d !! f).
  - rewrite lookup_insert_eq. cbn. by rewrite lookup_insert_eq.
Qed.

Lemma KMP_chain_accepting n :
  forall rest d i d' i', states d = Some i ->
    for_each rest (KMPMatcher.add_chain_state n) (d, i) = Ok (d', i') ->
    forall x, x ∈ accepting_states d' <->
      x ∈ accepting_states d \/
      (x = n /\ i <= n - 1 < i + Z.of_nat (length rest)).
Proof.
  induction rest as [|sym rest IH]; intros d i d' i' Hst; cbn [for_each].
  { intros [= <- <-] x. cbn [length]. split; [auto | intros [? | [_ ?]]; [done | lia]]. }
  intros H. apply bind_Ok in H as ([d2 i2] & Hbody & Hrest).
  unfold KMPMatcher.add_chain_state in Hbody. inv_bind Hbody.
  injection Hbody as <- <-.
  apply commit__Ok in Hbody0 as (s & Hadd%add_state_Ok).
  pose proof (alloc_state _ _ _ _ Hadd) as Hs. rewrite Hst in Hs. subst s.
  assert (accepting_states a0 = accepting_states a /\ states a0 = Some (i + 1))
    as [Hacc2 Hst2].
  { destruct (i <? n).
    - apply commit__Ok in Hbody1 as (u & Hu).
      destruct (add_transition_frame a i sym (i + 1) SUCCESS) as (E1 & E2 & _).
      rewrite Hu in E1, E2. cbn [fst] in E1, E2.
      by rewrite E1, E2, (alloc_states _ _ _ _ Hadd).
    - injection Hbody1 as <-. by rewrite (alloc_states _ _ _ _ Hadd). }
  intros x. rewrite (IH _ _ _ _ Hst2 Hrest x), Hacc2,
    (alloc_accepting _ _ _ _ Hadd). cbn [length].
  destruct (i =? n - 1) eqn:E.
  - rewrite elem_of_union, elem_of_singleton. split.
    + intros [[-> | ?] | [-> ?]]; [right; lia | auto | right; lia].
    + intros [? | [-> ?]]; [auto |]. left. left. lia.
  - split.
    + intros [? | [-> ?]]; [auto | right; lia].
    + intros [? | [-> ?]]; [auto | right; lia].
Qed.

Lemma KMP_init_accepting al P ct m :
  KMPMatcher.__init__ al P ct = Ok m ->
  forall x, x ∈ accepting_states (KMPMatcher.dfa m) <-> x = Z.of_nat (length P).
Proof.
  unfold KMPMatcher.__init__. destruct P as [|c P']; [discriminate |].
  set (P := c :: P'). intros H.
  apply bind_Ok in H as (d & Hd & H).
  apply bind_Ok in H as ([d' ff] & Hloop & H). injection H as <-.
  cbn [KMPMatcher.dfa].
  assert (Hd' := Hd). apply KMP_initialize_dfa in Hd' as (Hwf & _).
  assert (Hext : ext d d').
  { apply (for_each_post (fun st => wf st.1) (fun st st' => ext st.1 st'.1)
             (fun _ _ => True)) in Hloop as (_ & Hext & _); cbn [fst] in *.
    - done.
    - intros [d0 ?]. reflexivity.
    - intros [d0 ?] [d1 ?] [d2 ?]; cbn. apply ext_trans.
    - intros [d0 ff0] i [d1 ff1] Hwf0 _ Hbody. cbn [fst snd] in *.
      apply KMP_init_index in Hbody as (? & ? & _); done.
    - done.
    - done. }
  rewrite (ext_accepting _ _ Hext).
  unfold KMPMatcher._initialize_dfa in Hd.
  apply bind_Ok in Hd as (d0 & H0 & Hd).
  apply bind_Ok in Hd as ([d1 i1] & H1 & Hd).
  apply commit__Ok in H0 as (s & Hadd%add_state_Ok).
  pose proof (alloc_state _ _ _ _ Hadd) as Hs. cbn in Hs. subst s.
  assert (Hwf0 : wf d0).
  { eapply allocated_wf; [| exact Hadd | apply wf_empty]. intros ? [=]. }
  assert (Hwf1 := H1).
  apply KMP_add_chain_state in Hwf1 as (Hwf1 & _);
    [| done | apply (alloc_states _ _ _ _ Hadd) | lia].
  assert (accepting_states d = accepting_states d1) as ->.
  { destruct ct; [| by injection Hd as <-].
    apply (fill_row _ 0) in Hd as (_ & He & _);
      [| apply KMP_add_root_loop | done].
    apply He. }
  intros x.
  rewrite (KMP_chain_accepting _ _ _ _ _ _ (alloc_states _ _ _ _ Hadd) H1 x).
  rewrite (alloc_accepting _ _ _ _ Hadd).
  assert (0 < Z.of_nat (length P)) as Hlen by (unfold P; cbn [length]; lia).
  destruct (0 =? Z.of_nat (length P)) eqn:E; [lia |].
  cbn. rewrite elem_of_empty. split; [intros [[] | [-> _]]; done |].
  intros ->. right. split; [done | lia].
Qed.

(** ** The precomputed search of the single-pattern matcher *)

Lemma KMP_search_direct_occurrences (m : KMPMatcher.t) (al : list ascii)
    (P : str) :
  P <> [] ->
  states (KMPMatcher.dfa m) = Some (Z.of_nat (length P)) ->
  KMPMatcher.pattern m = Some P ->
  (forall x, x ∈ accepting_states (KMPMatcher.dfa m)
             <-> x = Z.of_nat (length P)) ->
  (forall i a, 0 <= i <= Z.of_nat (length P) -> a ∈ al ->
     delta (KMPMatcher.dfa m) i a = Some (kmp_delta P i a)) ->
  forall s w, (forall c, c ∈ s -> c ∈ al) ->
    KMPMatcher.search_direct m (Z.of_nat (sigma P w)) (Z.of_nat (length w)) s
    = ((fun pos => (pos, P)) <$>
         filter (occurs_at (w ++ s) P)
           (seqZ (Z.of_nat (length w) + 1 - Z.of_nat (length P))
                 (Z.of_nat (length s))),
       Ok tt).
Proof.
  intros HP Hst Hpat Hacc Hdelta.
  induction s as [|sym s IH]; intros w Hs; [done |].
  cbn [KMPMatcher.search_direct].
  pose proof (sigma_ends P w) as [Hle _].
  unfold direct_step. rewrite transition_delta, Hdelta;
    [| lia | apply Hs, elem_of_cons; auto].
  cbn [mbind result_bind]. unfold kmp_delta. rewrite Nat2Z.id, <- sigma_step.
  pose proof (sigma_ends P (w ++ [sym])) as [Hle' _].
  rewrite (is_accepting_state_in_range _ _ _ Hst) by lia.
  rewrite Hpat.
  assert (Hs' : forall c, c ∈ s -> c ∈ al).
  { intros c Hc. apply Hs, elem_of_cons. auto. }
  specialize (IH (w ++ [sym]) Hs'). rewrite length_app in IH. cbn [length] in IH.
  replace (Z.of_nat (length w + 1)) with (Z.of_nat (length w) + 1) in IH by lia.
  rewrite <- app_assoc in IH. cbn [app] in IH.
  rewrite seqZ_cons by (cbn [length]; lia).
  replace (Z.pred (Z.of_nat (length (sym :: s)))) with (Z.of_nat (length s))
    by (cbn [length]; lia).
  replace (Z.succ (Z.of_nat (length w) + 1 - Z.of_nat (length P)))
    with (Z.of_nat (length w) + 1 + 1 - Z.of_nat (length P)) by lia.
  rewrite filter_cons.
  assert (Hhead : occurs_at (w ++ sym :: s) P
                    (Z.of_nat (length w) + 1 - Z.of_nat (length P))
                  <-> sigma P (w ++ [sym]) = length P).
  { rewrite sigma_full, <- (occurs_at_suffix P (w ++ [sym]) s).
    rewrite <- app_assoc, length_app. cbn [app length].
    by replace (Z.of_nat (length w + 1)) with (Z.of_nat (length w) + 1) by lia. }
  case_bool_decide as Hin.
  - apply Hacc in Hin. rewrite IH.
    rewrite decide_True by (apply Hhead; lia).
    cbn [fmap list_fmap]. do 3 f_equal. lia.
  - rewrite IH. rewrite decide_False; [done |].
    intros Ho%Hhead. apply Hin, Hacc. lia.
Qed.

(** X10: the search of a single-pattern matcher built with precomputed
    transitions, on a text over the alphabet, ends normally and yields the
    pattern once for each position at which it occurs in the text, at that
    position and in increasing order. *)
Theorem kmp_precomputed_search_finds_occurrences (alphabet_set : list ascii)
    (pattern : str) (m : KMPMatcher.t) (fuel : nat) (s : str) :
  KMPMatcher.__init__ alphabet_set pattern true = Ok m ->
  (forall c, c ∈ s -> c ∈ alphabet_set) ->
  (KMPMatcher.search fuel m s).2
  = ((fun pos => (pos, pattern)) <$> occurrences s pattern, Ok tt).
Proof.
  intros Hm Hs.
  destruct (KMP_init_spec _ _ _ _ Hm) as (_ & _ & Hst & Hct & Hpat & _).
  destruct (KMP_precomputed_exact _ _ _ Hm) as [_ Hdelta].
  pose proof (KMP_init_accepting _ _ _ _ Hm) as Hacc.
  assert (HP : pattern <> []).
  { intros ->. discriminate Hm. }
  unfold KMPMatcher.search. rewrite Hct. cbn [snd].
  pose proof (KMP_search_direct_occurrences m alphabet_set pattern HP Hst Hpat
                Hacc Hdelta s [] Hs) as H.
  cbn [length app] in H. rewrite sigma_nil in H.
  change (Z.of_nat 0) with 0 in H. rewrite H.
  by rewrite <- (occurrences_window s pattern HP).
Qed.

Lemma kmp_precomputed_search_finds_occurrences_witness :
  exists m, KMPMatcher.__init__ (lit "AB") (lit "ABA") true = Ok m /\
    (KMPMatcher.search 0 m (lit "ABABABBABA")).2
    = ([(0, lit "ABA"); (2, lit "ABA"); (7, lit "ABA")], Ok tt).
Proof.
  eexists. split; [vm_compute; reflexivity |].
  rewrite (kmp_precomputed_search_finds_occurrences (lit "AB") (lit "ABA") _ 0
             (lit "ABABABBABA")).
  - vm_compute. reflexivity.
  - vm_compute. reflexivity.
  - apply Forall_forall, (bool_decide_unpack _). vm_compute. exact I.
Defined.

Lemma Built_symbols d : Built d -> symbols_in d.
Proof.
  induction 1 as [al | d acc ini HB IH | d f a t ty HB IH
                 | d s HB IH | d s b HB IH].
  - intros p a c (row & H & _). cbn in H. by rewrite lookup_empty in H.
  - unfold DFA.add_state. destruct (ini && _); cbn; [done |].
    by destruct ini, acc.
  - destruct (DFA.add_transition d f a t ty) as [d' r] eqn:Hadd. cbn [fst].
    apply Built_wf in HB as [Hwf _].
    destruct (add_transition_rejects _ _ _ _ _ _ _ Hwf Hadd) as [-> | [-> _]];
      [| done].
    apply add_transition_Ok in Hadd as [_ Hadded]; [| done].
    intros p b c [He | [= -> -> ->]]%(added_edges _ _ _ _ _ Hadded);
      rewrite (ext_alphabets _ _ (added_ext _ _ _ _ _ Hadded)).
    + by eapply IH.
    + apply Hadded.
  - unfold DFA.add_accepting. destruct (negb _); [done |].
    by destruct (DFA.out_of_range d s).
  - unfold DFA.set_accepting. destruct b; [done |]. by case_bool_decide.
Qed.

(** A transition is recorded only between allocated states and on a symbol
    of the alphabet. *)
Lemma Built_delta_None d n s a :
  Built d -> states d = Some n -> ~ (0 <= s <= n /\ a ∈ alphabets d) ->
  delta d s a = None.
Proof.
  intros HB Hn Hout. destruct (delta d s a) as [t|] eqn:Hd; [| done].
  apply delta_has_edge in Hd. exfalso. apply Hout. split.
  - apply Built_wf in HB as [Hwf _].
    destruct (wf_range d Hwf _ _ _ Hd) as (n' & Hn' & ? & _).
    by assert (n' = n) as -> by congruence.
  - by eapply Built_symbols.
Qed.

(** ** What the single-pattern constructor stores with precomputation *)

Lemma KMP_precomputed_inv al P m :
  KMPMatcher.__init__ al P true = Ok m ->
  kmp_inv al P (KMPMatcher.dfa m) /\
  rows_upto al (Z.of_nat (length P)) (KMPMatcher.dfa m) /\
  ff_upto P (Z.of_nat (length P)) (KMPMatcher.fail_functions m).
Proof.
  unfold KMPMatcher.__init__. destruct P as [|c P']; [discriminate |].
  set (P := c :: P'). intros H.
  apply bind_Ok in H as (d & Hd & H).
  apply bind_Ok in H as ([d' ff] & Hloop & H). injection H as <-.
  cbn [KMPMatcher.fail_functions KMPMatcher.dfa].
  apply KMP_initialize_dfa_exact in Hd as [HK Hrows].
  apply (KMP_init_loop_exact al P (length P) 1) in Hloop;
    [done | lia | lia | done | done |].
  split; [by rewrite length_replicate |].
  intros i Hi1 Hi2 Hi3. assert (i = 1%nat) as -> by lia. done.
Qed.

(** X8: with precomputation the constructor stores the prefix function of
    the pattern: [fail_functions[i - 1]], for [i] from 1 to the length of the
    pattern, is the length of the longest proper border of the first [i]
    characters. *)
Theorem kmp_precomputed_fail_functions (alphabet_set : list ascii)
    (pattern : str) (m : KMPMatcher.t) :
  KMPMatcher.__init__ alphabet_set pattern true = Ok m ->
  KMPMatcher.fail_functions m
  = prefix_function_spec pattern <$> seq 1 (length pattern).
Proof.
  intros (_ & _ & [Hlen Hff])%KMP_precomputed_inv.
  apply list_eq_same_length with (length pattern);
    [by rewrite length_fmap, length_seq | done |].
  intros i x y Hi Hx Hy.
  rewrite list_lookup_fmap, lookup_seq_lt in Hy by done. cbn in Hy.
  injection Hy as <-.
  specialize (Hff (S i) ltac:(lia) ltac:(lia) ltac:(lia)).
  replace (S i - 1)%nat with i in Hff by lia.
  rewrite Hff in Hx. by injection Hx as <-.
Qed.

Lemma kmp_precomputed_fail_functions_witness :
  exists m, KMPMatcher.__init__ (lit "AB") (lit "ABAA") true = Ok m /\
    KMPMatcher.fail_functions m = [0; 0; 1; 1].
Proof.
  eexists. split; [vm_compute; reflexivity |].
  rewrite (kmp_precomputed_fail_functions (lit "AB") (lit "ABAA") _);
    vm_compute; reflexivity.
Defined.

(** X9: with precomputation the transition table is the one of the
    string-matching automaton of the pattern: from a state [i] between 0 and
    the length of the pattern, on a symbol [a] of the alphabet, the
    transition leads to the length of the longest prefix of the pattern that
    ends the first [i] characters followed by [a]; there is no other
    transition. *)
Theorem kmp_precomputed_transition_table (alphabet_set : list ascii)
    (pattern : str) (m : KMPMatcher.t) (i : Z) (a : ascii) :
  KMPMatcher.__init__ alphabet_set pattern true = Ok m ->
  DFA.transition (KMPMatcher.dfa m) i a
  = Ok (if bool_decide (0 <= i <= Z.of_nat (length pattern) /\ a ∈ alphabet_set)
        then Some (kmp_delta pattern i a) else None).
Proof.
  intros Hm. rewrite transition_delta. f_equal.
  destruct (KMP_init_spec _ _ _ _ Hm) as (_ & Hal & Hst & _).
  case_bool_decide as Hin.
  - destruct (KMP_precomputed_inv _ _ _ Hm) as (HK & Hrows & _).
    destruct Hin as [Hi Ha]. destruct (Hrows i a Hi Ha) as [t Ht].
    by rewrite Ht, (kmp_exact _ _ _ HK _ _ _ Ht).
  - eapply Built_delta_None; [by eapply KMP_init_Built | exact Hst |].
    by rewrite Hal.
Qed.

Lemma kmp_precomputed_transition_table_witness :
  exists m, KMPMatcher.__init__ (lit "AB") (lit "ABAA") true = Ok m /\
    DFA.transition (KMPMatcher.dfa m) 4 "B" = Ok (Some 2) /\
    DFA.transition (KMPMatcher.dfa m) 4 "C" = Ok None.
Proof.
  eexists. split; [vm_compute; reflexivity |]. split.
  - rewrite (kmp_precomputed_transition_table (lit "AB") (lit "ABAA") _ 4 "B");
      vm_compute; reflexivity.
  - rewrite (kmp_precomputed_transition_table (lit "AB") (lit "ABAA") _ 4 "C");
      vm_compute; reflexivity.
Defined.

(** ** A text that leaves the alphabet *)

Lemma direct_step_foreign d state c :
  delta d state c = None ->
  direct_step d state c = Raise (ValueError "Error in DFA definition").
Proof. intros H. unfold direct_step. by rewrite transition_delta, H. Qed.

Lemma KMP_search_direct_foreign (m : KMPMatcher.t) n P c s2 :
  wf (KMPMatcher.dfa m) -> complete (KMPMatcher.dfa m) ->
  states (KMPMatcher.dfa m) = Some n -> KMPMatcher.pattern m = Some P ->
  (forall s, delta (KMPMatcher.dfa m) s c = None) ->
  forall s1, (forall x, x ∈ s1 -> x ∈ alphabets (KMPMatcher.dfa m)) ->
  forall state index, 0 <= state <= n ->
    KMPMatcher.search_direct m state index (s1 ++ c :: s2)
    = ((KMPMatcher.search_direct m state index s1).1,
       Raise (ValueError "Error in DFA definition")).
Proof.
  intros Hwf Hc Hn HP Hfor. induction s1 as [|sym s1 IH];
    intros Hs state index Hst; cbn [app KMPMatcher.search_direct].
  { by rewrite direct_step_foreign. }
  destruct (direct_step_complete _ _ state sym Hwf Hc Hn Hst) as (t & -> & Ht).
  { apply Hs, elem_of_cons. auto. }
  rewrite (is_accepting_state_in_range _ _ _ Hn Ht), HP.
  assert (Hs' : forall x, x ∈ s1 -> x ∈ alphabets (KMPMatcher.dfa m)).
  { intros x Hin. apply Hs, elem_of_cons. auto. }
  rewrite (IH Hs' t (index + 1) Ht).
  destruct (bool_decide _); [| by destruct (KMPMatcher.search_direct _ _ _ s1)].
  by destruct (KMPMatcher.search_direct m t (index + 1) s1).
Qed.

Lemma AC_search_direct_foreign (m : AhoCorasickMatcher.t) n c s2 :
  wf (AhoCorasickMatcher.dfa m) -> complete (AhoCorasickMatcher.dfa m) ->
  acc_range (AhoCorasickMatcher.dfa m) ->
  covered (AhoCorasickMatcher.dfa m) (AhoCorasickMatcher.pattern_map m) ->
  states (AhoCorasickMatcher.dfa m) = Some n ->
  (forall s, delta (AhoCorasickMatcher.dfa m) s c = None) ->
  forall s1, (forall x, x ∈ s1 -> x ∈ alphabets (AhoCorasickMatcher.dfa m)) ->
  forall state index, 0 <= state <= n ->
    AhoCorasickMatcher.search_direct m state index (s1 ++ c :: s2)
    = ((AhoCorasickMatcher.search_direct m state index s1).1,
       Raise (ValueError "Error in DFA definition")).
Proof.
  intros Hwf Hc Hacc Hcov Hn Hfor. induction s1 as [|sym s1 IH];
    intros Hs state index Hst; cbn [app AhoCorasickMatcher.search_direct].
  { by rewrite direct_step_foreign. }
  destruct (direct_step_complete _ _ state sym Hwf Hc Hn Hst) as (t & -> & Ht).
  { apply Hs, elem_of_cons. auto. }
  assert (Hs' : forall x, x ∈ s1 -> x ∈ alphabets (AhoCorasickMatcher.dfa m)).
  { intros x Hin. apply Hs, elem_of_cons. auto. }
  assert (exists found, AhoCorasickMatcher.report (AhoCorasickMatcher.dfa m)
            (AhoCorasickMatcher.pattern_map m) t index = Ok found)
    as [found ->].
  { unfold AhoCorasickMatcher.report.
    rewrite (is_accepting_state_in_range _ _ _ Hn Ht). cbn [mbind result_bind].
    case_bool_decide as Hin; [| eauto].
    destruct (Hacc t Hin) as (n' & Hn' & Ht').
    destruct (Hcov n' t Hn' Ht') as [p Hp].
    unfold dict_getitem. rewrite Hp. cbn. eauto. }
  rewrite (IH Hs' t (index + 1) Ht).
  by destruct (AhoCorasickMatcher.search_direct m t (index + 1) s1).
Qed.

(** X11: the search of a matcher built with precomputed transitions stops
    at the first character of the text that is not in the alphabet: it
    raises [ValueError] there, after it has yielded the matches of the part
    of the text before that character; this holds for both matchers. *)
Theorem precomputed_search_stops_outside_alphabet :
  (forall alphabet_set pattern m fuel s1 c s2,
     KMPMatcher.__init__ alphabet_set pattern true = Ok m ->
     (forall x, x ∈ s1 -> x ∈ alphabet_set) -> c ∉ alphabet_set ->
     (KMPMatcher.search fuel m (s1 ++ c :: s2)).2
     = ((KMPMatcher.search fuel m s1).2.1,
        Raise (ValueError "Error in DFA definition"))) /\
  (forall alphabet_set patterns m fuel s1 c s2,
     AhoCorasickMatcher.__init__ alphabet_set patterns true = Ok m ->
     (forall x, x ∈ s1 -> x ∈ alphabet_set) -> c ∉ alphabet_set ->
     (AhoCorasickMatcher.search fuel m (s1 ++ c :: s2)).2
     = ((AhoCorasickMatcher.search fuel m s1).2.1,
        Raise (ValueError "Error in DFA definition"))).
Proof.
  split.
  - intros al P m fuel s1 c s2 Hm Hs Hc.
    pose proof (KMP_init_Built _ _ _ _ Hm) as HB.
    apply KMP_init_spec in Hm as (Hwf & Hal & Hst & Hct & HP & Hcomp).
    unfold KMPMatcher.search. rewrite Hct. cbn [snd].
    apply (KMP_search_direct_foreign m (Z.of_nat (length P)) P); auto.
    + intros s. eapply Built_delta_None; [done | exact Hst |].
      rewrite Hal. tauto.
    + by rewrite Hal.
    + lia.
  - intros al Ps m fuel s1 c s2 Hm Hs Hc.
    pose proof (AC_init_Built _ _ _ _ Hm) as HB.
    apply AC_init_spec in Hm
      as (Hwf & Hal & Hct & Hacc & Hcov & (n & Hn & Hpos) & Hcomp).
    unfold AhoCorasickMatcher.search. rewrite Hct. cbn [snd].
    apply (AC_search_direct_foreign m n); auto.
    + intros s. eapply Built_delta_None; [done | exact Hn |].
      rewrite Hal. tauto.
    + by rewrite Hal.
    + lia.
Qed.

Lemma precomputed_search_stops_outside_alphabet_witness :
  (exists m, KMPMatcher.__init__ (lit "AB") (lit "ABA") true = Ok m /\
     (KMPMatcher.search 0 m (lit "ABABxABA")).2
     = ([(0, lit "ABA")], Raise (ValueError "Error in DFA definition"))) /\
  (exists m, AhoCorasickMatcher.__init__ (lit "ABC") [lit "AB"; lit "C"] true
             = Ok m /\
     (AhoCorasickMatcher.search 0 m (lit "ABC ABC")).2
     = ([(0, lit "AB"); (2, lit "C")],
        Raise (ValueError "Error in DFA definition"))).
Proof.
  split.
  - eexists. split; [vm_compute; reflexivity |].
    change (lit "ABABxABA") with (lit "ABAB" ++ "x"%char :: lit "ABA").
    rewrite (proj1 precomputed_search_stops_outside_alphabet (lit "AB")
               (lit "ABA") _ 0%nat (lit "ABAB") "x"%char (lit "ABA")).
    + vm_compute. reflexivity.
    + vm_compute. reflexivity.
    + apply Forall_forall, (bool_decide_unpack _). vm_compute. exact I.
    + apply (bool_decide_unpack _). vm_compute. exact I.
  - eexists. split; [vm_compute; reflexivity |].
    change (lit "ABC ABC") with (lit "ABC" ++ " "%char :: lit "ABC").
    rewrite (proj2 precomputed_search_stops_outside_alphabet (lit "ABC")
               [lit "AB"; lit "C"] _ 0%nat (lit "ABC") " "%char (lit "ABC")).
    + vm_compute. reflexivity.
    + vm_compute. reflexivity.
    + apply Forall_forall, (bool_decide_unpack _). vm_compute. exact I.
    + apply (bool_decide_unpack _). vm_compute. exact I.
Defined.

(** ** When the single-pattern constructor accepts *)

Lemma add_state_accepts d acc ini :
  ini && truthy (initial_state d) = false ->
  exists d', DFA.add_state d acc ini
             = (d', Ok (match states d with None => 0 | Some n => n + 1 end)).
Proof.
  intros H. unfold DFA.add_state. cbn [initial_state DFA.set_states].
  rewrite H. eauto.
Qed.

Lemma list_getitem_in_range {A} (l : list A) (i : Z) :
  0 <= i < Z.of_nat (length l) -> exists x, list_getitem l i = Ok x.
Proof.
  intros Hi. unfold list_getitem. cbv zeta.
  replace (0 <=? i) with true by lia.
  replace ((0 <=? i) && (i <? Z.of_nat (length l))) with true by lia.
  destruct (lookup_lt_is_Some_2 l (Z.to_nat i)) as [x ->]; [lia | eauto].
Qed.

Lemma list_setitem_in_range {A} (l : list A) (i : Z) (x : A) :
  0 <= i < Z.of_nat (length l) ->
  list_setitem l i x = Ok (<[Z.to_nat i := x]> l).
Proof.
  intros Hi. unfold list_setitem. cbv zeta.
  replace (0 <=? i) with true by lia.
  by replace ((0 <=? i) && (i <? Z.of_nat (length l))) with true by lia.
Qed.

Lemma wf_no_row_beyond d n s a :
  wf d -> states d = Some n -> n < s -> delta d s a = None.
Proof.
  intros Hwf Hn Hs. destruct (delta d s a) as [t|] eqn:Hd; [| done].
  apply delta_has_edge, (wf_range d Hwf) in Hd as (n' & Hn' & ? & _).
  assert (n' = n) by congruence. lia.
Qed.

Lemma KMP_chain_progress n al :
  forall rest d i,
    wf d -> states d = Some i -> 0 <= i -> alphabets d = al ->
    (i = 0 -> truthy (initial_state d) = false) ->
    (forall a, delta d i a = None) ->
    (forall c, c ∈ rest -> c ∈ al) ->
    exists d' i', for_each rest (KMPMatcher.add_chain_state n) (d, i)
                  = Ok (d', i').
Proof.
  induction rest as [|sym rest IH]; intros d i Hwf Hst Hi Hal Hini Hfresh Hrest;
    cbn [for_each]; [eauto |].
  destruct (add_state_accepts d (i =? n - 1) (i =? 0)) as [d1 Hadd].
  { destruct (i =? 0) eqn:E; [| done]. cbn. apply Hini. lia. }
  rewrite Hst in Hadd. pose proof (add_state_Ok _ _ _ _ _ Hadd) as Halloc.
  assert (Hwf1 : wf d1).
  { eapply allocated_wf; [| exact Halloc | exact Hwf].
    intros ? ?. simplify_eq. lia. }
  assert (Hst1 : states d1 = Some (i + 1)) by apply Halloc.
  assert (Hal1 : alphabets d1 = al).
  { by rewrite (alloc_alphabets _ _ _ _ Halloc). }
  assert (exists d2, (if i <? n
                      then commit_ (DFA.add_transition d1 i sym (i + 1) SUCCESS)
                      else Ok d1) = Ok d2 /\
            wf d2 /\ states d2 = Some (i + 1) /\ alphabets d2 = al /\
            forall a, delta d2 (i + 1) a = None) as (d2 & Hd2 & Hwf2 & Hst2 & Hal2 & Hfresh2).
  { assert (Hnew : forall a, delta d1 (i + 1) a = None).
    { intros a. rewrite (allocated_delta _ _ _ _ _ _ Halloc).
      eapply wf_no_row_beyond; eauto. lia. }
    destruct (i <? n); [| by exists d1].
    destruct (add_transition_succeeds d1 (i + 1) i sym (i + 1) SUCCESS)
      as [d2 Hd2]; try done; try lia.
    { rewrite Hal1. apply Hrest, elem_of_cons. auto. }
    { by rewrite (allocated_delta _ _ _ _ _ _ Halloc). }
    exists d2. rewrite Hd2. split; [done |].
    apply add_transition_Ok in Hd2 as [Hwf2 Hadded]; [| done].
    pose proof (added_ext _ _ _ _ _ Hadded) as He.
    split; [done |].
    rewrite (ext_states _ _ He), (ext_alphabets _ _ He).
    split; [done |]. split; [done |].
    intros a. rewrite (added_other _ _ _ _ _ Hadded); [done |].
    intros [= ? _]. lia. }
  assert (Hbody : KMPMatcher.add_chain_state n (d, i) sym = Ok (d2, i + 1)).
  { unfold KMPMatcher.add_chain_state. rewrite Hadd.
    cbn [commit_ mbind result_bind]. by rewrite Hd2. }
  rewrite Hbody. cbn [mbind result_bind].
  apply IH; try done; try lia.
  intros c Hc. apply Hrest, elem_of_cons. auto.
Qed.

Lemma KMP_root_loop_progress n :
  forall rest d,
    NoDup rest -> wf d -> states d = Some n -> 0 <= n ->
    (forall a, a ∈ rest -> a ∈ alphabets d) ->
    (forall a, a ∈ rest -> delta d 0 a <> Some 0) ->
    exists d', for_each rest KMPMatcher.add_root_loop d = Ok d'.
Proof.
  induction rest as [|a rest IH]; intros d Hnd Hwf Hst Hn Hal Hnz;
    cbn [for_each]; [eauto |].
  apply NoDup_cons in Hnd as [Ha Hnd].
  assert (Hin : a ∈ a :: rest) by (apply elem_of_cons; auto).
  assert (exists d1, KMPMatcher.add_root_loop d a = Ok d1 /\
            forall b, b <> a -> delta d1 0 b = delta d 0 b) as (d1 & Hd1 & Hsame).
  { unfold KMPMatcher.add_root_loop. rewrite transition_delta.
    cbn [mbind result_bind].
    destruct (delta d 0 a) as [t|] eqn:Hd.
    - cbn [truthy]. destruct (t =? 0) eqn:E.
      + exfalso. apply (Hnz a Hin). rewrite Hd. f_equal. lia.
      + cbn [negb]. eauto.
    - cbn [truthy negb].
      destruct (add_transition_succeeds d n 0 a 0 FAILURE) as [d1 Hd1];
        try done; try lia; [by apply Hal |].
      exists d1. rewrite Hd1. split; [done |].
      apply add_transition_Ok in Hd1 as [_ Hadded]; [| done].
      intros b Hb. apply (added_other _ _ _ _ _ Hadded). congruence. }
  rewrite Hd1. cbn [mbind result_bind].
  destruct (KMP_add_root_loop _ _ _ Hwf Hd1) as (Hwf1 & He & _).
  apply IH; try done.
  - by rewrite (ext_states _ _ He).
  - intros b Hb. rewrite (ext_alphabets _ _ He). apply Hal, elem_of_cons. auto.
  - intros b Hb. rewrite Hsame by (intros ->; done).
    apply Hnz, elem_of_cons. auto.
Qed.

Lemma KMP_failure_edges_progress n ff index :
  0 <= index <= n -> 1 <= index <= Z.of_nat (length ff) ->
  forall rest d,
    wf d -> states d = Some n ->
    (forall a, a ∈ rest -> a ∈ alphabets d) ->
    exists d', for_each rest (KMPMatcher.add_failure_edge ff index) d = Ok d'.
Proof.
  intros Hidx Hff. induction rest as [|a rest IH]; intros d Hwf Hst Hal;
    cbn [for_each]; [eauto |].
  assert (exists d1, KMPMatcher.add_failure_edge ff index d a = Ok d1)
    as [d1 Hd1].
  { unfold KMPMatcher.add_failure_edge. rewrite has_transition_delta.
    cbn [mbind result_bind].
    destruct (delta d index a) as [t|] eqn:Hd; cbn [negb]; [eauto |].
    destruct (list_getitem_in_range ff (index - 1)) as [f ->]; [lia |].
    cbn [mbind result_bind]. rewrite transition_delta.
    cbn [mbind result_bind].
    destruct (add_transition_succeeds d n index a (or0 (delta d f a)) FAILURE)
      as [d1 ->]; try done; [| apply Hal, elem_of_cons; auto | by eauto].
    destruct (delta d f a) as [t|] eqn:Ht; cbn [or0]; [| lia].
    apply delta_has_edge, (wf_range d Hwf) in Ht as (n' & Hn' & _ & ?).
    by assert (n' = n) as -> by congruence. }
  rewrite Hd1. cbn [mbind result_bind].
  destruct (KMP_add_failure_edge _ _ _ _ _ Hwf Hd1) as (Hwf1 & He & _).
  apply IH; try done.
  - by rewrite (ext_states _ _ He).
  - intros b Hb. rewrite (ext_alphabets _ _ He). apply Hal, elem_of_cons. auto.
Qed.

Lemma KMP_init_loop_progress ct al P :
  forall idxs d ff,
    wf d -> states d = Some (Z.of_nat (length P)) -> alphabets d = al ->
    length ff = length P ->
    (forall i, i ∈ idxs -> 1 <= i <= Z.of_nat (length P)) ->
    exists st, for_each idxs (KMPMatcher.init_index ct al P) (d, ff) = Ok st.
Proof.
  induction idxs as [|index idxs IH]; intros d ff Hwf Hst Hal Hlen Hidx;
    cbn [for_each]; [eauto |].
  assert (Hi : 1 <= index <= Z.of_nat (length P)).
  { apply Hidx, elem_of_cons. auto. }
  assert (exists d1 ff1, KMPMatcher.init_index ct al P (d, ff) index
                         = Ok (d1, ff1) /\ length ff1 = length P)
    as (d1 & ff1 & Hbody & Hlen1).
  { unfold KMPMatcher.init_index. cbv beta iota.
    assert (exists d1, (if ct
              then for_each al (KMPMatcher.add_failure_edge ff index) d
              else Ok d) = Ok d1) as [d1 ->].
    { destruct ct; [| eauto].
      apply (KMP_failure_edges_progress (Z.of_nat (length P))); try done;
        try lia. intros a Ha. by rewrite Hal. }
    cbn [mbind result_bind].
    destruct (index <? Z.of_nat (length P)) eqn:E; [| eauto].
    destruct (list_getitem_in_range ff (index - 1)) as [f ->]; [lia |].
    destruct (list_getitem_in_range P index) as [sym ->]; [lia |].
    cbn [mbind result_bind]. rewrite transition_delta. cbn [mbind result_bind].
    rewrite list_setitem_in_range by lia. cbn [mbind result_bind].
    eexists _, _. split; [done |]. by rewrite length_insert. }
  rewrite Hbody. cbn [mbind result_bind].
  destruct (KMP_init_index _ _ _ _ _ _ _ _ Hwf Hbody) as (Hwf1 & He & _).
  apply IH; try done.
  - by rewrite (ext_states _ _ He).
  - by rewrite (ext_alphabets _ _ He).
  - intros i Hin. apply Hidx, elem_of_cons. auto.
Qed.

Lemma KMP_initialize_dfa_chain ct al P d :
  KMPMatcher._initialize_dfa ct al P = Ok d -> forall c, c ∈ P -> c ∈ al.
Proof.
  unfold KMPMatcher._initialize_dfa. intros H.
  apply bind_Ok in H as (d0 & H0 & H).
  apply bind_Ok in H as ([d1 i1] & H1 & H).
  apply commit__Ok in H0 as (s & Hadd%add_state_Ok).
  pose proof (alloc_state _ _ _ _ Hadd) as Hs. cbn in Hs. subst s.
  assert (Hwf0 : wf d0).
  { eapply allocated_wf; [| exact Hadd | apply wf_empty]. intros ? [=]. }
  assert (Hnone : forall i a, delta d0 i a = None).
  { intros i a. rewrite (allocated_delta _ _ _ _ _ _ Hadd).
    unfold delta. cbn. by rewrite lookup_empty. }
  apply (KMP_chain_exact al P P []) in H1
    as (_ & _ & _ & _ & Hch); [| done | done | | | |].
  - intros c [j Hj]%list_elem_of_lookup. by apply Hch in Hj as [_ ?].
  - apply (alloc_states _ _ _ _ Hadd).
  - by rewrite (alloc_alphabets _ _ _ _ Hadd).
  - intros i a t. by rewrite Hnone.
  - intros j c Hj. cbn in Hj. lia.
Qed.

Lemma KMP_initialize_dfa_progress ct al P :
  NoDup al -> (forall c, c ∈ P -> c ∈ al) ->
  exists d, KMPMatcher._initialize_dfa ct al P = Ok d.
Proof.
  intros Hnd HP. unfold KMPMatcher._initialize_dfa.
  destruct (add_state_accepts (DFA.__init__ al) (0 =? Z.of_nat (length P)) true)
    as [d0 Hadd]; [done |].
  cbn [states DFA.__init__] in Hadd. rewrite Hadd. cbn [commit_ mbind result_bind].
  pose proof (add_state_Ok _ _ _ _ _ Hadd) as Halloc.
  assert (Hwf0 : wf d0).
  { eapply allocated_wf; [| exact Halloc | apply wf_empty]. intros ? [=]. }
  assert (Hnone : forall i a, delta d0 i a = None).
  { intros i a. rewrite (allocated_delta _ _ _ _ _ _ Halloc).
    unfold delta. cbn. by rewrite lookup_empty. }
  assert (Hini0 : initial_state d0 = Some 0).
  { unfold DFA.add_state in Hadd. cbn in Hadd. injection Hadd as <-.
    by destruct (Z.of_nat (length P)). }
  destruct (KMP_chain_progress (Z.of_nat (length P)) al P d0 0)
    as (d1 & i1 & H1); try done.
  { apply Halloc. }
  { by rewrite (alloc_alphabets _ _ _ _ Halloc). }
  { intros _. by rewrite Hini0. }
  rewrite H1. cbn [mbind result_bind].
  destruct ct; [| eauto].
  assert (H1' := H1).
  apply (KMP_chain_exact al P P []) in H1'
    as (Hwf1 & Hst1 & Hal1 & Honly & _); [| done | done | | | |].
  - apply (KMP_root_loop_progress (Z.of_nat (length P))); try done; try lia.
    + intros a Ha. by rewrite Hal1.
    + intros a _ Hd. apply Honly in Hd as (j & _ & _ & ?). lia.
  - apply (alloc_states _ _ _ _ Halloc).
  - by rewrite (alloc_alphabets _ _ _ _ Halloc).
  - intros i a t. by rewrite Hnone.
  - intros j c Hj. cbn in Hj. lia.
Qed.

(** X12: the single-pattern constructor accepts its arguments, in either
    mode, exactly when the pattern is not empty and each of its characters is
    in the alphabet. *)
Theorem kmp_constructor_accepts_iff (alphabet_set : list ascii)
    (pattern : str) (compute_transitions : bool) :
  NoDup alphabet_set ->
  ((exists m, KMPMatcher.__init__ alphabet_set pattern compute_transitions
              = Ok m)
   <-> pattern <> [] /\ forall c, c ∈ pattern -> c ∈ alphabet_set).
Proof.
  intros Hnd. split.
  - intros [m Hm]. split; [by intros -> |].
    unfold KMPMatcher.__init__ in Hm. destruct pattern as [|c P']; [done |].
    apply bind_Ok in Hm as (d & Hd & _).
    by eapply KMP_initialize_dfa_chain.
  - intros [Hne HP]. unfold KMPMatcher.__init__.
    destruct pattern as [|c P']; [done |]. set (P := c :: P') in *.
    destruct (KMP_initialize_dfa_progress compute_transitions alphabet_set P)
      as [d Hd]; [done | done |].
    rewrite Hd. cbn [mbind result_bind].
    apply KMP_initialize_dfa in Hd as (Hwf & Hal & Hst & _).
    destruct (KMP_init_loop_progress compute_transitions alphabet_set P
                (seqZ 1 (Z.of_nat (length P))) d (replicate (length P) 0))
      as [[d' ff] ->]; try done.
    + by rewrite length_replicate.
    + intros i Hi%elem_of_seqZ. lia.
    + cbn. eauto.
Qed.

Lemma kmp_constructor_accepts_iff_witness :
  (exists m, KMPMatcher.__init__ (lit "AB") (lit "ABAA") false = Ok m) /\
  ~ (exists m, KMPMatcher.__init__ (lit "AB") (lit "ABC") true = Ok m).
Proof.
  assert (Hnd : NoDup (lit "AB")).
  { apply (bool_decide_unpack _). vm_compute. exact I. }
  split.
  - apply (kmp_constructor_accepts_iff (lit "AB") (lit "ABAA") false Hnd).
    split; [done |]. apply Forall_forall, (bool_decide_unpack _).
    vm_compute. exact I.
  - intros [_ H]%(kmp_constructor_accepts_iff (lit "AB") (lit "ABC") true Hnd).
    specialize (H "C"%char). revert H. apply (bool_decide_unpack _).
    vm_compute. exact I.
Defined.

(** ** What a search leaves behind *)

Lemma KMP_search_ext fuel (m : KMPMatcher.t) s :
  wf (KMPMatcher.dfa m) ->
  let m' := (KMPMatcher.search fuel m s).1 in
  KMPMatcher.compute_transitions m' = KMPMatcher.compute_transitions m /\
  KMPMatcher.fail_functions m' = KMPMatcher.fail_functions m /\
  KMPMatcher.pattern m' = KMPMatcher.pattern m /\
  ext (KMPMatcher.dfa m) (KMPMatcher.dfa m') /\
  (KMPMatcher.compute_transitions m = true -> m' = m).
Proof.
  intros Hwf. unfold KMPMatcher.search.
  destruct (KMPMatcher.compute_transitions m) eqn:Hct; cbn [fst].
  { rewrite Hct. split; [done |]. split; [done |]. split; [done |].
    split; [reflexivity | done]. }
  destruct (KMPMatcher.pattern m) as [p|] eqn:Hp; cbn [fst].
  2:{ rewrite Hct, Hp. split; [done |]. split; [done |]. split; [done |].
      split; [reflexivity | done]. }
  destruct (KMPMatcher.search_lazy_transition _ _ _ _ _ _ _) as [d2 out] eqn:Hs.
  apply search_lazy_transition_again in Hs as (_ & He & _); [| done].
  cbn. split; [done |]. split; [done |]. split; [done |]. split; done.
Qed.

Lemma AC_search_ext fuel (m : AhoCorasickMatcher.t) s :
  wf (AhoCorasickMatcher.dfa m) ->
  let m' := (AhoCorasickMatcher.search fuel m s).1 in
  AhoCorasickMatcher.compute_transitions m'
  = AhoCorasickMatcher.compute_transitions m /\
  AhoCorasickMatcher.fail_functions m' = AhoCorasickMatcher.fail_functions m /\
  AhoCorasickMatcher.pattern_map m' = AhoCorasickMatcher.pattern_map m /\
  ext (AhoCorasickMatcher.dfa m) (AhoCorasickMatcher.dfa m') /\
  (AhoCorasickMatcher.compute_transitions m = true -> m' = m).
Proof.
  intros Hwf. unfold AhoCorasickMatcher.search.
  destruct (AhoCorasickMatcher.compute_transitions m) eqn:Hct; cbn [fst].
  { rewrite Hct. split; [done |]. split; [done |]. split; [done |].
    split; [reflexivity | done]. }
  destruct (AhoCorasickMatcher.search_lazy _ _ _ _ _ _ _) as [d2 out] eqn:Hs.
  apply search_lazy_again in Hs as (_ & He & _); [| done].
  cbn. split; [done |]. split; [done |]. split; [done |]. split; done.
Qed.

(** X13: a search changes a matcher only by recording transitions that were
    missing: afterwards every transition of the automaton is still there with
    the same target, the states, the alphabet, the initial state and the
    accepting states are the same, and so are the fail functions; a matcher
    with precomputed transitions is left as it was. This holds for both
    matchers and however the search ends. *)
Theorem search_only_adds_transitions :
  (forall alphabet_set pattern compute_transitions m fuel s,
     KMPMatcher.__init__ alphabet_set pattern compute_transitions = Ok m ->
     let m' := (KMPMatcher.search fuel m s).1 in
     KMPMatcher.fail_functions m' = KMPMatcher.fail_functions m /\
     KMPMatcher.pattern m' = KMPMatcher.pattern m /\
     states (KMPMatcher.dfa m') = states (KMPMatcher.dfa m) /\
     alphabets (KMPMatcher.dfa m') = alphabets (KMPMatcher.dfa m) /\
     initial_state (KMPMatcher.dfa m') = initial_state (KMPMatcher.dfa m) /\
     accepting_states (KMPMatcher.dfa m')
     = accepting_states (KMPMatcher.dfa m) /\
     (forall st a t, DFA.transition (KMPMatcher.dfa m) st a = Ok (Some t) ->
        DFA.transition (KMPMatcher.dfa m') st a = Ok (Some t)) /\
     (compute_transitions = true -> m' = m)) /\
  (forall alphabet_set patterns compute_transitions m fuel s,
     AhoCorasickMatcher.__init__ alphabet_set patterns compute_transitions
     = Ok m ->
     let m' := (AhoCorasickMatcher.search fuel m s).1 in
     AhoCorasickMatcher.fail_functions m' = AhoCorasickMatcher.fail_functions m /\
     AhoCorasickMatcher.pattern_map m' = AhoCorasickMatcher.pattern_map m /\
     states (AhoCorasickMatcher.dfa m') = states (AhoCorasickMatcher.dfa m) /\
     alphabets (AhoCorasickMatcher.dfa m')
     = alphabets (AhoCorasickMatcher.dfa m) /\
     initial_state (AhoCorasickMatcher.dfa m')
     = initial_state (AhoCorasickMatcher.dfa m) /\
     accepting_states (AhoCorasickMatcher.dfa m')
     = accepting_states (AhoCorasickMatcher.dfa m) /\
     (forall st a t,
        DFA.transition (AhoCorasickMatcher.dfa m) st a = Ok (Some t) ->
        DFA.transition (AhoCorasickMatcher.dfa m') st a = Ok (Some t)) /\
     (compute_transitions = true -> m' = m)).
Proof.
  split.
  - intros al P ct m fuel s Hm m'.
    apply KMP_init_spec in Hm as (Hwf & _ & _ & Hct & _).
    destruct (KMP_search_ext fuel m s Hwf) as (_ & Hff & Hp & He & Hsame).
    fold m' in Hff, Hp, He, Hsame.
    split; [done |]. split; [done |].
    split; [apply He |]. split; [apply He |]. split; [apply He |].
    split; [apply He |]. split.
    + intros st a t. rewrite !transition_delta. intros [= Hd].
      by rewrite (ext_delta _ _ He _ _ _ Hd).
    + intros ->. by apply Hsame.
  - intros al Ps ct m fuel s Hm m'.
    apply AC_init_spec in Hm as (Hwf & _ & Hct & _).
    destruct (AC_search_ext fuel m s Hwf) as (_ & Hff & Hp & He & Hsame).
    fold m' in Hff, Hp, He, Hsame.
    split; [done |]. split; [done |].
    split; [apply He |]. split; [apply He |]. split; [apply He |].
    split; [apply He |]. split.
    + intros st a t. rewrite !transition_delta. intros [= Hd].
      by rewrite (ext_delta _ _ He _ _ _ Hd).
    + intros ->. by apply Hsame.
Qed.

Lemma search_only_adds_transitions_witness :
  (exists m, KMPMatcher.__init__ (lit "AB") (lit "ABAA") false = Ok m /\
     KMPMatcher.fail_functions (KMPMatcher.search 2 m (lit "ABAABAA")).1
     = KMPMatcher.fail_functions m) /\
  (exists m, AhoCorasickMatcher.__init__ (lit "ABC") [lit "AB"; lit "C"] false
             = Ok m /\
     AhoCorasickMatcher.fail_functions
       (AhoCorasickMatcher.search 2 m (lit "ACAB")).1
     = AhoCorasickMatcher.fail_functions m).
Proof.
  split.
  - eexists. split; [vm_compute; reflexivity |].
    eapply (proj1 search_only_adds_transitions (lit "AB") (lit "ABAA") false).
    vm_compute. reflexivity.
  - eexists. split; [vm_compute; reflexivity |].
    eapply (proj2 search_only_adds_transitions (lit "ABC")
              [lit "AB"; lit "C"] false).
    vm_compute. reflexivity.
Defined.

(** ** Saving a matcher and loading it again *)

Lemma restore_pattern_map_str_keys (pm : gmap Z str) :
  restore_pattern_map (str_keys pm) = Ok pm.
Proof.
  unfold restore_pattern_map.
  rewrite (restore_str_keys restore_row id pm).
  - by rewrite map_fmap_id.
  - intros acc k w _. unfold restore_row. cbn. by rewrite py_int_py_str.
Qed.

(** X14: a multi-pattern matcher saved by [build_dfa] and loaded by
    [load_matcher_from_file] is the matcher that was built, with the mode
    flag given to the load; so a search through the saved file, with the flag
    the file was built with, returns what the search with the patterns
    returns, errors of the construction included. *)
Theorem load_after_build_aho_corasick (alphabet_set : list ascii)
    (patterns : list str) (algorithm : string) (precompute : bool) :
  NoDup alphabet_set -> algorithm <> "kmp"%string ->
  (forall data precompute',
     build_dfa alphabet_set patterns algorithm precompute = Ok data ->
     exists m,
       AhoCorasickMatcher.__init__ alphabet_set patterns precompute = Ok m /\
       load_matcher_from_file data precompute'
       = Ok (AhoCorasick
               {| AhoCorasickMatcher.compute_transitions := precompute';
                  AhoCorasickMatcher.fail_functions :=
                    AhoCorasickMatcher.fail_functions m;
                  AhoCorasickMatcher.dfa := AhoCorasickMatcher.dfa m;
                  AhoCorasickMatcher.pattern_map :=
                    AhoCorasickMatcher.pattern_map m |})) /\
  (forall fuel s,
     reload_run fuel alphabet_set patterns algorithm precompute s
     = ac_run fuel alphabet_set patterns precompute s).
Proof.
  intros Hnd Halg.
  assert (Hload : forall data precompute',
     build_dfa alphabet_set patterns algorithm precompute = Ok data ->
     exists m,
       AhoCorasickMatcher.__init__ alphabet_set patterns precompute = Ok m /\
       load_matcher_from_file data precompute'
       = Ok (AhoCorasick
               {| AhoCorasickMatcher.compute_transitions := precompute';
                  AhoCorasickMatcher.fail_functions :=
                    AhoCorasickMatcher.fail_functions m;
                  AhoCorasickMatcher.dfa := AhoCorasickMatcher.dfa m;
                  AhoCorasickMatcher.pattern_map :=
                    AhoCorasickMatcher.pattern_map m |})).
  { intros data pre'. unfold build_dfa.
    rewrite bool_decide_eq_false_2 by done. intros H.
    apply bind_Ok in H as (m & Hm & H). injection H as <-.
    exists m. split; [done |]. unfold load_matcher_from_file.
    cbn [env_algorithm env_dfa env_fail_functions env_pattern_map].
    rewrite bool_decide_eq_false_2 by discriminate.
    rewrite bool_decide_eq_true_2 by done.
    rewrite from_dict_to_dict.
    - cbn [mbind result_bind field].
      by rewrite restore_pattern_map_str_keys.
    - by eapply AC_init_Built.
    - apply AC_init_spec in Hm as (_ & -> & _). done. }
  split; [done |]. intros fuel s. unfold reload_run, ac_run.
  destruct (build_dfa alphabet_set patterns algorithm precompute)
    as [data | e |] eqn:Hb.
  - destruct (Hload data precompute eq_refl) as (m & Hm & Hl).
    cbn [mbind result_bind]. rewrite Hl, Hm. cbn. do 3 f_equal.
    apply AC_init_spec in Hm as (_ & _ & Hct & _).
    destruct m; cbn in *; by subst.
  - unfold build_dfa in Hb. rewrite bool_decide_eq_false_2 in Hb by done.
    destruct (AhoCorasickMatcher.__init__ _ _ _); cbn in *; congruence.
  - unfold build_dfa in Hb. rewrite bool_decide_eq_false_2 in Hb by done.
    destruct (AhoCorasickMatcher.__init__ _ _ _); cbn in *; congruence.
Qed.

Lemma load_after_build_aho_corasick_witness :
  reload_run 2 (lit "ABC") [lit "AB"; lit "C"] "aho-corasick" false (lit "ACAB")
  = ac_run 2 (lit "ABC") [lit "AB"; lit "C"] false (lit "ACAB").
Proof.
  apply (load_after_build_aho_corasick (lit "ABC") [lit "AB"; lit "C"]
           "aho-corasick" false).
  - apply (bool_decide_unpack _). vm_compute. exact I.
  - discriminate.
Defined.



